(** * twirp-tester: the proto template engine (protoparser.js)

    A shallow embedding of the template generator, the optional-field
    extractor, the explicit-optional scanner and the method catalog walk of
    [protoparser.js], with the properties the design document states about
    them.

    Modelling conventions.
    - The schema is the object graph protobufjs builds.  Message types are
      heap objects that may reference each other cyclically, so they are
      addressed by a [TypeId] and read through [typeOf]; the namespace tree
      that [extractServices] walks is a finite tree ([ReflectionObject]).
    - The protobufjs lookups ([root.lookupType], [root.lookupTypeOrEnum],
      [root.lookupEnum]) belong to the library, not to this repository: they
      are fields of the schema, returning [None] where the library throws.
    - JavaScript exceptions are explicit ([Throw]).  The two recursive
      walkers are given twice.  [generateEmptyJsonTemplate] and
      [extractOptionalFieldsRecursive] are the run in which the call stack
      never runs out: a recursion that does not end is [Diverge] for every
      amount of fuel.  [OnStack.generateEmptyJsonTemplate] and
      [OnStack.extractOptionalFieldsRecursive] are the run on an engine whose
      stack holds a given number of nested activations: the activation that
      does not fit raises [RangeError], an exception like any other, which
      the bare [catch] blocks of the source swallow.  The two agree wherever
      the first returns ([onStack_generate_agrees], [onStack_extract_agrees]).
    - Source text is a [string] of bytes: the UTF-8 form in which the files
      are read.  White space is the class of [String.prototype.trim] and of
      [\s] (the ASCII blanks and the Unicode spaces, see [Text.spanSpace]),
      recognised on its UTF-8 sequences; word characters ([\w]) are ASCII.
    - A JavaScript object is its list of own properties in insertion order
      (a finite map where only lookups matter); the key [__proto__] is not
      given its special meaning. *)

From Stdlib Require Import ZArith Ascii String List Lia.
From stdpp Require Import base option list gmap strings.

Set Warnings "-register-all".

(** ** Outcomes of a JavaScript call *)

Inductive result (A : Type) : Type :=
| Ok (a : A)
| Throw (msg : string)
| Diverge.

Arguments Ok {A} a.
Arguments Throw {A} msg.
Arguments Diverge {A}.

#[global] Instance result_ret : MRet result := fun A a => Ok a.

#[global] Instance result_bind : MBind result := fun A B k m =>
  match m with
  | Ok a => k a
  | Throw e => Throw e
  | Diverge => Diverge
  end.

(** [try { m } catch { h }]: an exception is handled, divergence is not. *)
Definition try_catch {A} (m : result A) (h : string -> result A) : result A :=
  match m with
  | Throw e => h e
  | other => other
  end.

Fixpoint foldM {A S} (step : S -> A -> result S) (l : list A) (st : S) : result S :=
  match l with
  | [] => Ok st
  | x :: rest => st' ← step st x; foldM step rest st'
  end.

(** ** JSON values and JavaScript objects *)

(** JavaScript has one number type: the [0] of the integer fields and the
    [0.0] of float and double are the same value, [JNum 0]. *)

Inductive Json : Type :=
| JStr (s : string)
| JBool (b : bool)
| JNum (z : Z)
| JArr (items : list Json)
| JObj (props : list (string * Json)).

(** [o[k] = v] on an object kept as its ordered property list. *)
Fixpoint obj_set {A} (k : string) (v : A) (o : list (string * A)) : list (string * A) :=
  match o with
  | [] => [(k, v)]
  | (k', v') :: rest =>
      if String.eqb k' k then (k, v) :: rest else (k', v') :: obj_set k v rest
  end.

Fixpoint obj_get {A} (k : string) (o : list (string * A)) : option A :=
  match o with
  | [] => None
  | (k', v') :: rest => if String.eqb k' k then Some v' else obj_get k rest
  end.

(** ** The schema objects of protobufjs *)

Definition TypeId := nat.

Inductive Rule := RuleNone | RuleOptional | RuleRequired | RuleRepeated.

Record Enum := { values : list (string * Z) }.

(** What a reference held by the schema can point to. *)
Inductive TypeOrEnum :=
| IsType (t : TypeId)
| IsEnum (e : Enum).

(** An entry of a message type's [nested] object. *)
Inductive Nested :=
| NestedType (t : TypeId)
| NestedEnum (e : Enum)
| NestedOther.

Record Field := {
  name : string;
  type : string;
  rule : Rule;
  resolvedType : option TypeOrEnum
}.

Record MessageType := {
  tname : string;
  fieldsArray : list Field;
  nested : option (list (string * Nested))
}.

Record Schema := {
  typeOf : TypeId -> MessageType;
  lookupType : string -> option TypeId;
  lookupTypeOrEnum : string -> option TypeOrEnum;
  lookupEnum : string -> option Enum
}.

Definition rule_eqb (a b : Rule) : bool :=
  match a, b with
  | RuleNone, RuleNone | RuleOptional, RuleOptional
  | RuleRequired, RuleRequired | RuleRepeated, RuleRepeated => true
  | _, _ => false
  end.

(** [parentType.nested && parentType.nested[fieldType]] *)
Definition nested_get (t : MessageType) (key : string) : option Nested :=
  match nested t with
  | Some entries => obj_get key entries
  | None => None
  end.

(** [Object.keys(e.values)], then [values.length > 0 ? values[0] : ''] *)
Definition firstEnumValue (e : Enum) : Json :=
  match map fst (values e) with
  | v :: _ => JStr v
  | [] => JStr ""
  end.

(** ** Template generator *)

Definition throwing {A} (what : string) (o : option A) : result A :=
  match o with
  | Some a => Ok a
  | None => Throw what
  end.

Section Template.
Variable s : Schema.

(** [getEmptyValueForType(fieldType, root, parentType)], with the recursive
    call to [generateEmptyJsonTemplate] left open as [gen]. *)
Definition getEmptyValueForType_with (gen : TypeId -> result Json)
    (fieldType : string) (parentType : TypeId) : result Json :=
  if String.eqb fieldType "string" then Ok (JStr "")
  else if String.eqb fieldType "bool" then Ok (JBool false)
  else if (String.eqb fieldType "int32" || String.eqb fieldType "int64"
           || String.eqb fieldType "uint32" || String.eqb fieldType "uint64"
           || String.eqb fieldType "sint32" || String.eqb fieldType "sint64"
           || String.eqb fieldType "fixed32" || String.eqb fieldType "fixed64"
           || String.eqb fieldType "sfixed32" || String.eqb fieldType "sfixed64")%bool
  then Ok (JNum 0)
  else if (String.eqb fieldType "float" || String.eqb fieldType "double")%bool
  then Ok (JNum 0)
  else if String.eqb fieldType "bytes" then Ok (JStr "")
  else if String.eqb fieldType "google.protobuf.Timestamp" then Ok (JStr "")
  else
    let global :=
      try_catch
        (nestedType ← throwing "no such type" (lookupType s fieldType);
         gen nestedType)
        (fun _ =>
           try_catch
             (nestedType ← throwing "no such Type or Enum" (lookupTypeOrEnum s fieldType);
              match nestedType with
              | IsType t => gen t
              | IsEnum e => Ok (firstEnumValue e)
              end)
             (fun _ =>
                try_catch
                  (enumType ← throwing "no such enum" (lookupEnum s fieldType);
                   Ok (firstEnumValue enumType))
                  (fun _ => Ok (JStr ""))))
    in
    match nested_get (typeOf s parentType) fieldType with
    | Some (NestedType t) => gen t
    | Some (NestedEnum e) => Ok (firstEnumValue e)
    | Some NestedOther | None => global
    end.

(** The body of the [for (const field of messageType.fieldsArray)] loop. *)
Definition templateStep (gen : TypeId -> result Json) (messageType : TypeId)
    (template : list (string * Json)) (field : Field) : result (list (string * Json)) :=
  emptyValue ← getEmptyValueForType_with gen (type field) messageType;
  let emptyValue := if rule_eqb (rule field) RuleRepeated then JArr [] else emptyValue in
  Ok (obj_set (name field) emptyValue template).

Fixpoint generateEmptyJsonTemplate (fuel : nat) (messageType : TypeId) : result Json :=
  match fuel with
  | O => Diverge
  | S fuel' =>
      template ← foldM (templateStep (generateEmptyJsonTemplate fuel') messageType)
                       (fieldsArray (typeOf s messageType)) [];
      Ok (JObj template)
  end.

Definition getEmptyValueForType (fuel : nat) (fieldType : string) (parentType : TypeId)
    : result Json :=
  getEmptyValueForType_with (generateEmptyJsonTemplate fuel) fieldType parentType.
End Template.

(** ** The seeded timestamp type *)

(** [new protobuf.Type(name)] *)
Definition newType (typeName : string) : MessageType :=
  {| tname := typeName; fieldsArray := []; nested := None |}.

(** [new protobuf.Field(name, id, type)]; the id plays no part here. *)
Definition newField (fieldName fieldType : string) : Field :=
  {| name := fieldName; type := fieldType; rule := RuleNone; resolvedType := None |}.

(** [type.add(object)] of protobufjs, called with the given arguments.  The
    method has one parameter: JavaScript binds it to the first argument and
    drops the others.  (Called without an argument it raises; the source has
    no such call.) *)
Definition add (t : MessageType) (arguments : list Field) : MessageType :=
  match arguments with
  | object :: _ =>
      {| tname := tname t; fieldsArray := fieldsArray t ++ [object]; nested := nested t |}
  | [] => t
  end.

(** The message type [parseProtoContent] and [getOptionalFieldsMap] add to
    the root under [google.protobuf] before parsing:
    [new protobuf.Type('Timestamp').add(new protobuf.Field('seconds', 1, 'int64'),
                                        new protobuf.Field('nanos', 2, 'int32'))].
    Both fields are passed to one call of [add], so the type keeps
    [seconds] only. *)
Definition TimestampType : MessageType :=
  add (newType "Timestamp") [newField "seconds" "int64"; newField "nanos" "int32"].

(** The type the call was written for: both fields in it. *)
Definition TwoFieldTimestamp : MessageType :=
  add (add (newType "Timestamp") [newField "seconds" "int64"]) [newField "nanos" "int32"].

(** ** Optional-field extractor *)

(** [prefix ? `${prefix}.${last}` : last] *)
Definition dotted (prefix last : string) : string :=
  if String.eqb prefix "" then last else prefix +:+ "." +:+ last.

Section Extractor.
Variable s : Schema.
Variable explicitOptionalFields : gset string.

(** The body of the loop of [extractOptionalFieldsRecursive].  The array
    [optionalFields] it pushes to is threaded through.  Nothing in the
    [try] block throws but a recursive call that the stack has no room for,
    so its [catch] only has to keep the array. *)
Definition extractStep
    (recur : TypeId -> string -> string -> list string -> result (list string))
    (type_ : TypeId) (fieldPrefix typePrefix : string)
    (optionalFields : list string) (field : Field) : result (list string) :=
  let fieldPath := dotted fieldPrefix (name field) in
  let typePath := dotted typePrefix (tname (typeOf s type_) +:+ "." +:+ name field) in
  let optionalFields :=
    if bool_decide (typePath ∈ explicitOptionalFields)
    then optionalFields ++ [fieldPath] else optionalFields in
  let typePrefix' := dotted typePrefix (tname (typeOf s type_)) in
  try_catch
    (match resolvedType field with
     | Some (IsType t) => recur t fieldPath typePrefix' optionalFields
     | Some (IsEnum _) | None =>
         match nested_get (typeOf s type_) (type field) with
         | Some (NestedType t) => recur t fieldPath typePrefix' optionalFields
         | Some (NestedEnum _) | Some NestedOther | None => Ok optionalFields
         end
     end)
    (fun _ => Ok optionalFields).

Fixpoint extractOptionalFieldsRecursive (fuel : nat) (type_ : TypeId)
    (fieldPrefix typePrefix : string) (optionalFields : list string)
    : result (list string) :=
  match fuel with
  | O => Diverge
  | S fuel' =>
      foldM (extractStep (extractOptionalFieldsRecursive fuel') type_ fieldPrefix typePrefix)
            (fieldsArray (typeOf s type_)) optionalFields
  end.

Definition getOptionalFieldsFromTypeWithExplicit (fuel : nat) (messageType : TypeId)
    : result (list string) :=
  extractOptionalFieldsRecursive fuel messageType "" "" [].
End Extractor.

(** ** The walkers on a bounded call stack *)

(** [RangeError: Maximum call stack size exceeded] *)
Definition RangeError : string := "Maximum call stack size exceeded".

(** The same two functions on an engine whose stack has room for [frames]
    nested activations of the walker.  The bodies are the ones above; the
    activation that does not fit raises [RangeError] where it is called.
    The extractor's array is as the refused call found it, since that call
    pushed nothing. *)
Module OnStack.
Section Walkers.
Variable s : Schema.

Fixpoint generateEmptyJsonTemplate (frames : nat) (messageType : TypeId) : result Json :=
  match frames with
  | O => Throw RangeError
  | S frames' =>
      template ← foldM (templateStep s (generateEmptyJsonTemplate frames') messageType)
                       (fieldsArray (typeOf s messageType)) [];
      Ok (JObj template)
  end.

Definition getEmptyValueForType (frames : nat) (fieldType : string) (parentType : TypeId)
    : result Json :=
  getEmptyValueForType_with s (generateEmptyJsonTemplate frames) fieldType parentType.

Variable explicitOptionalFields : gset string.

Fixpoint extractOptionalFieldsRecursive (frames : nat) (type_ : TypeId)
    (fieldPrefix typePrefix : string) (optionalFields : list string)
    : result (list string) :=
  match frames with
  | O => Throw RangeError
  | S frames' =>
      foldM (extractStep s explicitOptionalFields (extractOptionalFieldsRecursive frames')
               type_ fieldPrefix typePrefix)
            (fieldsArray (typeOf s type_)) optionalFields
  end.

Definition getOptionalFieldsFromTypeWithExplicit (frames : nat) (messageType : TypeId)
    : result (list string) :=
  extractOptionalFieldsRecursive frames messageType "" "" [].
End Walkers.
End OnStack.

(** ** Explicit-optional scanner *)

(** String primitives of JavaScript used by the scanner: [split], [trim],
    [startsWith] and the three regular expressions, each written as the
    deterministic matcher it denotes (every quantified class is disjoint
    from what follows it, so greedy matching never backtracks). *)
Module Text.
Definition is_word (c : ascii) : bool :=
  let n := nat_of_ascii c in
  ((48 <=? n) && (n <=? 57) || (65 <=? n) && (n <=? 90)
   || (97 <=? n) && (n <=? 122) || (n =? 95))%bool%nat.

Definition is_word_or_dot (c : ascii) : bool :=
  (is_word c || Ascii.eqb c ".")%bool.

(** [s.split(sep)] for a one-character separator *)
Fixpoint split (sep : ascii) (s : string) : list string :=
  match s with
  | EmptyString => [""]
  | String c rest =>
      if Ascii.eqb c sep then "" :: split sep rest
      else match split sep rest with
           | h :: t => String c h :: t
           | [] => [String c ""]
           end
  end.

(** White space of JavaScript beyond ASCII, by its UTF-8 bytes: U+00A0 is
    [C2 A0]; U+1680 is [E1 9A 80]; U+2000 to U+200A, U+2028, U+2029 and
    U+202F are [E2 80] followed by [80] to [8A], [A8], [A9], [AF]; U+205F is
    [E2 81 9F]; U+3000 is [E3 80 80]; U+FEFF is [EF BB BF].  A lead byte
    never occurs inside another character, so the bytes are that character
    wherever they stand. *)
Definition is_space2 (c d : ascii) : bool :=
  (Ascii.eqb c "194" && Ascii.eqb d "160")%bool.

Definition is_space3 (c d e : ascii) : bool :=
  let n := nat_of_ascii e in
  (Ascii.eqb c "225" && Ascii.eqb d "154" && Ascii.eqb e "128"
   || Ascii.eqb c "226" && Ascii.eqb d "128"
      && ((128 <=? n) && (n <=? 138) || (n =? 168) || (n =? 169) || (n =? 175))
   || Ascii.eqb c "226" && Ascii.eqb d "129" && Ascii.eqb e "159"
   || Ascii.eqb c "227" && Ascii.eqb d "128" && Ascii.eqb e "128"
   || Ascii.eqb c "239" && Ascii.eqb d "187" && Ascii.eqb e "191")%bool%nat.

(** The bytes a white-space character can start with. *)
Definition leadsSpace (c : ascii) : bool :=
  (Ascii.is_space c || Ascii.eqb c "194" || Ascii.eqb c "225" || Ascii.eqb c "226"
   || Ascii.eqb c "227" || Ascii.eqb c "239")%bool.

(** [\s*] at the start of a string: the longest run of white space, and
    what follows it. *)
Fixpoint spanSpace (s : string) : string * string :=
  match s with
  | EmptyString => ("", "")
  | String c rest =>
      if Ascii.is_space c then let '(a, b) := spanSpace rest in (String c a, b)
      else match rest with
           | String d rest2 =>
               if is_space2 c d
               then let '(a, b) := spanSpace rest2 in (String c (String d a), b)
               else match rest2 with
                    | String e rest3 =>
                        if is_space3 c d e
                        then let '(a, b) := spanSpace rest3 in
                             (String c (String d (String e a)), b)
                        else ("", s)
                    | EmptyString => ("", s)
                    end
           | EmptyString => ("", s)
           end
  end.

Definition trimStart (s : string) : string := (spanSpace s).2.

(** The end of a string is trimmed from the first place after which only
    white space follows. *)
Fixpoint trimEnd (s : string) : string :=
  match s with
  | EmptyString => ""
  | String c rest => if String.eqb (trimStart s) "" then "" else String c (trimEnd rest)
  end.

Definition trim (s : string) : string := trimEnd (trimStart s).

Definition startsWith (s p : string) : bool := String.prefix p s.

(** the longest prefix of characters in a class, and what follows it *)
Fixpoint span (p : ascii -> bool) (s : string) : string * string :=
  match s with
  | EmptyString => ("", "")
  | String c rest =>
      if p c then let '(a, b) := span p rest in (String c a, b) else ("", s)
  end.

Fixpoint strip (p s : string) : option string :=
  match p, s with
  | EmptyString, _ => Some s
  | String a p', String b s' => if Ascii.eqb a b then strip p' s' else None
  | String _ _, EmptyString => None
  end.

(** [(s.match(/c/g) || []).length] *)
Fixpoint count (c : ascii) (s : string) : nat :=
  match s with
  | EmptyString => 0
  | String d rest => (if Ascii.eqb c d then 1 else 0) + count c rest
  end.

Definition nonempty (s : string) : bool := negb (String.eqb s "").

(** [/^\s*message\s+(\w+)/], the captured name *)
Definition messageMatch (s : string) : option string :=
  rest ← strip "message" (trimStart s);
  let '(ws, rest) := spanSpace rest in
  let '(word, _) := span is_word rest in
  if (nonempty ws && nonempty word)%bool then Some word else None.

(** [optional\s+[\w.]+\s+(\w+)\s*=] matched at the start of [s] *)
Definition fieldMatchHere (s : string) : option string :=
  rest ← strip "optional" s;
  let '(ws1, rest) := spanSpace rest in
  let '(ty, rest) := span is_word_or_dot rest in
  let '(ws2, rest) := spanSpace rest in
  let '(ident, rest) := span is_word rest in
  let '(_, rest) := spanSpace rest in
  if (nonempty ws1 && nonempty ty && nonempty ws2 && nonempty ident
      && startsWith rest "=")%bool
  then Some ident else None.

(** [/optional\s+[\w.]+\s+(\w+)\s*=/]: the leftmost match *)
Fixpoint fieldMatch (s : string) : option string :=
  match fieldMatchHere s with
  | Some ident => Some ident
  | None =>
      match s with
      | EmptyString => None
      | String _ rest => fieldMatch rest
      end
  end.
End Text.

Module Scanner.
Record State := {
  explicitOptionalFields : gset string;
  messageStack : list string;
  braceDepth : Z
}.

(** [messageStack.pop()] guarded by [messageStack.length > 0] *)
Definition popIfAny (stack : list string) : list string :=
  match stack with
  | [] => []
  | _ :: _ => removelast stack
  end.

(** the [for (let j = 0; j < closeBraces; j++)] loop *)
Definition popLoop (closeBraces : nat) (stack : list string) : list string :=
  Nat.iter closeBraces popIfAny stack.

(** One iteration of the loop over the lines. *)
Definition scanLine (st : State) (line : string) : State :=
  let trimmedLine := Text.trim line in
  if (Text.startsWith trimmedLine "//" || String.eqb trimmedLine "")%bool then st
  else
    let messageStack :=
      match Text.messageMatch trimmedLine with
      | Some messageName => messageStack st ++ [messageName]
      | None => messageStack st
      end in
    let openBraces := Text.count "{" line in
    let closeBraces := Text.count "}" line in
    let braceDepth := (braceDepth st + (Z.of_nat openBraces - Z.of_nat closeBraces))%Z in
    let messageStack :=
      if ((0 <? closeBraces) && (0 <? length messageStack))%bool%nat
      then popLoop closeBraces messageStack else messageStack in
    let explicitOptionalFields :=
      if Text.startsWith trimmedLine "optional " then
        match Text.fieldMatch trimmedLine with
        | Some fieldName =>
            let fullPath :=
              if (0 <? length messageStack)%nat
              then String.concat "." messageStack +:+ "." +:+ fieldName
              else fieldName in
            {[ fullPath ]} ∪ explicitOptionalFields st
        | None => explicitOptionalFields st
        end
      else explicitOptionalFields st in
    {| explicitOptionalFields := explicitOptionalFields;
       messageStack := messageStack;
       braceDepth := braceDepth |}.

Definition initial : State :=
  {| explicitOptionalFields := ∅; messageStack := []; braceDepth := 0 |}.

Definition scan (protoContent : string) : State :=
  fold_left scanLine (Text.split "010" protoContent) initial.
End Scanner.

Definition parseExplicitOptionalFields (protoContent : string) : gset string :=
  Scanner.explicitOptionalFields (Scanner.scan protoContent).

(** ** Method catalog *)

Record Method := { requestType : string; responseType : string }.

(** The objects found under [namespace.nested] during the walk.  A service
    is recognised first; anything else is entered when it has a [nested]
    object of its own. *)
Inductive ReflectionObject :=
| Service (methods : list (string * Method))
| Namespace (children : option (list (string * ReflectionObject)))
| TypeObj (children : option (list (string * ReflectionObject)))
| EnumObj.

Section Walk.
Context {V : Type}.
Variable processMethod : gmap string V -> string * Method -> result (gmap string V).

(** The recursive walk shared by [extractServices] and
    [extractOptionalFields]; they differ in what is stored per method. *)
Fixpoint walkNamespace (namespace : ReflectionObject) (prefix : string)
    (methodMap : gmap string V) : result (gmap string V) :=
  let entries :=
    fix entries (l : list (string * ReflectionObject)) (methodMap : gmap string V)
        : result (gmap string V) :=
      match l with
      | [] => Ok methodMap
      | (name, nested) :: rest =>
          methodMap ←
            match nested with
            | Service methods => foldM processMethod methods methodMap
            | Namespace (Some _) | TypeObj (Some _) =>
                walkNamespace nested (dotted prefix name) methodMap
            | Namespace None | TypeObj None | EnumObj => Ok methodMap
            end;
          entries rest methodMap
      end in
  match namespace with
  | Namespace (Some l) | TypeObj (Some l) => entries l methodMap
  | Namespace None | TypeObj None | EnumObj | Service _ => Ok methodMap
  end.
End Walk.

(** The walk in visiting order: the methods [walkNamespace] processes, first
    to last. *)
Fixpoint visitOrder (namespace : ReflectionObject) : list (string * Method) :=
  let entries :=
    fix entries (l : list (string * ReflectionObject)) : list (string * Method) :=
      match l with
      | [] => []
      | (_, nested) :: rest =>
          match nested with
          | Service methods => methods
          | Namespace (Some _) | TypeObj (Some _) => visitOrder nested
          | Namespace None | TypeObj None | EnumObj => []
          end ++ entries rest
      end in
  match namespace with
  | Namespace (Some l) | TypeObj (Some l) => entries l
  | Namespace None | TypeObj None | EnumObj | Service _ => []
  end.

Section Catalog.
Variable s : Schema.
Variable fuel : nat.

(** The [try]/[catch] around one method, as both [extractServices] and
    [extractOptionalFields] have it: look the request type up, compute what
    is stored for it, store it under the bare method name; on any exception
    store the fallback instead. *)
Definition storeMethod {V} (compute : TypeId -> result V) (fallback : V)
    (methodMap : gmap string V) (entry : string * Method) : result (gmap string V) :=
  let '(methodName, method) := entry in
  try_catch
    (requestType ← throwing "no such type" (lookupType s (requestType method));
     computed ← compute requestType;
     Ok (<[methodName := computed]> methodMap))
    (fun _ => Ok (<[methodName := fallback]> methodMap)).

Definition extractServices : ReflectionObject -> string -> gmap string Json
    -> result (gmap string Json) :=
  walkNamespace (storeMethod (generateEmptyJsonTemplate s fuel) (JObj [])).

(** What [parseProtoContent] returns once the source is parsed into
    [root]. *)
Definition parseProtoContent (root : ReflectionObject) : result (gmap string Json) :=
  extractServices root "" ∅.

Definition extractOptionalFields (explicitOptionalFields : gset string)
    : ReflectionObject -> string
      -> gmap string (list string) -> result (gmap string (list string)) :=
  walkNamespace
    (storeMethod (getOptionalFieldsFromTypeWithExplicit s explicitOptionalFields fuel) []).

(** What [getOptionalFieldsMap] returns once the source is parsed into
    [root]; the explicit-optional set is scanned from the same source. *)
Definition getOptionalFieldsMap (protoContent : string) (root : ReflectionObject)
    : result (gmap string (list string)) :=
  let explicitOptionalFields := parseExplicitOptionalFields protoContent in
  extractOptionalFields explicitOptionalFields root "" ∅.
End Catalog.

(** ** The resolution order of the template generator *)

(** The table of defaults of the design document, written as a table:
    string and bytes, bool, the integer widths, float and double.  It is the
    specification the [switch] of [getEmptyValueForType] is compared with. *)
Definition spec_primitive_default (fieldType : string) : option Json :=
  if bool_decide (fieldType ∈ ["string"; "bytes"]) then Some (JStr "")
  else if bool_decide (fieldType = "bool") then Some (JBool false)
  else if bool_decide (fieldType ∈ ["int32"; "int64"; "uint32"; "uint64"; "sint32";
                                     "sint64"; "fixed32"; "fixed64"; "sfixed32"; "sfixed64"])
  then Some (JNum 0)
  else if bool_decide (fieldType ∈ ["float"; "double"]) then Some (JNum 0)
  else None.

(** Where the generator ends up for a field type: a value it returns at
    once, or a message type it descends into. *)
Inductive Resolution :=
| Value (v : Json)
| Descend (t : TypeId).

(** The resolution order of the design document: primitives, then the
    timestamp spelling, then (1) the types nested in the current message,
    (2) the global message lookup, (3) the combined message-or-enum lookup,
    (4) the empty string.  [getEmptyValueForType_resolve] shows the code
    follows it. *)
Definition resolve (s : Schema) (parentType : TypeId) (fieldType : string) : Resolution :=
  match spec_primitive_default fieldType with
  | Some v => Value v
  | None =>
      if bool_decide (fieldType = "google.protobuf.Timestamp") then Value (JStr "")
      else
        match nested_get (typeOf s parentType) fieldType with
        | Some (NestedType t) => Descend t
        | Some (NestedEnum e) => Value (firstEnumValue e)
        | Some NestedOther | None =>
            match lookupType s fieldType with
            | Some t => Descend t
            | None =>
                match lookupTypeOrEnum s fieldType with
                | Some (IsType t) => Descend t
                | Some (IsEnum e) => Value (firstEnumValue e)
                | None =>
                    match lookupEnum s fieldType with
                    | Some e => Value (firstEnumValue e)
                    | None => Value (JStr "")
                    end
                end
            end
        end
  end.

Definition never_throws {A B} (gen : A -> result B) : Prop :=
  forall a msg, gen a ≠ Throw msg.

(** A call on the bounded stack comes back: with a value, or with the
    [RangeError] of an activation that did not fit. *)
Definition comesBack {A} (m : result A) : Prop :=
  (exists a, m = Ok a) \/ m = Throw RangeError.

(** What one method leaves in the catalog: the fallback when its request
    type is not found, what is computed for the type otherwise. *)
Definition storedFor {V} (s : Schema) (compute : TypeId -> result V) (fallback : V)
    (method : Method) : result V :=
  match lookupType s (requestType method) with
  | Some t => compute t
  | None => Ok fallback
  end.

(** The message type the extractor descends into from a field. *)
Definition extractTarget (s : Schema) (type_ : TypeId) (field : Field) : option TypeId :=
  match resolvedType field with
  | Some (IsType t) => Some t
  | Some (IsEnum _) | None =>
      match nested_get (typeOf s type_) (type field) with
      | Some (NestedType t) => Some t
      | Some (NestedEnum _) | Some NestedOther | None => None
      end
  end.

(** [if (explicitOptionalFields.has(typePath)) optionalFields.push(fieldPath)] *)
Definition pushed (explicitOptionalFields : gset string) (typePath fieldPath : string)
    (optionalFields : list string) : list string :=
  if bool_decide (typePath ∈ explicitOptionalFields)
  then optionalFields ++ [fieldPath] else optionalFields.

(** A declared type name that is neither a primitive keyword nor the
    timestamp spelling, and what such a name resolves to, stated on the
    nested table and the lookups of the schema. *)
Definition isCustomName (fieldType : string) : Prop :=
  spec_primitive_default fieldType = None /\ fieldType ≠ "google.protobuf.Timestamp".

Definition nestedMiss (s : Schema) (parentType : TypeId) (fieldType : string) : Prop :=
  nested_get (typeOf s parentType) fieldType = None
  \/ nested_get (typeOf s parentType) fieldType = Some NestedOther.

Definition resolvesToEnum (s : Schema) (parentType : TypeId) (fieldType : string)
    (e : Enum) : Prop :=
  isCustomName fieldType
  /\ (nested_get (typeOf s parentType) fieldType = Some (NestedEnum e)
      \/ (nestedMiss s parentType fieldType /\ lookupType s fieldType = None
          /\ (lookupTypeOrEnum s fieldType = Some (IsEnum e)
              \/ (lookupTypeOrEnum s fieldType = None /\ lookupEnum s fieldType = Some e)))).

Definition resolvesToType (s : Schema) (parentType : TypeId) (fieldType : string)
    (t : TypeId) : Prop :=
  isCustomName fieldType
  /\ (nested_get (typeOf s parentType) fieldType = Some (NestedType t)
      \/ (nestedMiss s parentType fieldType
          /\ (lookupType s fieldType = Some t
              \/ (lookupType s fieldType = None
                  /\ lookupTypeOrEnum s fieldType = Some (IsType t))))).

Definition unresolvable (s : Schema) (parentType : TypeId) (fieldType : string) : Prop :=
  isCustomName fieldType /\ nestedMiss s parentType fieldType
  /\ lookupType s fieldType = None /\ lookupTypeOrEnum s fieldType = None
  /\ lookupEnum s fieldType = None.

(** The message graphs the two walkers follow, and what it means for one to
    have no cycle: types can be ranked so that every step goes down. *)
Definition templateEdge (s : Schema) (t t' : TypeId) : Prop :=
  exists f, f ∈ fieldsArray (typeOf s t) /\ resolve s t (type f) = Descend t'.

Definition extractEdge (s : Schema) (t t' : TypeId) : Prop :=
  exists f, f ∈ fieldsArray (typeOf s t) /\ extractTarget s t f = Some t'.

Definition ranked (edge : TypeId -> TypeId -> Prop) (rank : TypeId -> nat) : Prop :=
  forall t t', edge t t' -> rank t' < rank t.

(** [walks s t fp tp t' fp' tp']: started on [t] with field prefix [fp] and
    type prefix [tp], the extractor comes to call itself on [t'] with the
    prefixes [fp'] and [tp']. *)
Inductive walks (s : Schema) : TypeId -> string -> string
    -> TypeId -> string -> string -> Prop :=
| walks_here t fp tp : walks s t fp tp t fp tp
| walks_step t fp tp f t1 t' fp' tp' :
    f ∈ fieldsArray (typeOf s t) ->
    extractTarget s t f = Some t1 ->
    walks s t1 (dotted fp (name f)) (dotted tp (tname (typeOf s t))) t' fp' tp' ->
    walks s t fp tp t' fp' tp'.

(** ** Paths into a template *)

(** [template[k1][k2]...[kn]] exists, each step through an object. *)
Fixpoint has_path (template : Json) (segments : list string) : bool :=
  match segments with
  | [] => true
  | key :: rest =>
      match template with
      | JObj props =>
          match obj_get key props with
          | Some v => has_path v rest
          | None => false
          end
      | JStr _ | JBool _ | JNum _ | JArr _ => false
      end
  end.

(** A dotted path addresses a key of the template at its nesting depth. *)
Definition addresses (template : Json) (path : string) : Prop :=
  has_path template (Text.split "." path) = true.

(** Field names as the proto grammar has them: not empty, no dot; and no two
    fields of a message share a name. *)
Definition goodName (n : string) : Prop := n ≠ "" /\ Text.count "." n = 0.

Definition wellNamed (s : Schema) : Prop :=
  forall t, NoDup (map name (fieldsArray (typeOf s t)))
            /\ Forall (fun f => goodName (name f)) (fieldsArray (typeOf s t)).

(** The two walkers agree on a schema when every field the extractor
    descends through is singular and is resolved by the template generator
    to the same message type. *)
Definition coherent (s : Schema) : Prop :=
  forall t f t', f ∈ fieldsArray (typeOf s t) -> extractTarget s t f = Some t' ->
    rule f ≠ RuleRepeated /\ resolve s t (type f) = Descend t'.

(** The path built by [dotted] from a prefix and the field names below it. *)
Definition joinFrom (prefix : string) (segments : list string) : string :=
  fold_left dotted segments prefix.

Definition goodSegments (template : Json) (segments : list string) : Prop :=
  segments ≠ [] /\ Forall goodName segments /\ has_path template segments = true.

(** ** Worked schemas *)

Module Examples.
Definition noType : MessageType := {| tname := ""; fieldsArray := []; nested := None |}.

Definition field (n ty : string) (r : Rule) : Field :=
  {| name := n; type := ty; rule := r; resolvedType := None |}.

(** The schema of [catalogSource]: two messages, one with a nested enum, and
    two services that both declare [Get]. *)
Definition catalogSource : string := "syntax = 'proto3';
message Item {
  string id = 1;
}
message M {
  string name = 1;
  optional int32 age = 2;
  repeated string tags = 3;
  enum Color {
    RED = 0;
    BLUE = 1;
  }
  Color favorite = 4;
  repeated Item items = 5;
  repeated Color palette = 6;
  repeated Missing ghosts = 7;
  Missing gone = 8;
}
service A {
  rpc Get(M) returns (M);
  rpc Lost(Nowhere) returns (M);
}
service B {
  rpc Get(Item) returns (Item);
}".

Definition Color : Enum := {| values := [("RED", 0%Z); ("BLUE", 1%Z)] |}.

Definition Item : MessageType :=
  {| tname := "Item"; fieldsArray := [field "id" "string" RuleNone]; nested := None |}.

Definition M : MessageType :=
  {| tname := "M";
     fieldsArray :=
       [ field "name" "string" RuleNone; field "age" "int32" RuleOptional;
         field "tags" "string" RuleRepeated; field "favorite" "Color" RuleNone;
         field "items" "Item" RuleRepeated; field "palette" "Color" RuleRepeated;
         field "ghosts" "Missing" RuleRepeated; field "gone" "Missing" RuleNone ];
     nested := Some [("Color", NestedEnum Color)] |}.

Definition catalogSchema : Schema :=
  {| typeOf := fun t => match t with 0 => M | 1 => Item | _ => noType end;
     lookupType := fun n =>
       if String.eqb n "M" then Some 0 else if String.eqb n "Item" then Some 1 else None;
     lookupTypeOrEnum := fun n =>
       if String.eqb n "M" then Some (IsType 0)
       else if String.eqb n "Item" then Some (IsType 1)
       else if String.eqb n "Color" then Some (IsEnum Color) else None;
     lookupEnum := fun n => if String.eqb n "Color" then Some Color else None |}.

(** [enum Order { B = 0; A = 1; }  message Holder { Order o = 1; }] *)
Definition Order : Enum := {| values := [("B", 0%Z); ("A", 1%Z)] |}.

Definition Holder : MessageType :=
  {| tname := "Holder"; fieldsArray := [field "o" "Order" RuleNone]; nested := None |}.

Definition orderSchema : Schema :=
  {| typeOf := fun _ => Holder;
     lookupType := fun n => if String.eqb n "Holder" then Some 0 else None;
     lookupTypeOrEnum := fun n =>
       if String.eqb n "Holder" then Some (IsType 0)
       else if String.eqb n "Order" then Some (IsEnum Order) else None;
     lookupEnum := fun n => if String.eqb n "Order" then Some Order else None |}.

(** [message Event { google.protobuf.Timestamp at = 1;
                     .google.protobuf.Timestamp seen = 2; }]
    on the root seeded with the timestamp type. *)
Definition Event : MessageType :=
  {| tname := "Event";
     fieldsArray := [ field "at" "google.protobuf.Timestamp" RuleNone;
                      field "seen" ".google.protobuf.Timestamp" RuleNone ];
     nested := None |}.

Definition isTimestampName (n : string) : bool :=
  (String.eqb n "google.protobuf.Timestamp" || String.eqb n ".google.protobuf.Timestamp"
   || String.eqb n "protobuf.Timestamp" || String.eqb n "Timestamp")%bool.

Definition eventSchema : Schema :=
  {| typeOf := fun t => match t with 0 => TimestampType | _ => Event end;
     lookupType := fun n =>
       if isTimestampName n then Some 0 else if String.eqb n "Event" then Some 1 else None;
     lookupTypeOrEnum := fun n =>
       if isTimestampName n then Some (IsType 0)
       else if String.eqb n "Event" then Some (IsType 1) else None;
     lookupEnum := fun _ => None |}.

(** The namespace tree of [catalogSource], under the root seeded with the
    timestamp type. *)
Definition rpc (req res : string) : Method := {| requestType := req; responseType := res |}.

Definition catalogRoot : ReflectionObject :=
  Namespace (Some
    [ ("google", Namespace (Some [("protobuf", Namespace (Some [("Timestamp", TypeObj None)]))]));
      ("Item", TypeObj None);
      ("M", TypeObj (Some [("Color", EnumObj)]));
      ("A", Service [("Get", rpc "M" "M"); ("Lost", rpc "Nowhere" "M")]);
      ("B", Service [("Get", rpc "Item" "Item")]) ]).

Definition catalogRank (t : TypeId) : nat := match t with 0 => 1 | _ => 0 end.

(** A message that embeds itself. *)
Definition nodeSource : string := "syntax = 'proto3';
message Node {
  Node next = 1;
}
service Tree {
  rpc Get(Node) returns (Node);
}".

Definition Node : MessageType :=
  {| tname := "Node"; fieldsArray := [field "next" "Node" RuleNone]; nested := None |}.

Definition nodeSchema : Schema :=
  {| typeOf := fun _ => Node;
     lookupType := fun n => if String.eqb n "Node" then Some 0 else None;
     lookupTypeOrEnum := fun n => if String.eqb n "Node" then Some (IsType 0) else None;
     lookupEnum := fun _ => None |}.

(** [Inner] declared next to [Outer] and embedded in it twice.  The fields
    carry no resolved type after [protobuf.parse]; [siblingSchema true] is
    the same schema had the references been resolved. *)
Definition siblingSource : string := "syntax = 'proto3';
message Inner {
  optional string x = 1;
}
message Outer {
  Inner a = 1;
  Inner b = 2;
}
service S {
  rpc Get(Outer) returns (Outer);
}".

Definition InnerType : MessageType :=
  {| tname := "Inner"; fieldsArray := [field "x" "string" RuleOptional]; nested := None |}.

Definition siblingOuter (resolved : bool) : MessageType :=
  let target := if resolved then Some (IsType 0) else None in
  {| tname := "Outer";
     fieldsArray :=
       [ {| name := "a"; type := "Inner"; rule := RuleNone; resolvedType := target |};
         {| name := "b"; type := "Inner"; rule := RuleNone; resolvedType := target |} ];
     nested := None |}.

Definition siblingSchema (resolved : bool) : Schema :=
  {| typeOf := fun t => match t with 0 => InnerType | 1 => siblingOuter resolved | _ => noType end;
     lookupType := fun n =>
       if String.eqb n "Inner" then Some 0 else if String.eqb n "Outer" then Some 1 else None;
     lookupTypeOrEnum := fun n =>
       if String.eqb n "Inner" then Some (IsType 0)
       else if String.eqb n "Outer" then Some (IsType 1) else None;
     lookupEnum := fun _ => None |}.

(** [Inner] declared inside [Outer] and embedded in it twice. *)
Definition nestedSource : string := "syntax = 'proto3';
message Outer {
  message Inner {
    optional string x = 1;
  }
  Inner a = 1;
  Inner b = 2;
}
service S {
  rpc Get(Outer) returns (Outer);
}".

Definition nestedOuter : MessageType :=
  {| tname := "Outer";
     fieldsArray := [field "a" "Inner" RuleNone; field "b" "Inner" RuleNone];
     nested := Some [("Inner", NestedType 1)] |}.

Definition nestedSchema : Schema :=
  {| typeOf := fun t => match t with 0 => nestedOuter | 1 => InnerType | _ => noType end;
     lookupType := fun n =>
       if String.eqb n "Outer" then Some 0 else if String.eqb n "Inner" then Some 1 else None;
     lookupTypeOrEnum := fun n =>
       if String.eqb n "Outer" then Some (IsType 0)
       else if String.eqb n "Inner" then Some (IsType 1) else None;
     lookupEnum := fun _ => None |}.

Definition nestedRank (t : TypeId) : nat := match t with 0 => 1 | _ => 0 end.

(** A repeated field of a message declared inside its owner. *)
Definition repeatedSource : string := "message Order {
  message Line {
    optional string note = 1;
  }
  repeated Line lines = 1;
}
service Orders {
  rpc Put(Order) returns (Order);
}".

Definition LineType : MessageType :=
  {| tname := "Line"; fieldsArray := [field "note" "string" RuleOptional]; nested := None |}.

Definition OrderType : MessageType :=
  {| tname := "Order";
     fieldsArray := [field "lines" "Line" RuleRepeated];
     nested := Some [("Line", NestedType 1)] |}.

Definition repeatedSchema : Schema :=
  {| typeOf := fun t => match t with 0 => OrderType | 1 => LineType | _ => noType end;
     lookupType := fun n =>
       if String.eqb n "Order" then Some 0 else if String.eqb n "Line" then Some 1 else None;
     lookupTypeOrEnum := fun n =>
       if String.eqb n "Order" then Some (IsType 0)
       else if String.eqb n "Line" then Some (IsType 1) else None;
     lookupEnum := fun _ => None |}.

(** An optional field declared after an enum block of the same message. *)
Definition enumThenOptionalSource : string := "message M {
  enum Color {
    RED = 0;
  }
  optional string x = 1;
}".

Definition enumThenOptionalSchema : Schema :=
  {| typeOf := fun _ =>
       {| tname := "M"; fieldsArray := [field "x" "string" RuleOptional];
          nested := Some [("Color", NestedEnum {| values := [("RED", 0%Z)] |})] |};
     lookupType := fun n => if String.eqb n "M" then Some 0 else None;
     lookupTypeOrEnum := fun n =>
       if String.eqb n "M" then Some (IsType 0)
       else if String.eqb n "Color" then Some (IsEnum {| values := [("RED", 0%Z)] |}) else None;
     lookupEnum := fun n =>
       if String.eqb n "Color" then Some {| values := [("RED", 0%Z)] |} else None |}.
End Examples.

(** ** Evaluation tactics for the worked schemas *)

Ltac enumerate_fields H :=
  simpl in H;
  repeat (apply elem_of_cons in H as [->|H]);
  [..|by apply elem_of_nil in H].

Ltac by_evaluation := apply (bool_decide_unpack _); vm_compute; exact I.

Ltac by_membership := simpl; repeat first [apply list_elem_of_here | apply list_elem_of_further].

(** * The rest of the parser and the server around it *)

(** ** The rule-based extractor *)

(** [getOptionalFieldsFromType]: the extractor that asks protobufjs for the
    rule of a field instead of looking its type path up in the scanned
    set.  Its inner function has the same name as the one above. *)
Module ByRule.
Section Extractor.
Variable s : Schema.

Definition extractStep
    (recur : TypeId -> string -> list string -> result (list string))
    (type_ : TypeId) (fieldPrefix : string)
    (optionalFields : list string) (field : Field) : result (list string) :=
  let fieldPath := dotted fieldPrefix (name field) in
  let optionalFields :=
    if rule_eqb (rule field) RuleOptional
    then optionalFields ++ [fieldPath] else optionalFields in
  try_catch
    (match resolvedType field with
     | Some (IsType t) => recur t fieldPath optionalFields
     | Some (IsEnum _) | None =>
         match nested_get (typeOf s type_) (type field) with
         | Some (NestedType t) => recur t fieldPath optionalFields
         | Some (NestedEnum _) | Some NestedOther | None => Ok optionalFields
         end
     end)
    (fun _ => Ok optionalFields).

Fixpoint extractOptionalFieldsRecursive (fuel : nat) (type_ : TypeId)
    (fieldPrefix : string) (optionalFields : list string) : result (list string) :=
  match fuel with
  | O => Diverge
  | S fuel' =>
      foldM (extractStep (extractOptionalFieldsRecursive fuel') type_ fieldPrefix)
            (fieldsArray (typeOf s type_)) optionalFields
  end.
End Extractor.
End ByRule.

Definition getOptionalFieldsFromType (s : Schema) (fuel : nat) (messageType : TypeId)
    : result (list string) :=
  ByRule.extractOptionalFieldsRecursive s fuel messageType "" [].

(** ** Import resolution *)

(** The two hooks [parseProtoContent] and [getOptionalFieldsMap] install on
    the root when import files are given.  [importFiles] is a JavaScript
    [Map]: its entries in insertion order, one per key.  [path.basename]
    belongs to Node and is a parameter. *)
Module Imports.

(** [s.endsWith(suffix)] *)
Fixpoint endsWith (s suffix : string) : bool :=
  (String.eqb s suffix
   || match s with
      | EmptyString => false
      | String _ rest => endsWith rest suffix
      end)%bool.

(** [for (const [filename, content] of importFiles) if (...) return ...] *)
Fixpoint firstMatch {A} (test : string -> bool) (importFiles : list (string * A))
    : option (string * A) :=
  match importFiles with
  | [] => None
  | (key, value) :: rest =>
      if test key then Some (key, value) else firstMatch test rest
  end.

Definition resolvePath (importFiles : list (string * string)) (origin target : string)
    : string :=
  match firstMatch (fun filename => (endsWith filename target || String.eqb filename target)%bool)
          importFiles with
  | Some (filename, _) => filename
  | None => target
  end.

Section Fetch.
Variable basename : string -> string.

(** [Promise.resolve] is [Ok], [Promise.reject] is [Throw].  The content
    found under the exact name is used only when it is truthy, that is, not
    the empty string. *)
Definition fetch (importFiles : list (string * string)) (filename : string)
    : result string :=
  let byBasename :=
    match firstMatch
            (fun key => (endsWith key filename
                         || String.eqb (basename key) (basename filename))%bool)
            importFiles with
    | Some (_, value) => Ok value
    | None => Throw ("File not found: " +:+ filename)
    end in
  match obj_get filename importFiles with
  | Some content => if Text.nonempty content then Ok content else byBasename
  | None => byBasename
  end.
End Fetch.
End Imports.

(** ** The server's view of the services *)

Module Server.

(** JavaScript truthiness of a JSON value, for [methodMap[methodName] || {}]. *)
Definition truthy (v : Json) : bool :=
  match v with
  | JStr str => Text.nonempty str
  | JBool b => b
  | JNum z => negb (Z.eqb z 0)
  | JArr _ | JObj _ => true
  end.

Record MethodInfo := {
  methodName : string;
  methodRequestType : string;
  methodResponseType : string;
  jsonTemplate : Json;
  optionalFields : list string
}.

Record ServiceInfo := {
  serviceName : string;
  fullName : string;
  methods : gmap string MethodInfo
}.

Section Services.
(** [nested.fullName]: the getter of protobufjs, which depends on where the
    service sits in the tree. *)
Variable fullNameOf : string -> string -> string.
(** The two catalogs are read by own key only: a method named like a member
    of [Object.prototype] (such as [constructor]) would, when absent from a
    catalog, read the inherited member in JavaScript; that is not modelled. *)
Variable methodMap : gmap string Json.
Variable optionalFieldsMap : gmap string (list string).

(** One method of a service: its entry in [services[name].methods]. *)
Definition methodInfo (entry : string * Method) : MethodInfo :=
  let '(name, method) := entry in
  {| methodName := name;
     methodRequestType := requestType method;
     methodResponseType := responseType method;
     jsonTemplate :=
       match methodMap !! name with
       | Some template => if truthy template then template else JObj []
       | None => JObj []
       end;
     optionalFields :=
       match optionalFieldsMap !! name with
       | Some fields => fields
       | None => []
       end |}.

Definition serviceInfo (prefix name : string) (serviceMethods : list (string * Method))
    : ServiceInfo :=
  {| serviceName := name;
     fullName := fullNameOf prefix name;
     methods :=
       fold_left (fun acc entry => <[entry.1 := methodInfo entry]> acc) serviceMethods ∅ |}.

(** [extractServices] of the request handler: the same walk as the
    parser's, filling [services] keyed by the bare service name. *)
Fixpoint extractServices (namespace : ReflectionObject) (prefix : string)
    (services : gmap string ServiceInfo) : gmap string ServiceInfo :=
  let entries :=
    fix entries (l : list (string * ReflectionObject)) (services : gmap string ServiceInfo)
        : gmap string ServiceInfo :=
      match l with
      | [] => services
      | (name, nested) :: rest =>
          let services :=
            match nested with
            | Service serviceMethods =>
                <[name := serviceInfo prefix name serviceMethods]> services
            | Namespace (Some _) | TypeObj (Some _) =>
                extractServices nested (dotted prefix name) services
            | Namespace None | TypeObj None | EnumObj => services
            end in
          entries rest services
      end in
  match namespace with
  | Namespace (Some l) | TypeObj (Some l) => entries l services
  | Namespace None | TypeObj None | EnumObj | Service _ => services
  end.
End Services.
End Server.

(** ** Further worked schemas *)

Module MoreExamples.
(** [message Holder { enum Nothing {} Nothing n = 1; }] *)
Definition Nothing : Enum := {| values := [] |}.

Definition emptyEnumSchema : Schema :=
  {| typeOf := fun _ =>
       {| tname := "Holder"; fieldsArray := [Examples.field "n" "Nothing" RuleNone];
          nested := Some [("Nothing", NestedEnum Nothing)] |};
     lookupType := fun n => if String.eqb n "Holder" then Some 0 else None;
     lookupTypeOrEnum := fun n =>
       if String.eqb n "Holder" then Some (IsType 0)
       else if String.eqb n "Nothing" then Some (IsEnum Nothing) else None;
     lookupEnum := fun n => if String.eqb n "Nothing" then Some Nothing else None |}.
(** The tree the request handler parses from [Examples.catalogSource]: the
    same services, on a root that is not seeded with the timestamp type. *)
Definition catalogServiceRoot : ReflectionObject :=
  Namespace (Some
    [ ("Item", TypeObj None);
      ("M", TypeObj (Some [("Color", EnumObj)]));
      ("A", Service [("Get", Examples.rpc "M" "M"); ("Lost", Examples.rpc "Nowhere" "M")]);
      ("B", Service [("Get", Examples.rpc "Item" "Item")]) ]).

(** [fullName] as protobufjs builds it: the path from the root, dotted. *)
Definition dottedFullName (prefix name : string) : string := "." +:+ dotted prefix name.

Definition catalogMethodMap : gmap string Json :=
  <["Get" := JObj [("id", JStr "")]]> (<["Lost" := JObj []]> ∅).

(** The template of [Node] nested [depth] times, closed by the empty string. *)
Fixpoint nodeTemplate (depth : nat) : Json :=
  match depth with
  | O => JStr ""
  | S depth' => JObj [("next", nodeTemplate depth')]
  end.

(** Two services that both declare [Get]; the request type of the first one
    does not exist. *)
Definition shadowedSource : string := "syntax = 'proto3';
message M {
  string name = 1;
  optional int32 age = 2;
}
service A {
  rpc Get(Nowhere) returns (M);
}
service B {
  rpc Get(M) returns (M);
}".

Definition shadowedSchema : Schema :=
  {| typeOf := fun _ =>
       {| tname := "M";
          fieldsArray := [Examples.field "name" "string" RuleNone;
                          Examples.field "age" "int32" RuleOptional];
          nested := None |};
     lookupType := fun n => if String.eqb n "M" then Some 0 else None;
     lookupTypeOrEnum := fun n => if String.eqb n "M" then Some (IsType 0) else None;
     lookupEnum := fun _ => None |}.

Definition shadowedRoot : ReflectionObject :=
  Namespace (Some
    [ ("google", Namespace (Some [("protobuf", Namespace (Some [("Timestamp", TypeObj None)]))]));
      ("M", TypeObj None);
      ("A", Service [("Get", Examples.rpc "Nowhere" "M")]);
      ("B", Service [("Get", Examples.rpc "M" "M")]) ]).

(** The namespace tree of [Examples.nodeSource]. *)
Definition nodeRoot : ReflectionObject :=
  Namespace (Some
    [ ("google", Namespace (Some [("protobuf", Namespace (Some [("Timestamp", TypeObj None)]))]));
      ("Node", TypeObj None);
      ("Tree", Service [("Get", Examples.rpc "Node" "Node")]) ]).

(** A field line indented with a no-break space (U+00A0). *)
Definition noBreakIndented : string :=
  String "194" (String "160" "optional int32 age = 2;").

Definition catalogOptionalFieldsMap : gmap string (list string) :=
  <["Get" := []]> (<["Lost" := []]> ∅).
End MoreExamples.

(** Segments of a listed path: taken from good names, the first one a field
    of the message the list is made for. *)
Definition segmentsFrom (names : list string) (segments : list string) : Prop :=
  Forall goodName segments /\ exists first rest, segments = first :: rest /\ first ∈ names.

(** ** Reading the scanner line by line *)

(** The field name a line contributes, if any: its trimmed form starts with
    [optional] and a space, and the field pattern matches in it. *)
Definition recordedName (trimmedLine : string) : option string :=
  if Text.startsWith trimmedLine "optional " then Text.fieldMatch trimmedLine else None.

(** [messageStack.length > 0 ? `${messageStack.join('.')}.${fieldName}` : fieldName] *)
Definition qualify (messageStack : list string) (fieldName : string) : string :=
  if (0 <? length messageStack)%nat
  then String.concat "." messageStack +:+ "." +:+ fieldName
  else fieldName.

(** A line the loop skips: a comment or nothing but white space. *)
Definition skipped (line : string) : bool :=
  (Text.startsWith (Text.trim line) "//" || String.eqb (Text.trim line) "")%bool.

(** A line that neither closes a block nor declares a message. *)
Definition quiet (line : string) : Prop :=
  Text.count "}" line = 0 /\ Text.messageMatch (Text.trim line) = None.

(** Every character of a string is in a class. *)
Fixpoint allOf (p : ascii -> bool) (str : string) : bool :=
  match str with
  | EmptyString => true
  | String c rest => (p c && allOf p rest)%bool
  end.

(** A string is empty or starts outside a class. *)
Definition startsOutside (p : ascii -> bool) (str : string) : Prop :=
  match str with
  | EmptyString => True
  | String c _ => p c = false
  end.

(** ** The import set of a request *)

(** The [Map] the request handler fills before it calls the parser: the
    main file (the first upload), then every upload, then the common proto
    files that could be read.  What [fs.readFile] returns is given with each
    file; a common file that cannot be read is [None] and is skipped. *)
Module Uploads.
Record Upload := { originalname : string; content : string }.

Definition setUpload (uploadedFiles : list (string * string)) (file : Upload)
    : list (string * string) :=
  obj_set (originalname file) (content file) uploadedFiles.

Definition setCommon (uploadedFiles : list (string * string))
    (common : string * option string) : list (string * string) :=
  match common.2 with
  | Some commonContent => obj_set common.1 commonContent uploadedFiles
  | None => uploadedFiles
  end.

Definition uploadedFiles (files : list Upload) (commonProtoFiles : list (string * option string))
    : result (list (string * string)) :=
  match files with
  | [] => Throw "No proto file uploaded"
  | mainProtoFile :: _ =>
      let uploaded := setUpload [] mainProtoFile in
      let uploaded := fold_left setUpload files uploaded in
      Ok (fold_left setCommon commonProtoFiles uploaded)
  end.
End Uploads.

(** Setting a key keeps the keys distinct, keeps the first key first and
    keeps every key. *)
Definition keepsKeys (before after : list (string * string)) : Prop :=
  (NoDup (map fst before) -> NoDup (map fst after))
  /\ (forall k, k ∈ map fst before -> k ∈ map fst after)
  /\ (forall k rest, map fst before = k :: rest -> exists rest', map fst after = k :: rest').
(** * Properties *)

(** ** Objects *)

Lemma obj_get_set_eq {A} k (v : A) o : obj_get k (obj_set k v o) = Some v.
Proof.
  induction o as [|[k' v'] o IH]; simpl.
  - by rewrite String.eqb_refl.
  - destruct (String.eqb k' k) eqn:E; simpl; rewrite ?String.eqb_refl, ?E; auto.
Qed.

Lemma obj_get_set_ne {A} k k' (v : A) o :
  k ≠ k' -> obj_get k' (obj_set k v o) = obj_get k' o.
Proof.
  intros Hne. induction o as [|[k0 v0] o IH]; simpl.
  - destruct (String.eqb_spec k k'); congruence.
  - destruct (String.eqb_spec k0 k) as [->|Hk]; simpl.
    + destruct (String.eqb_spec k k'); congruence.
    + destruct (String.eqb_spec k0 k'); auto.
Qed.

(** ** Sequencing *)

Lemma foldM_app {A S} (step : S -> A -> result S) l1 l2 st :
  foldM step (l1 ++ l2) st = st' ← foldM step l1 st; foldM step l2 st'.
Proof.
  revert st. induction l1 as [|x l1 IH]; intros st; simpl; [done|].
  destruct (step st x); simpl; auto.
Qed.

Lemma bind_Ok {A B} (m : result A) (k : A -> result B) b :
  m ≫= k = Ok b -> exists a, m = Ok a /\ k a = Ok b.
Proof. destruct m; simpl; try done. eauto. Qed.

Lemma foldM_cons_Ok {A S} (step : S -> A -> result S) x l st st' :
  foldM step (x :: l) st = Ok st' ->
  exists st1, step st x = Ok st1 /\ foldM step l st1 = Ok st'.
Proof. simpl. apply bind_Ok. Qed.

Lemma foldM_total {A S} (step : S -> A -> result S) l :
  (forall st x, x ∈ l -> exists st', step st x = Ok st') ->
  forall st, exists st', foldM step l st = Ok st'.
Proof.
  induction l as [|x l IH]; intros Hstep st; simpl; [eauto|].
  destruct (Hstep st x) as [st1 ->]; [left|]. simpl.
  apply IH. intros st2 y Hy. apply Hstep. by right.
Qed.

Lemma foldM_no_throw {A S} (step : S -> A -> result S) l :
  (forall st x msg, x ∈ l -> step st x ≠ Throw msg) ->
  forall st msg, foldM step l st ≠ Throw msg.
Proof.
  induction l as [|x l IH]; intros Hstep st msg; simpl; [done|].
  destruct (step st x) as [st1|e|] eqn:E; simpl.
  - apply IH. intros st2 y m Hy. apply Hstep. by right.
  - exfalso. eapply Hstep; [left|exact E].
  - done.
Qed.

(** ** The resolution order of the template generator *)

Lemma primitive_case s gen fieldType parentType v :
  spec_primitive_default fieldType = Some v ->
  getEmptyValueForType_with s gen fieldType parentType = Ok v.
Proof.
  unfold spec_primitive_default, getEmptyValueForType_with.
  repeat case_bool_decide; intros [= <-];
    repeat match goal with
           | H : _ ∈ _ :: _ |- _ => apply elem_of_cons in H as [->|H]
           | H : _ ∈ [] |- _ => by apply elem_of_nil in H
           | H : _ = _ |- _ => subst
           end; reflexivity.
Qed.

Lemma not_primitive_case s gen fieldType parentType :
  spec_primitive_default fieldType = None ->
  getEmptyValueForType_with s gen fieldType parentType =
  if String.eqb fieldType "google.protobuf.Timestamp" then Ok (JStr "")
  else
    match nested_get (typeOf s parentType) fieldType with
    | Some (NestedType t) => gen t
    | Some (NestedEnum e) => Ok (firstEnumValue e)
    | Some NestedOther | None =>
        try_catch
          (nestedType ← throwing "no such type" (lookupType s fieldType); gen nestedType)
          (fun _ =>
             try_catch
               (nestedType ← throwing "no such Type or Enum" (lookupTypeOrEnum s fieldType);
                match nestedType with
                | IsType t => gen t
                | IsEnum e => Ok (firstEnumValue e)
                end)
               (fun _ =>
                  try_catch
                    (enumType ← throwing "no such enum" (lookupEnum s fieldType);
                     Ok (firstEnumValue enumType))
                    (fun _ => Ok (JStr ""))))
    end.
Proof.
  unfold spec_primitive_default, getEmptyValueForType_with.
  repeat case_bool_decide; try discriminate. intros _.
  repeat match goal with
         | H : _ ∉ _ :: _ |- _ => rewrite not_elem_of_cons in H
         | H : _ ∧ _ |- _ => destruct H
         end.
  repeat match goal with
         | H : fieldType ≠ ?x |- _ =>
             rewrite (proj2 (String.eqb_neq fieldType x) H); clear H
         end.
  reflexivity.
Qed.

(** The generator follows the resolution order whenever the recursive call
    does not throw. *)
Lemma getEmptyValueForType_resolve s gen fieldType parentType :
  never_throws gen ->
  getEmptyValueForType_with s gen fieldType parentType =
  match resolve s parentType fieldType with
  | Value v => Ok v
  | Descend t => gen t
  end.
Proof.
  intros Hgen. unfold resolve.
  destruct (spec_primitive_default fieldType) as [v|] eqn:Hp.
  { by apply primitive_case. }
  rewrite not_primitive_case by done.
  case_bool_decide as Hts.
  { subst. reflexivity. }
  rewrite (proj2 (String.eqb_neq _ _) Hts).
  assert (Hglobal :
    try_catch
      (nestedType ← throwing "no such type" (lookupType s fieldType); gen nestedType)
      (fun _ =>
         try_catch
           (nestedType ← throwing "no such Type or Enum" (lookupTypeOrEnum s fieldType);
            match nestedType with
            | IsType t => gen t
            | IsEnum e => Ok (firstEnumValue e)
            end)
           (fun _ =>
              try_catch
                (enumType ← throwing "no such enum" (lookupEnum s fieldType);
                 Ok (firstEnumValue enumType))
                (fun _ => Ok (JStr "")))) =
    match
      match lookupType s fieldType with
      | Some t => Descend t
      | None =>
          match lookupTypeOrEnum s fieldType with
          | Some (IsType t) => Descend t
          | Some (IsEnum e) => Value (firstEnumValue e)
          | None =>
              match lookupEnum s fieldType with
              | Some e => Value (firstEnumValue e)
              | None => Value (JStr "")
              end
          end
      end
    with
    | Value v => Ok v
    | Descend t => gen t
    end).
  { destruct (lookupType s fieldType) as [t|]; simpl.
    - destruct (gen t) eqn:E; simpl; try done. by apply Hgen in E.
    - destruct (lookupTypeOrEnum s fieldType) as [[t|e]|]; simpl; try done.
      + destruct (gen t) eqn:E; simpl; try done. by apply Hgen in E.
      + by destruct (lookupEnum s fieldType). }
  destruct (nested_get (typeOf s parentType) fieldType) as [[t|e|]|]; auto.
Qed.

Lemma getEmptyValueForType_no_throw s gen fieldType parentType :
  never_throws gen ->
  forall msg, getEmptyValueForType_with s gen fieldType parentType ≠ Throw msg.
Proof.
  intros Hgen msg. rewrite getEmptyValueForType_resolve by done.
  destruct (resolve s parentType fieldType); [done|apply Hgen].
Qed.

Lemma templateStep_no_throw s gen messageType :
  never_throws gen ->
  forall template field msg, templateStep s gen messageType template field ≠ Throw msg.
Proof.
  intros Hgen template field msg. unfold templateStep.
  destruct (getEmptyValueForType_with s gen (type field) messageType) eqn:E; simpl; try done.
  by apply getEmptyValueForType_no_throw in E.
Qed.

Lemma generateEmptyJsonTemplate_no_throw s fuel :
  never_throws (generateEmptyJsonTemplate s fuel).
Proof.
  induction fuel as [|fuel IH]; intros t msg; simpl; [done|].
  destruct (foldM _ _ _) eqn:E; simpl; try done.
  apply foldM_no_throw in E; [done|].
  intros. by apply templateStep_no_throw.
Qed.

(** ** What a generated template holds for one field *)

Lemma rule_eqb_spec a b : reflect (a = b) (rule_eqb a b).
Proof. destruct a, b; simpl; constructor; congruence. Qed.

Section TemplateEntries.
Variable s : Schema.
Variable gen : TypeId -> result Json.
Variable messageType : TypeId.

Lemma templateStep_Ok template field template' :
  templateStep s gen messageType template field = Ok template' ->
  exists v, getEmptyValueForType_with s gen (type field) messageType = Ok v
    /\ template' = obj_set (name field)
                     (if rule_eqb (rule field) RuleRepeated then JArr [] else v) template.
Proof.
  unfold templateStep. intros H. apply bind_Ok in H as (v & Hv & [= <-]). eauto.
Qed.

Lemma template_keeps fields k template template' :
  foldM (templateStep s gen messageType) fields template = Ok template' ->
  k ∉ map name fields ->
  obj_get k template' = obj_get k template.
Proof.
  revert template. induction fields as [|f fields IH]; intros template.
  - by intros [= ->].
  - intros Hfold Hk. apply foldM_cons_Ok in Hfold as (t1 & Hstep & Hfold).
    apply templateStep_Ok in Hstep as (v & _ & ->).
    simpl in Hk. apply not_elem_of_cons in Hk as [Hne Hk].
    rewrite (IH _ Hfold Hk). by apply obj_get_set_ne.
Qed.

Lemma template_entry fields f template template' :
  foldM (templateStep s gen messageType) fields template = Ok template' ->
  NoDup (map name fields) ->
  f ∈ fields ->
  exists v, getEmptyValueForType_with s gen (type f) messageType = Ok v
    /\ obj_get (name f) template' =
       Some (if rule_eqb (rule f) RuleRepeated then JArr [] else v).
Proof.
  revert template. induction fields as [|g fields IH]; intros template Hfold Hnd Hin.
  - by apply elem_of_nil in Hin.
  - simpl in Hnd. apply NoDup_cons in Hnd as [Hfresh Hnd].
    apply foldM_cons_Ok in Hfold as (t1 & Hstep & Hfold).
    apply templateStep_Ok in Hstep as (v & Hv & ->).
    apply elem_of_cons in Hin as [->|Hin].
    + exists v. split; [done|].
      rewrite (template_keeps _ _ _ _ Hfold Hfresh). apply obj_get_set_eq.
    + eapply IH; eauto.
Qed.

Lemma template_total fields template :
  (forall g, g ∈ fields ->
     exists w, getEmptyValueForType_with s gen (type g) messageType = Ok w) ->
  exists template', foldM (templateStep s gen messageType) fields template = Ok template'.
Proof.
  intros Hall. apply foldM_total. intros st g Hg.
  destruct (Hall g Hg) as [w Hw]. unfold templateStep. rewrite Hw. simpl. eauto.
Qed.
End TemplateEntries.

Lemma generated_field s fuel t f template :
  generateEmptyJsonTemplate s (S fuel) t = Ok (JObj template) ->
  NoDup (map name (fieldsArray (typeOf s t))) ->
  f ∈ fieldsArray (typeOf s t) ->
  exists v, getEmptyValueForType s fuel (type f) t = Ok v
    /\ obj_get (name f) template = Some (if rule_eqb (rule f) RuleRepeated then JArr [] else v).
Proof.
  simpl. intros H. apply bind_Ok in H as (tpl & Hfold & [= ->]).
  by apply template_entry with (fields := fieldsArray (typeOf s t)) (template := []).
Qed.

Lemma generated_when_fields_are s fuel t :
  (forall g, g ∈ fieldsArray (typeOf s t) ->
     exists w, getEmptyValueForType s fuel (type g) t = Ok w) ->
  exists template, generateEmptyJsonTemplate s (S fuel) t = Ok (JObj template).
Proof.
  intros Hall. simpl.
  destruct (template_total s _ t _ [] Hall) as [tpl ->]. simpl. eauto.
Qed.

Lemma resolve_enum s parentType fieldType e :
  resolvesToEnum s parentType fieldType e ->
  resolve s parentType fieldType = Value (firstEnumValue e).
Proof.
  intros [[Hp Hts] H]. unfold resolve. rewrite Hp, bool_decide_false by done.
  destruct H as [->|([->| ->] & -> & [->|[-> ->]])]; reflexivity.
Qed.

Lemma resolve_type s parentType fieldType t :
  resolvesToType s parentType fieldType t ->
  resolve s parentType fieldType = Descend t.
Proof.
  intros [[Hp Hts] H]. unfold resolve. rewrite Hp, bool_decide_false by done.
  destruct H as [->|([->| ->] & [->|[-> ->]])]; reflexivity.
Qed.

Lemma resolve_unresolvable s parentType fieldType :
  unresolvable s parentType fieldType ->
  resolve s parentType fieldType = Value (JStr "").
Proof.
  intros ([Hp Hts] & Hn & H1 & H2 & H3). unfold resolve.
  rewrite Hp, bool_decide_false, H1, H2, H3 by done. by destruct Hn as [->| ->].
Qed.

Lemma resolve_primitive s parentType fieldType v :
  spec_primitive_default fieldType = Some v ->
  resolve s parentType fieldType = Value v.
Proof. intros H. unfold resolve. by rewrite H. Qed.

Lemma getEmptyValueForType_value s fuel fieldType parentType v :
  resolve s parentType fieldType = Value v ->
  getEmptyValueForType s fuel fieldType parentType = Ok v.
Proof.
  intros H. unfold getEmptyValueForType.
  rewrite getEmptyValueForType_resolve by apply generateEmptyJsonTemplate_no_throw.
  by rewrite H.
Qed.

Lemma getEmptyValueForType_descend s fuel fieldType parentType t :
  resolve s parentType fieldType = Descend t ->
  getEmptyValueForType s fuel fieldType parentType = generateEmptyJsonTemplate s fuel t.
Proof.
  intros H. unfold getEmptyValueForType.
  rewrite getEmptyValueForType_resolve by apply generateEmptyJsonTemplate_no_throw.
  by rewrite H.
Qed.

Lemma singular_value (r : Rule) (v : Json) :
  r ≠ RuleRepeated -> (if rule_eqb r RuleRepeated then JArr [] else v) = v.
Proof. intros H. by destruct (rule_eqb_spec r RuleRepeated). Qed.

(** What the template holds for a singular field whose value the
    resolution order fixes, and that the template exists as soon as every
    field of the message yields a value. *)
Lemma singular_field_value s fuel t f v :
  f ∈ fieldsArray (typeOf s t) ->
  NoDup (map name (fieldsArray (typeOf s t))) ->
  rule f ≠ RuleRepeated ->
  getEmptyValueForType s fuel (type f) t = Ok v ->
  (forall template, generateEmptyJsonTemplate s (S fuel) t = Ok (JObj template) ->
     obj_get (name f) template = Some v)
  /\ ((forall g, g ∈ fieldsArray (typeOf s t) ->
         exists w, getEmptyValueForType s fuel (type g) t = Ok w) ->
      exists template, generateEmptyJsonTemplate s (S fuel) t = Ok (JObj template)
        /\ obj_get (name f) template = Some v).
Proof.
  intros Hin Hnd Hrule Hv.
  assert (Hentry : forall template,
    generateEmptyJsonTemplate s (S fuel) t = Ok (JObj template) ->
    obj_get (name f) template = Some v).
  { intros template Hgen.
    destruct (generated_field s fuel t f template Hgen Hnd Hin) as (v' & Hv' & ->).
    rewrite singular_value by done. congruence. }
  split; [done|]. intros Hall.
  destruct (generated_when_fields_are s fuel t Hall) as [template Hgen]. eauto.
Qed.

(** ** Defaults of the template generator *)

(** C4. A repeated field is the empty array in the template, whatever its
    element type is: whenever the template of the message is produced it maps
    the field to [[]], and it is produced as soon as the value computed for
    each field of the message is.  (The fields of a message have distinct
    names: protobufjs keeps them in an object keyed by name.) *)
Theorem repeated_field_is_empty_array s fuel t f :
  f ∈ fieldsArray (typeOf s t) ->
  NoDup (map name (fieldsArray (typeOf s t))) ->
  rule f = RuleRepeated ->
  (forall template, generateEmptyJsonTemplate s (S fuel) t = Ok (JObj template) ->
     obj_get (name f) template = Some (JArr []))
  /\ ((forall g, g ∈ fieldsArray (typeOf s t) ->
         exists w, getEmptyValueForType s fuel (type g) t = Ok w) ->
      exists template, generateEmptyJsonTemplate s (S fuel) t = Ok (JObj template)
        /\ obj_get (name f) template = Some (JArr [])).
Proof.
  intros Hin Hnd Hrule.
  assert (Hentry : forall template,
    generateEmptyJsonTemplate s (S fuel) t = Ok (JObj template) ->
    obj_get (name f) template = Some (JArr [])).
  { intros template Hgen.
    destruct (generated_field s fuel t f template Hgen Hnd Hin) as (v & _ & ->).
    by rewrite Hrule. }
  split; [done|]. intros Hall.
  destruct (generated_when_fields_are s fuel t Hall) as [template Hgen]. eauto.
Qed.

(** C5. A singular field whose declared type resolves to an enum gets the
    name of the first value the enum declares: that is the value computed for
    it with any fuel, and what the template of the message holds for it. *)
Theorem enum_default_is_first_declared s fuel t f e v n rest :
  f ∈ fieldsArray (typeOf s t) ->
  NoDup (map name (fieldsArray (typeOf s t))) ->
  rule f ≠ RuleRepeated ->
  resolvesToEnum s t (type f) e ->
  values e = (v, n) :: rest ->
  getEmptyValueForType s fuel (type f) t = Ok (JStr v)
  /\ (forall template, generateEmptyJsonTemplate s (S fuel) t = Ok (JObj template) ->
        obj_get (name f) template = Some (JStr v))
  /\ ((forall g, g ∈ fieldsArray (typeOf s t) ->
         exists w, getEmptyValueForType s fuel (type g) t = Ok w) ->
      exists template, generateEmptyJsonTemplate s (S fuel) t = Ok (JObj template)
        /\ obj_get (name f) template = Some (JStr v)).
Proof.
  intros Hin Hnd Hrule He Hvals.
  assert (Hv : getEmptyValueForType s fuel (type f) t = Ok (JStr v)).
  { apply getEmptyValueForType_value. rewrite (resolve_enum _ _ _ _ He).
    unfold firstEnumValue. by rewrite Hvals. }
  split; [done|]. by apply singular_field_value.
Qed.

(** C6. A singular field of primitive type gets the default of the table,
    a field whose type name resolves to nothing gets the empty string, and
    generating a template never raises: every exception of a lookup is
    caught on the way. *)
Theorem primitive_defaults_and_totality s fuel t f v :
  f ∈ fieldsArray (typeOf s t) ->
  NoDup (map name (fieldsArray (typeOf s t))) ->
  rule f ≠ RuleRepeated ->
  spec_primitive_default (type f) = Some v
    \/ (unresolvable s t (type f) /\ v = JStr "") ->
  getEmptyValueForType s fuel (type f) t = Ok v
  /\ never_throws (generateEmptyJsonTemplate s (S fuel))
  /\ (forall template, generateEmptyJsonTemplate s (S fuel) t = Ok (JObj template) ->
        obj_get (name f) template = Some v)
  /\ ((forall g, g ∈ fieldsArray (typeOf s t) ->
         exists w, getEmptyValueForType s fuel (type g) t = Ok w) ->
      exists template, generateEmptyJsonTemplate s (S fuel) t = Ok (JObj template)
        /\ obj_get (name f) template = Some v).
Proof.
  intros Hin Hnd Hrule Hty.
  assert (Hv : getEmptyValueForType s fuel (type f) t = Ok v).
  { apply getEmptyValueForType_value. destruct Hty as [Hp|[Hu ->]].
    - by apply resolve_primitive.
    - by apply resolve_unresolvable. }
  split; [done|]. split; [apply generateEmptyJsonTemplate_no_throw|].
  by apply singular_field_value.
Qed.

(** C9. The spelling [google.protobuf.Timestamp] gives the empty string
    before any lookup is made, on every schema and whatever the recursive
    call would do.  Any other spelling that resolves to the seeded timestamp
    message gives the template of that message as the code builds it: the
    call that seeds it passes both fields to one [add], which keeps
    [seconds] only, so the template is [{seconds: 0}] and not the template
    [{seconds: 0, nanos: 0}] of the two-field type the call was written
    for. *)
Theorem timestamp_depends_on_spelling s fuel parentType fieldType ts :
  resolvesToType s parentType fieldType ts ->
  typeOf s ts = TimestampType ->
  (forall s' gen parentType',
     getEmptyValueForType_with s' gen "google.protobuf.Timestamp" parentType' = Ok (JStr ""))
  /\ getEmptyValueForType s (S fuel) fieldType parentType = Ok (JObj [("seconds", JNum 0)])
  /\ map name (fieldsArray TimestampType) = ["seconds"]
  /\ map name (fieldsArray TwoFieldTimestamp) = ["seconds"; "nanos"].
Proof.
  intros Hres Hts. split; [reflexivity|]. split; [|done].
  rewrite (getEmptyValueForType_descend _ _ _ _ _ (resolve_type _ _ _ _ Hres)).
  simpl. rewrite Hts. reflexivity.
Qed.

(** ** The method catalog *)

Lemma ReflectionObject_nested_ind (P : ReflectionObject -> Prop) :
  (forall methods, P (Service methods)) ->
  P (Namespace None) -> P (TypeObj None) -> P EnumObj ->
  (forall l, Forall (fun e => P e.2) l -> P (Namespace (Some l))) ->
  (forall l, Forall (fun e => P e.2) l -> P (TypeObj (Some l))) ->
  forall o, P o.
Proof.
  intros HS HN0 HT0 HE HN HT. fix IH 1.
  intros [ms|[l|]|[l|]|]; [apply HS| |apply HN0| |apply HT0|apply HE].
  - apply HN. induction l as [|[n o] l IHl]; constructor; [apply IH|apply IHl].
  - apply HT. induction l as [|[n o] l IHl]; constructor; [apply IH|apply IHl].
Qed.

Lemma walkNamespace_cons {V} (processMethod : gmap string V -> string * Method
    -> result (gmap string V)) name nested l prefix methodMap :
  walkNamespace processMethod (Namespace (Some ((name, nested) :: l))) prefix methodMap =
  methodMap' ←
    match nested with
    | Service methods => foldM processMethod methods methodMap
    | Namespace (Some _) | TypeObj (Some _) =>
        walkNamespace processMethod nested (dotted prefix name) methodMap
    | Namespace None | TypeObj None | EnumObj => Ok methodMap
    end;
  walkNamespace processMethod (Namespace (Some l)) prefix methodMap'.
Proof. reflexivity. Qed.

Lemma visitOrder_cons name nested l :
  visitOrder (Namespace (Some ((name, nested) :: l))) =
  match nested with
  | Service methods => methods
  | Namespace (Some _) | TypeObj (Some _) => visitOrder nested
  | Namespace None | TypeObj None | EnumObj => []
  end ++ visitOrder (Namespace (Some l)).
Proof. reflexivity. Qed.

(** The walk is a left-to-right pass over the methods in visiting order. *)
Lemma walkNamespace_visitOrder {V} (processMethod : gmap string V -> string * Method
    -> result (gmap string V)) namespace :
  forall prefix methodMap,
    walkNamespace processMethod namespace prefix methodMap =
    foldM processMethod (visitOrder namespace) methodMap.
Proof.
  assert (Hentries : forall l,
    Forall (fun e => forall prefix methodMap,
              walkNamespace processMethod e.2 prefix methodMap =
              foldM processMethod (visitOrder e.2) methodMap) l ->
    forall prefix methodMap,
      walkNamespace processMethod (Namespace (Some l)) prefix methodMap =
      foldM processMethod (visitOrder (Namespace (Some l))) methodMap).
  { intros l Hl prefix. induction Hl as [|[n o] l Ho _ IHl]; intros methodMap.
    - reflexivity.
    - rewrite walkNamespace_cons, visitOrder_cons, foldM_app. simpl in Ho.
      assert (Hhead :
        match o with
        | Service methods => foldM processMethod methods methodMap
        | Namespace (Some _) | TypeObj (Some _) =>
            walkNamespace processMethod o (dotted prefix n) methodMap
        | Namespace None | TypeObj None | EnumObj => Ok methodMap
        end =
        foldM processMethod
          match o with
          | Service methods => methods
          | Namespace (Some _) | TypeObj (Some _) => visitOrder o
          | Namespace None | TypeObj None | EnumObj => []
          end methodMap).
      { destruct o as [ms|[l'|]|[l'|]|]; try reflexivity; apply Ho. }
      rewrite Hhead.
      destruct (foldM processMethod _ methodMap) as [a| |];
        [exact (IHl a)|reflexivity|reflexivity]. }
  induction namespace as [ms| | | |l IH|l IH] using ReflectionObject_nested_ind;
    intros prefix methodMap; try reflexivity.
  - by apply Hentries.
  - change (walkNamespace processMethod (TypeObj (Some l)) prefix methodMap)
      with (walkNamespace processMethod (Namespace (Some l)) prefix methodMap).
    change (visitOrder (TypeObj (Some l))) with (visitOrder (Namespace (Some l))).
    by apply Hentries.
Qed.

Section Store.
Context {V : Type} (s : Schema) (compute : TypeId -> result V) (fallback : V).
Hypothesis compute_never_throws : never_throws compute.

Lemma storeMethod_stored methodMap methodName method :
  storeMethod s compute fallback methodMap (methodName, method) =
  computed ← storedFor s compute fallback method; Ok (<[methodName := computed]> methodMap).
Proof.
  unfold storeMethod, storedFor. destruct (lookupType s (requestType method)) as [t|]; simpl.
  - destruct (compute t) eqn:E; simpl; try done. by apply compute_never_throws in E.
  - done.
Qed.

Lemma storeMethod_Ok methodMap entry methodMap' :
  storeMethod s compute fallback methodMap entry = Ok methodMap' ->
  exists computed, storedFor s compute fallback entry.2 = Ok computed
    /\ methodMap' = <[entry.1 := computed]> methodMap.
Proof.
  destruct entry as [n x]. rewrite storeMethod_stored. intros H.
  apply bind_Ok in H as (v & Hv & [= <-]). eauto.
Qed.

Lemma store_keeps l methodMap methodMap' methodName :
  foldM (storeMethod s compute fallback) l methodMap = Ok methodMap' ->
  methodName ∉ l.*1 ->
  methodMap' !! methodName = methodMap !! methodName.
Proof.
  revert methodMap. induction l as [|[n x] l IH]; intros methodMap.
  - by intros [= ->].
  - intros H Hn. apply foldM_cons_Ok in H as (m1 & Hstep & Hfold).
    apply storeMethod_Ok in Hstep as (v & _ & ->). simpl in *.
    apply not_elem_of_cons in Hn as [Hne Hn].
    rewrite (IH _ Hfold Hn). by rewrite lookup_insert_ne.
Qed.

Lemma store_last before methodName method after methodMap methodMap' :
  foldM (storeMethod s compute fallback) (before ++ (methodName, method) :: after) methodMap
    = Ok methodMap' ->
  methodName ∉ after.*1 ->
  exists computed, storedFor s compute fallback method = Ok computed
    /\ methodMap' !! methodName = Some computed.
Proof.
  rewrite foldM_app. intros H Hn. apply bind_Ok in H as (m1 & _ & H).
  apply foldM_cons_Ok in H as (m2 & Hstep & Hfold).
  apply storeMethod_Ok in Hstep as (v & Hv & ->). simpl in *.
  exists v. split; [done|]. rewrite (store_keeps _ _ _ _ Hfold Hn).
  by rewrite lookup_insert_eq.
Qed.

Lemma store_present l methodMap methodMap' methodName :
  foldM (storeMethod s compute fallback) l methodMap = Ok methodMap' ->
  methodName ∈ l.*1 ->
  is_Some (methodMap' !! methodName).
Proof.
  revert methodMap. induction l as [|[n x] l IH]; intros methodMap H Hn.
  - by apply elem_of_nil in Hn.
  - apply foldM_cons_Ok in H as (m1 & Hstep & Hfold).
    destruct (decide (methodName ∈ l.*1)) as [Hin|Hout]; [by eapply IH|].
    simpl in Hn. apply elem_of_cons in Hn as [->|Hn]; [|done].
    apply storeMethod_Ok in Hstep as (v & _ & ->). simpl in *.
    rewrite (store_keeps _ _ _ _ Hfold Hout). rewrite lookup_insert_eq. eauto.
Qed.

Lemma store_total l methodMap :
  (forall entry, entry ∈ l -> exists computed, storedFor s compute fallback entry.2 = Ok computed) ->
  exists methodMap', foldM (storeMethod s compute fallback) l methodMap = Ok methodMap'.
Proof.
  intros Hall. apply foldM_total. intros st [n x] Hx.
  destruct (Hall _ Hx) as [v Hv]. rewrite storeMethod_stored. simpl in Hv.
  rewrite Hv. simpl. eauto.
Qed.
End Store.

Lemma filter_key_absent {V} (l : list (string * V)) k :
  k ∉ l.*1 -> filter (fun entry => entry.1 = k) l = [].
Proof.
  induction l as [|[k' v'] l IH]; [done|]. simpl.
  intros [Hne Hk]%not_elem_of_cons.
  rewrite filter_cons_False by (simpl; congruence). auto.
Qed.

Lemma one_entry_per_key {V} (m : gmap string V) k v :
  m !! k = Some v ->
  length (filter (fun entry => entry.1 = k) (map_to_list m)) = 1.
Proof.
  intros Hk. apply elem_of_map_to_list in Hk.
  pose proof (NoDup_fst_map_to_list m) as Hnd.
  induction (map_to_list m) as [|[k' v'] l IH]; [by apply elem_of_nil in Hk|].
  simpl in Hnd. apply NoDup_cons in Hnd as [Hfresh Hnd].
  apply elem_of_cons in Hk as [[= <- <-]|Hk].
  - rewrite filter_cons_True by done. by rewrite filter_key_absent.
  - rewrite filter_cons_False; [by apply IH|].
    simpl. intros ->. apply Hfresh. by apply (list_elem_of_fmap_2 fst l (k, v)).
Qed.

(** ** The extractor never raises *)

Lemma extractStep_target s explicitOptionalFields recur type_ fieldPrefix typePrefix
    optionalFields field :
  (forall t fp tp acc msg, recur t fp tp acc ≠ Throw msg) ->
  extractStep s explicitOptionalFields recur type_ fieldPrefix typePrefix optionalFields field =
  let optionalFields' :=
    pushed explicitOptionalFields
      (dotted typePrefix (tname (typeOf s type_) +:+ "." +:+ name field))
      (dotted fieldPrefix (name field)) optionalFields in
  match extractTarget s type_ field with
  | Some t => recur t (dotted fieldPrefix (name field))
                (dotted typePrefix (tname (typeOf s type_))) optionalFields'
  | None => Ok optionalFields'
  end.
Proof.
  intros Hrecur. unfold extractStep, extractTarget, pushed. simpl.
  destruct (resolvedType field) as [[t|e]|];
    [|destruct (nested_get (typeOf s type_) (type field)) as [[t| |]|]..]; simpl; try done.
  all: match goal with
       | |- try_catch ?m _ = _ => destruct m eqn:E; simpl; try done;
                                   by apply Hrecur in E
       end.
Qed.

Lemma extract_no_throw s explicitOptionalFields fuel :
  forall t fp tp acc msg,
    extractOptionalFieldsRecursive s explicitOptionalFields fuel t fp tp acc ≠ Throw msg.
Proof.
  induction fuel as [|fuel IH]; intros t fp tp acc msg; simpl; [done|].
  apply foldM_no_throw. intros st f msg' _.
  rewrite extractStep_target by done. simpl.
  destruct (extractTarget s t f); [apply IH|done].
Qed.

Lemma getOptionalFields_no_throw s explicitOptionalFields fuel :
  never_throws (getOptionalFieldsFromTypeWithExplicit s explicitOptionalFields fuel).
Proof. intros t msg. apply extract_no_throw. Qed.

(** ** Catalog entries *)

(** C7, as the code has it.  A method whose request type cannot be looked
    up does not stop the build.  Both catalogs are produced whenever the
    other methods' own templates and lists are.  Every method that is the
    last one visited under its bare name has its own entry: the template and
    the optional-field list of its request type when that type is found, the
    empty template and the empty list when it is not.  So the failing
    method's entry is the empty one unless a method of the same bare name is
    visited after it, and no other entry is touched by the failure. *)
Theorem unresolvable_method_is_isolated s fuel protoContent root
    before methodName method after :
  visitOrder root = before ++ (methodName, method) :: after ->
  lookupType s (requestType method) = None ->
  (forall entry t, entry ∈ before ++ after ->
     lookupType s (requestType entry.2) = Some t ->
     (exists template, generateEmptyJsonTemplate s fuel t = Ok template)
     /\ (exists optionalFields,
           getOptionalFieldsFromTypeWithExplicit s
             (parseExplicitOptionalFields protoContent) fuel t = Ok optionalFields)) ->
  exists methodMap optionalFieldsMap,
    parseProtoContent s fuel root = Ok methodMap
    /\ getOptionalFieldsMap s fuel protoContent root = Ok optionalFieldsMap
    /\ (methodName ∉ after.*1 ->
          methodMap !! methodName = Some (JObj [])
          /\ optionalFieldsMap !! methodName = Some [])
    /\ (forall earlier otherName other later,
          visitOrder root = earlier ++ (otherName, other) :: later ->
          otherName ∉ later.*1 ->
          match lookupType s (requestType other) with
          | Some t =>
              exists template optionalFields,
                generateEmptyJsonTemplate s fuel t = Ok template
                /\ getOptionalFieldsFromTypeWithExplicit s
                     (parseExplicitOptionalFields protoContent) fuel t = Ok optionalFields
                /\ methodMap !! otherName = Some template
                /\ optionalFieldsMap !! otherName = Some optionalFields
          | None =>
              methodMap !! otherName = Some (JObj [])
              /\ optionalFieldsMap !! otherName = Some []
          end).
Proof.
  intros Horder Hmissing Hothers.
  set (explicitOptionalFields := parseExplicitOptionalFields protoContent) in *.
  unfold parseProtoContent, getOptionalFieldsMap, extractServices, extractOptionalFields.
  fold explicitOptionalFields. cbv zeta.
  rewrite !walkNamespace_visitOrder.
  pose proof (generateEmptyJsonTemplate_no_throw s fuel) as Hgen.
  pose proof (getOptionalFields_no_throw s explicitOptionalFields fuel) as Hopt.
  assert (Hstored : forall entry, entry ∈ visitOrder root ->
    (exists template,
       storedFor s (generateEmptyJsonTemplate s fuel) (JObj []) entry.2 = Ok template)
    /\ (exists optionalFields,
          storedFor s (getOptionalFieldsFromTypeWithExplicit s explicitOptionalFields fuel)
            [] entry.2 = Ok optionalFields)).
  { intros entry Hin. unfold storedFor.
    destruct (lookupType s (requestType entry.2)) as [t|] eqn:Ht; [|eauto].
    apply (Hothers entry t); [|done].
    rewrite Horder in Hin. apply elem_of_app in Hin as [Hin|Hin]; apply elem_of_app; [auto|].
    apply elem_of_cons in Hin as [->|Hin]; [|auto]. simpl in Ht. congruence. }
  destruct (store_total s _ (JObj []) Hgen (visitOrder root) ∅) as [methodMap Hmap].
  { intros entry Hin. by apply Hstored. }
  destruct (store_total s _ [] Hopt (visitOrder root) ∅) as [optionalFieldsMap Hoptmap].
  { intros entry Hin. by apply Hstored. }
  exists methodMap, optionalFieldsMap.
  split; [done|]. split; [done|]. split.
  - intros Hlast. split.
    + rewrite Horder in Hmap.
      destruct (store_last s _ _ Hgen _ _ _ _ _ _ Hmap Hlast) as (v & Hv & ->).
      unfold storedFor in Hv. rewrite Hmissing in Hv. congruence.
    + rewrite Horder in Hoptmap.
      destruct (store_last s _ _ Hopt _ _ _ _ _ _ Hoptmap Hlast) as (v & Hv & ->).
      unfold storedFor in Hv. rewrite Hmissing in Hv. congruence.
  - intros earlier otherName other later Hthere Hlast.
    rewrite Hthere in Hmap, Hoptmap.
    destruct (store_last s _ _ Hgen _ _ _ _ _ _ Hmap Hlast) as (template & Hv & Hentry).
    destruct (store_last s _ _ Hopt _ _ _ _ _ _ Hoptmap Hlast) as (l & Hl & Hlist).
    unfold storedFor in Hv, Hl.
    destruct (lookupType s (requestType other)) as [t|].
    + by exists template, l.
    + injection Hv as <-. injection Hl as <-. done.
Qed.

(** C8. The catalog is keyed by the bare method name: when a name is
    declared more than once along the walk, the catalog has exactly one entry
    under it, holding what the last visited declaration stores (the template
    of its request type, or the empty template when that type is not
    found); and the catalog is produced whenever every method's own template
    is. *)
Theorem same_name_last_wins s fuel root before methodName earlier between method after :
  visitOrder root =
    before ++ (methodName, earlier) :: between ++ (methodName, method) :: after ->
  methodName ∉ after.*1 ->
  (forall methodMap, parseProtoContent s fuel root = Ok methodMap ->
     length (filter (fun entry => entry.1 = methodName) (map_to_list methodMap)) = 1
     /\ exists template, methodMap !! methodName = Some template
          /\ match lookupType s (requestType method) with
             | Some t => generateEmptyJsonTemplate s fuel t = Ok template
             | None => template = JObj []
             end)
  /\ ((forall entry t, entry ∈ visitOrder root ->
         lookupType s (requestType entry.2) = Some t ->
         exists template, generateEmptyJsonTemplate s fuel t = Ok template) ->
      exists methodMap, parseProtoContent s fuel root = Ok methodMap).
Proof.
  intros Horder Hlast.
  unfold parseProtoContent, extractServices. rewrite walkNamespace_visitOrder.
  pose proof (generateEmptyJsonTemplate_no_throw s fuel) as Hgen.
  split.
  - intros methodMap Hmap. rewrite Horder in Hmap.
    replace (before ++ (methodName, earlier) :: between ++ (methodName, method) :: after)
      with ((before ++ (methodName, earlier) :: between) ++ (methodName, method) :: after)
      in Hmap by (by rewrite <- app_assoc).
    destruct (store_last s _ _ Hgen _ _ _ _ _ _ Hmap Hlast) as (v & Hv & Hlook).
    split; [by eapply one_entry_per_key|].
    exists v. split; [done|]. unfold storedFor in Hv.
    destruct (lookupType s (requestType method)); congruence.
  - intros Hall. apply store_total; [done|]. intros entry Hin. unfold storedFor.
    destruct (lookupType s (requestType entry.2)) as [t|] eqn:Ht; eauto.
Qed.

(** ** Recursion depth *)

Lemma foldM_diverges {A S} (step : S -> A -> result S) before x after st :
  (forall st' y msg, step st' y ≠ Throw msg) ->
  (forall st', step st' x = Diverge) ->
  foldM step (before ++ x :: after) st = Diverge.
Proof.
  intros Hno Hx. rewrite foldM_app.
  destruct (foldM step before st) as [st1|e|] eqn:E; simpl.
  - by rewrite Hx.
  - exfalso. revert E. apply foldM_no_throw. auto.
  - done.
Qed.

(** A message type with a field that resolves to the type itself: on the
    stack that never runs out no amount of fuel lets the generator return. *)
Lemma self_embedding_diverges s t f :
  f ∈ fieldsArray (typeOf s t) ->
  resolve s t (type f) = Descend t ->
  forall fuel, generateEmptyJsonTemplate s fuel t = Diverge.
Proof.
  intros Hin Hres fuel. induction fuel as [|fuel IH]; [done|]. simpl.
  apply list_elem_of_split in Hin as (before & after & ->).
  rewrite (foldM_diverges _ before f after); [done| |].
  - intros. apply templateStep_no_throw, generateEmptyJsonTemplate_no_throw.
  - intros st'. unfold templateStep.
    fold (getEmptyValueForType s fuel (type f) t).
    by rewrite (getEmptyValueForType_descend _ _ _ _ _ Hres), IH.
Qed.

Lemma generate_terminates s rank :
  ranked (templateEdge s) rank ->
  forall fuel t, rank t < fuel ->
    exists template, generateEmptyJsonTemplate s fuel t = Ok (JObj template).
Proof.
  intros Hrank fuel. induction fuel as [|fuel IH]; intros t Hlt; [lia|].
  apply generated_when_fields_are. intros g Hg.
  destruct (resolve s t (type g)) as [v|t'] eqn:Hres.
  - exists v. by apply getEmptyValueForType_value.
  - rewrite (getEmptyValueForType_descend _ _ _ _ _ Hres).
    destruct (IH t') as [template ->]; [|eauto].
    assert (rank t' < rank t) by (apply Hrank; by exists g). lia.
Qed.

Lemma extract_terminates s explicitOptionalFields rank :
  ranked (extractEdge s) rank ->
  forall fuel t, rank t < fuel ->
    forall fp tp acc, exists optionalFields,
      extractOptionalFieldsRecursive s explicitOptionalFields fuel t fp tp acc
        = Ok optionalFields.
Proof.
  intros Hrank fuel. induction fuel as [|fuel IH]; intros t Hlt fp tp acc; [lia|].
  simpl. apply foldM_total. intros st f Hf.
  rewrite extractStep_target by apply extract_no_throw. simpl.
  destruct (extractTarget s t f) as [t'|] eqn:Ht; [|eauto].
  apply IH. assert (rank t' < rank t) by (apply Hrank; by exists f). lia.
Qed.

(** More fuel never changes a result. *)
Lemma foldM_mono {A S} (step1 step2 : S -> A -> result S) l :
  (forall st x st', step1 st x = Ok st' -> step2 st x = Ok st') ->
  forall st r, foldM step1 l st = Ok r -> foldM step2 l st = Ok r.
Proof.
  intros Hstep. induction l as [|x l IH]; intros st r H; [done|].
  apply foldM_cons_Ok in H as (st1 & Hx & Hrest). simpl.
  rewrite (Hstep _ _ _ Hx). simpl. by apply IH.
Qed.

Lemma generate_fuel_S s fuel :
  forall t v, generateEmptyJsonTemplate s fuel t = Ok v ->
              generateEmptyJsonTemplate s (S fuel) t = Ok v.
Proof.
  induction fuel as [|fuel IH]; intros t v H; [done|].
  simpl in H. apply bind_Ok in H as (props & Hfold & [= <-]).
  change (generateEmptyJsonTemplate s (S (S fuel)) t)
    with (props' ← foldM (templateStep s (generateEmptyJsonTemplate s (S fuel)) t)
                     (fieldsArray (typeOf s t)) []; Ok (JObj props')).
  assert (Hstep : forall st x st',
    templateStep s (generateEmptyJsonTemplate s fuel) t st x = Ok st' ->
    templateStep s (generateEmptyJsonTemplate s (S fuel)) t st x = Ok st').
  { intros st x st'. unfold templateStep. intros Hstep.
    apply bind_Ok in Hstep as (w & Hw & [= <-]).
    rewrite getEmptyValueForType_resolve in Hw |- *
      by apply generateEmptyJsonTemplate_no_throw.
    destruct (resolve s t (type x)) as [w'|t'].
    - by rewrite Hw.
    - by rewrite (IH _ _ Hw). }
  by rewrite (foldM_mono _ _ _ Hstep _ _ Hfold).
Qed.

Lemma generate_fuel_le s fuel fuel' t v :
  fuel <= fuel' ->
  generateEmptyJsonTemplate s fuel t = Ok v -> generateEmptyJsonTemplate s fuel' t = Ok v.
Proof. induction 1; auto using generate_fuel_S. Qed.

Lemma extract_fuel_S s explicitOptionalFields fuel :
  forall t fp tp acc l,
    extractOptionalFieldsRecursive s explicitOptionalFields fuel t fp tp acc = Ok l ->
    extractOptionalFieldsRecursive s explicitOptionalFields (S fuel) t fp tp acc = Ok l.
Proof.
  induction fuel as [|fuel IH]; intros t fp tp acc l H; [done|].
  simpl in H.
  change (extractOptionalFieldsRecursive s explicitOptionalFields (S (S fuel)) t fp tp acc)
    with (foldM (extractStep s explicitOptionalFields
                   (extractOptionalFieldsRecursive s explicitOptionalFields (S fuel)) t fp tp)
            (fieldsArray (typeOf s t)) acc).
  revert H. apply foldM_mono. intros st x st'.
  rewrite !extractStep_target by apply extract_no_throw. simpl.
  destruct (extractTarget s t x); [apply IH|done].
Qed.

Lemma extract_fuel_le s explicitOptionalFields fuel fuel' t fp tp acc l :
  fuel <= fuel' ->
  extractOptionalFieldsRecursive s explicitOptionalFields fuel t fp tp acc = Ok l ->
  extractOptionalFieldsRecursive s explicitOptionalFields fuel' t fp tp acc = Ok l.
Proof. induction 1; auto using extract_fuel_S. Qed.

(** What a walker returns does not depend on the fuel it was given. *)
Lemma generate_deterministic s fuel fuel' t v v' :
  generateEmptyJsonTemplate s fuel t = Ok v ->
  generateEmptyJsonTemplate s fuel' t = Ok v' -> v = v'.
Proof.
  intros H H'.
  apply (generate_fuel_le s fuel (fuel `max` fuel')) in H; [|lia].
  apply (generate_fuel_le s fuel' (fuel `max` fuel')) in H'; [|lia]. congruence.
Qed.

Lemma getOptionalFields_deterministic s explicitOptionalFields fuel fuel' t l l' :
  getOptionalFieldsFromTypeWithExplicit s explicitOptionalFields fuel t = Ok l ->
  getOptionalFieldsFromTypeWithExplicit s explicitOptionalFields fuel' t = Ok l' -> l = l'.
Proof.
  unfold getOptionalFieldsFromTypeWithExplicit. intros H H'.
  apply (extract_fuel_le s _ fuel (fuel `max` fuel')) in H; [|lia].
  apply (extract_fuel_le s _ fuel' (fuel `max` fuel')) in H'; [|lia]. congruence.
Qed.

(** ** The walkers on a bounded stack *)

Lemma foldM_comesBack {A S} (step : S -> A -> result S) l :
  (forall st x, comesBack (step st x)) -> forall st, comesBack (foldM step l st).
Proof.
  intros Hstep. induction l as [|x l IH]; intros st; simpl; [left; eauto|].
  destruct (Hstep st x) as [[st1 ->]| ->]; simpl; [apply IH|by right].
Qed.

(** The lookups of [getEmptyValueForType] end in the empty string: whatever
    the recursive call does, short of not coming back, they return. *)
Lemma getEmptyValueForType_comesBack s gen fieldType parentType :
  (forall t, comesBack (gen t)) ->
  comesBack (getEmptyValueForType_with s gen fieldType parentType).
Proof.
  intros Hgen.
  destruct (spec_primitive_default fieldType) as [v|] eqn:Hp.
  { left. exists v. by apply primitive_case. }
  rewrite not_primitive_case by done.
  destruct (String.eqb fieldType "google.protobuf.Timestamp"); [left; eauto|].
  assert (Hglobal : comesBack
    (try_catch
      (nestedType ← throwing "no such type" (lookupType s fieldType); gen nestedType)
      (fun _ =>
         try_catch
           (nestedType ← throwing "no such Type or Enum" (lookupTypeOrEnum s fieldType);
            match nestedType with
            | IsType t => gen t
            | IsEnum e => Ok (firstEnumValue e)
            end)
           (fun _ =>
              try_catch
                (enumType ← throwing "no such enum" (lookupEnum s fieldType);
                 Ok (firstEnumValue enumType))
                (fun _ => Ok (JStr "")))))).
  { left.
    assert (Hlast : exists v,
      try_catch (enumType ← throwing "no such enum" (lookupEnum s fieldType);
                 Ok (firstEnumValue enumType)) (fun _ => Ok (JStr "")) = Ok v).
    { destruct (lookupEnum s fieldType); simpl; eauto. }
    assert (Hmiddle : exists v,
      try_catch
        (nestedType ← throwing "no such Type or Enum" (lookupTypeOrEnum s fieldType);
         match nestedType with
         | IsType t => gen t
         | IsEnum e => Ok (firstEnumValue e)
         end)
        (fun _ =>
           try_catch (enumType ← throwing "no such enum" (lookupEnum s fieldType);
                      Ok (firstEnumValue enumType)) (fun _ => Ok (JStr ""))) = Ok v).
    { destruct (lookupTypeOrEnum s fieldType) as [[t|e]|]; simpl; eauto.
      destruct (Hgen t) as [[v ->]| ->]; simpl; eauto. }
    destruct (lookupType s fieldType) as [t|]; simpl; [|done].
    destruct (Hgen t) as [[v ->]| ->]; simpl; eauto. }
  destruct (nested_get (typeOf s parentType) fieldType) as [[t|e|]|]; auto.
  left; eauto.
Qed.

Lemma onStack_generate_comesBack s frames :
  forall t, comesBack (OnStack.generateEmptyJsonTemplate s frames t).
Proof.
  induction frames as [|frames IH]; intros t; [by right|]. simpl.
  destruct (foldM_comesBack
              (templateStep s (OnStack.generateEmptyJsonTemplate s frames) t)
              (fieldsArray (typeOf s t))) with (st := @nil (string * Json))
    as [[template ->]| ->]; simpl; [|left; eauto|by right].
  intros st x. unfold templateStep.
  destruct (getEmptyValueForType_comesBack s _ (type x) t IH) as [[v ->]| ->]; simpl;
    [left; eauto|by right].
Qed.

(** Both recursive calls of the extractor sit inside its [try]: an
    activation that did not fit is caught where it was called. *)
Lemma extractStep_catches s explicitOptionalFields recur type_ fieldPrefix typePrefix
    optionalFields field :
  (forall t fp tp acc, recur t fp tp acc ≠ Diverge) ->
  exists l, extractStep s explicitOptionalFields recur type_ fieldPrefix typePrefix
              optionalFields field = Ok l.
Proof.
  intros Hrecur. unfold extractStep. cbv zeta.
  destruct (resolvedType field) as [[t|e]|];
    [|destruct (nested_get (typeOf s type_) (type field)) as [[t| |]|]..]; simpl; eauto.
  all: match goal with
       | |- exists l, try_catch ?m _ = _ =>
           destruct m eqn:E; simpl; eauto; by apply Hrecur in E
       end.
Qed.

Lemma onStack_extract_returns s explicitOptionalFields frames :
  forall t fp tp acc, exists l,
    OnStack.extractOptionalFieldsRecursive s explicitOptionalFields (S frames) t fp tp acc
      = Ok l.
Proof.
  induction frames as [|frames IH]; intros t fp tp acc.
  - simpl. apply foldM_total. intros st f _. by apply extractStep_catches.
  - change (OnStack.extractOptionalFieldsRecursive s explicitOptionalFields (S (S frames))
              t fp tp acc)
      with (foldM (extractStep s explicitOptionalFields
                     (OnStack.extractOptionalFieldsRecursive s explicitOptionalFields
                        (S frames)) t fp tp)
                  (fieldsArray (typeOf s t)) acc).
    apply foldM_total. intros st f _. apply extractStep_catches.
    intros t' fp' tp' acc'. by destruct (IH t' fp' tp' acc') as [l ->].
Qed.

(** With no room left for the nested template, a field whose type the
    lookups find gets the empty string. *)
Lemma onStack_truncates s parentType fieldType t :
  isCustomName fieldType ->
  nestedMiss s parentType fieldType ->
  lookupType s fieldType = Some t ->
  (forall e, lookupTypeOrEnum s fieldType ≠ Some (IsEnum e)) ->
  lookupEnum s fieldType = None ->
  OnStack.getEmptyValueForType s 0 fieldType parentType = Ok (JStr "").
Proof.
  intros [Hp Hts] Hmiss Ht Hnot Henum. unfold OnStack.getEmptyValueForType.
  rewrite not_primitive_case by done.
  rewrite (proj2 (String.eqb_neq _ _) Hts), Ht, Henum.
  assert (Hglobal :
    try_catch (nestedType ← throwing "no such type" (Some t);
               OnStack.generateEmptyJsonTemplate s 0 nestedType)
      (fun _ =>
         try_catch
           (nestedType ← throwing "no such Type or Enum" (lookupTypeOrEnum s fieldType);
            match nestedType with
            | IsType t' => OnStack.generateEmptyJsonTemplate s 0 t'
            | IsEnum e => Ok (firstEnumValue e)
            end)
           (fun _ =>
              try_catch (enumType ← throwing "no such enum" (@None Enum);
                         Ok (firstEnumValue enumType)) (fun _ => Ok (JStr ""))))
    = Ok (JStr "")).
  { simpl. destruct (lookupTypeOrEnum s fieldType) as [[t'|e]|] eqn:E; simpl; try done.
    by destruct (Hnot e). }
  by destruct Hmiss as [->| ->].
Qed.

(** When the template of a field's type fits on the stack, the field holds
    it. *)
Lemma onStack_holds_what_fits s frames parentType fieldType t template :
  isCustomName fieldType ->
  nestedMiss s parentType fieldType ->
  lookupType s fieldType = Some t ->
  OnStack.generateEmptyJsonTemplate s frames t = Ok template ->
  OnStack.getEmptyValueForType s frames fieldType parentType = Ok template.
Proof.
  intros [Hp Hts] Hmiss Ht Hfits. unfold OnStack.getEmptyValueForType.
  rewrite not_primitive_case by done.
  rewrite (proj2 (String.eqb_neq _ _) Hts), Ht. simpl. rewrite Hfits. simpl.
  by destruct Hmiss as [->| ->].
Qed.

Lemma has_path_nodeTemplate depth :
  has_path (MoreExamples.nodeTemplate depth) (repeat "next" depth) = true.
Proof. induction depth as [|depth IH]; [done|]. simpl. exact IH. Qed.

Lemma onStack_node_template frames :
  OnStack.generateEmptyJsonTemplate Examples.nodeSchema (S frames) 0
  = Ok (MoreExamples.nodeTemplate (S frames)).
Proof.
  induction frames as [|frames IH]; [reflexivity|].
  change (OnStack.generateEmptyJsonTemplate Examples.nodeSchema (S (S frames)) 0)
    with (template ← foldM (templateStep Examples.nodeSchema
                              (OnStack.generateEmptyJsonTemplate Examples.nodeSchema (S frames)) 0)
                           [Examples.field "next" "Node" RuleNone] [];
          Ok (JObj template)).
  unfold foldM, templateStep.
  rewrite not_primitive_case by reflexivity.
  change (type (Examples.field "next" "Node" RuleNone)) with "Node".
  change (String.eqb "Node" "google.protobuf.Timestamp") with false.
  change (nested_get (typeOf Examples.nodeSchema 0) "Node") with (@None Nested).
  change (lookupType Examples.nodeSchema "Node") with (Some 0).
  cbn [throwing mbind result_bind]. rewrite IH. reflexivity.
Qed.

(** Where the run on the unbounded stack returns, the run on a stack of as
    many frames as the fuel returns the same. *)
Lemma getEmptyValueForType_agrees s gen gen' fieldType parentType v :
  never_throws gen ->
  (forall t w, gen t = Ok w -> gen' t = Ok w) ->
  getEmptyValueForType_with s gen fieldType parentType = Ok v ->
  getEmptyValueForType_with s gen' fieldType parentType = Ok v.
Proof.
  intros Hno Hgen.
  destruct (spec_primitive_default fieldType) as [w|] eqn:Hp.
  { rewrite !(primitive_case _ _ _ _ w) by done. done. }
  rewrite !not_primitive_case by done.
  destruct (String.eqb fieldType "google.protobuf.Timestamp"); [done|].
  assert (Hglobal :
    try_catch
      (nestedType ← throwing "no such type" (lookupType s fieldType); gen nestedType)
      (fun _ =>
         try_catch
           (nestedType ← throwing "no such Type or Enum" (lookupTypeOrEnum s fieldType);
            match nestedType with
            | IsType t => gen t
            | IsEnum e => Ok (firstEnumValue e)
            end)
           (fun _ =>
              try_catch
                (enumType ← throwing "no such enum" (lookupEnum s fieldType);
                 Ok (firstEnumValue enumType))
                (fun _ => Ok (JStr "")))) = Ok v ->
    try_catch
      (nestedType ← throwing "no such type" (lookupType s fieldType); gen' nestedType)
      (fun _ =>
         try_catch
           (nestedType ← throwing "no such Type or Enum" (lookupTypeOrEnum s fieldType);
            match nestedType with
            | IsType t => gen' t
            | IsEnum e => Ok (firstEnumValue e)
            end)
           (fun _ =>
              try_catch
                (enumType ← throwing "no such enum" (lookupEnum s fieldType);
                 Ok (firstEnumValue enumType))
                (fun _ => Ok (JStr "")))) = Ok v).
  { destruct (lookupType s fieldType) as [t|]; simpl.
    - destruct (gen t) as [w|e|] eqn:E; simpl; try done.
      + intros [= ->]. by rewrite (Hgen _ _ E).
      + by apply Hno in E.
    - destruct (lookupTypeOrEnum s fieldType) as [[t|e]|]; simpl; try done.
      destruct (gen t) as [w|e|] eqn:E; simpl; try done.
      + intros [= ->]. by rewrite (Hgen _ _ E).
      + by apply Hno in E. }
  destruct (nested_get (typeOf s parentType) fieldType) as [[t|e|]|]; auto.
Qed.

Lemma onStack_generate_agrees s fuel :
  forall t v, generateEmptyJsonTemplate s fuel t = Ok v ->
              OnStack.generateEmptyJsonTemplate s fuel t = Ok v.
Proof.
  induction fuel as [|fuel IH]; intros t v H; [done|].
  simpl in H. apply bind_Ok in H as (props & Hfold & [= <-]). simpl.
  assert (Hstep : forall st x st',
    templateStep s (generateEmptyJsonTemplate s fuel) t st x = Ok st' ->
    templateStep s (OnStack.generateEmptyJsonTemplate s fuel) t st x = Ok st').
  { intros st x st'. unfold templateStep. intros Hstep.
    apply bind_Ok in Hstep as (w & Hw & [= <-]).
    by rewrite (getEmptyValueForType_agrees s _ _ _ _ w
                  (generateEmptyJsonTemplate_no_throw s fuel) IH Hw). }
  by rewrite (foldM_mono _ _ _ Hstep _ _ Hfold).
Qed.

Lemma onStack_extract_agrees s explicitOptionalFields fuel :
  forall t fp tp acc l,
    extractOptionalFieldsRecursive s explicitOptionalFields fuel t fp tp acc = Ok l ->
    OnStack.extractOptionalFieldsRecursive s explicitOptionalFields fuel t fp tp acc = Ok l.
Proof.
  induction fuel as [|fuel IH]; intros t fp tp acc l H; [done|].
  simpl in H |- *. revert H. apply foldM_mono. intros st x st'.
  unfold extractStep. cbv zeta.
  destruct (resolvedType x) as [[t'|e]|];
    [|destruct (nested_get (typeOf s t) (type x)) as [[t'| |]|]..]; simpl; try done.
  all: match goal with
       | |- try_catch ?m _ = _ -> _ =>
           destruct m as [l'|e'|] eqn:E; simpl; try done;
           [intros [= ->]; by rewrite (IH _ _ _ _ _ E)|by apply extract_no_throw in E]
       end.
Qed.


(** ** What the extractor lists *)

Lemma pushed_extends explicitOptionalFields typePath fieldPath optionalFields :
  optionalFields `prefix_of` pushed explicitOptionalFields typePath fieldPath optionalFields.
Proof. unfold pushed. case_bool_decide; [by apply prefix_app_r|done]. Qed.

Lemma pushed_member explicitOptionalFields typePath fieldPath optionalFields :
  typePath ∈ explicitOptionalFields ->
  fieldPath ∈ pushed explicitOptionalFields typePath fieldPath optionalFields.
Proof.
  intros H. unfold pushed. rewrite bool_decide_true by done.
  apply elem_of_app. right. by left.
Qed.

Lemma prefix_member {A} (l1 l2 : list A) x : l1 `prefix_of` l2 -> x ∈ l1 -> x ∈ l2.
Proof. intros [k ->] H. apply elem_of_app. by left. Qed.

Section ExtractLoop.
Variable s : Schema.
Variable explicitOptionalFields : gset string.
Variable recur : TypeId -> string -> string -> list string -> result (list string).
Hypothesis recur_no_throw : forall t fp tp acc msg, recur t fp tp acc ≠ Throw msg.
Hypothesis recur_extends :
  forall t fp tp acc l, recur t fp tp acc = Ok l -> acc `prefix_of` l.
Variable type_ : TypeId.
Variables fieldPrefix typePrefix : string.

Lemma extractStep_extends optionalFields field l :
  extractStep s explicitOptionalFields recur type_ fieldPrefix typePrefix optionalFields field
    = Ok l ->
  pushed explicitOptionalFields
    (dotted typePrefix (tname (typeOf s type_) +:+ "." +:+ name field))
    (dotted fieldPrefix (name field)) optionalFields `prefix_of` l.
Proof.
  rewrite extractStep_target by done. simpl.
  destruct (extractTarget s type_ field).
  - apply recur_extends.
  - by intros [= ->].
Qed.

Lemma extractLoop_extends fields optionalFields l :
  foldM (extractStep s explicitOptionalFields recur type_ fieldPrefix typePrefix)
    fields optionalFields = Ok l ->
  optionalFields `prefix_of` l.
Proof.
  revert optionalFields. induction fields as [|f fields IH]; intros acc.
  - by intros [= ->].
  - intros H. apply foldM_cons_Ok in H as (acc1 & Hstep & Hfold).
    etrans; [apply pushed_extends|]. etrans; [by apply extractStep_extends|by apply IH].
Qed.

Lemma extractLoop_pushed fields field optionalFields l :
  foldM (extractStep s explicitOptionalFields recur type_ fieldPrefix typePrefix)
    fields optionalFields = Ok l ->
  field ∈ fields ->
  dotted typePrefix (tname (typeOf s type_) +:+ "." +:+ name field) ∈ explicitOptionalFields ->
  dotted fieldPrefix (name field) ∈ l.
Proof.
  revert optionalFields. induction fields as [|f fields IH]; intros acc H Hin Hkey.
  - by apply elem_of_nil in Hin.
  - apply foldM_cons_Ok in H as (acc1 & Hstep & Hfold).
    apply elem_of_cons in Hin as [->|Hin]; [|by eapply IH].
    eapply prefix_member; [by eapply extractLoop_extends|].
    eapply prefix_member; [by apply extractStep_extends|]. by apply pushed_member.
Qed.

Lemma extractLoop_descends fields field t optionalFields l :
  foldM (extractStep s explicitOptionalFields recur type_ fieldPrefix typePrefix)
    fields optionalFields = Ok l ->
  field ∈ fields ->
  extractTarget s type_ field = Some t ->
  exists acc l1,
    recur t (dotted fieldPrefix (name field)) (dotted typePrefix (tname (typeOf s type_))) acc
      = Ok l1
    /\ l1 `prefix_of` l.
Proof.
  revert optionalFields. induction fields as [|f fields IH]; intros acc H Hin Ht.
  - by apply elem_of_nil in Hin.
  - apply foldM_cons_Ok in H as (acc1 & Hstep & Hfold).
    apply elem_of_cons in Hin as [->|Hin]; [|by eapply IH].
    rewrite extractStep_target in Hstep by done. simpl in Hstep. rewrite Ht in Hstep.
    eexists _, acc1. split; [exact Hstep|]. by eapply extractLoop_extends.
Qed.
End ExtractLoop.

Lemma extract_extends s explicitOptionalFields fuel :
  forall t fp tp acc l,
    extractOptionalFieldsRecursive s explicitOptionalFields fuel t fp tp acc = Ok l ->
    acc `prefix_of` l.
Proof.
  induction fuel as [|fuel IH]; intros t fp tp acc l; simpl; [done|].
  apply extractLoop_extends; [apply extract_no_throw|exact IH].
Qed.

(** Whatever a nested call of the extractor returns is part of what the
    outer call returns. *)
Lemma walks_included s explicitOptionalFields t fp tp t' fp' tp' :
  walks s t fp tp t' fp' tp' ->
  forall fuel acc l,
    extractOptionalFieldsRecursive s explicitOptionalFields fuel t fp tp acc = Ok l ->
    exists fuel' acc' l',
      extractOptionalFieldsRecursive s explicitOptionalFields fuel' t' fp' tp' acc' = Ok l'
      /\ l' `prefix_of` l.
Proof.
  induction 1 as [t fp tp|t fp tp f t1 t' fp' tp' Hf Ht _ IH]; intros fuel acc l Hl.
  - by exists fuel, acc, l.
  - destruct fuel as [|fuel]; [done|]. simpl in Hl.
    destruct (extractLoop_descends s explicitOptionalFields _
                (extract_no_throw s explicitOptionalFields fuel)
                (extract_extends s explicitOptionalFields fuel)
                _ _ _ _ _ _ _ _ Hl Hf Ht) as (acc1 & l1 & Hrec & Hpre).
    destruct (IH _ _ _ Hrec) as (fuel' & acc' & l' & Hrec' & Hpre').
    exists fuel', acc', l'. split; [done|]. by etrans.
Qed.

Lemma extract_lists_field s explicitOptionalFields fuel t fp tp acc l f :
  extractOptionalFieldsRecursive s explicitOptionalFields fuel t fp tp acc = Ok l ->
  f ∈ fieldsArray (typeOf s t) ->
  dotted tp (tname (typeOf s t) +:+ "." +:+ name f) ∈ explicitOptionalFields ->
  dotted fp (name f) ∈ l.
Proof.
  destruct fuel as [|fuel]; [done|]. simpl. intros Hl Hf Hkey.
  eapply extractLoop_pushed; eauto using extract_no_throw, extract_extends.
Qed.

(** ** What the scanner records for a line *)

Lemma skipped_scanLine st line : skipped line = true -> Scanner.scanLine st line = st.
Proof. unfold skipped, Scanner.scanLine. cbv zeta. by intros ->. Qed.

Lemma prefix_cons a p c rest :
  String.prefix (String a p) (String c rest)
  = if ascii_dec a c then String.prefix p rest else false.
Proof. reflexivity. Qed.

Lemma prefix_nil str : String.prefix "" str = true.
Proof. by destruct str. Qed.

Lemma skipped_records_nothing line :
  skipped line = true -> recordedName (Text.trim line) = None.
Proof.
  unfold skipped, recordedName, Text.startsWith. intros H.
  destruct (Text.trim line) as [|c rest]; [done|].
  change "optional " with (String "o" "ptional "). rewrite prefix_cons.
  destruct (ascii_dec "o" c) as [<-|]; [|done].
  vm_compute in H. discriminate.
Qed.

Lemma scan_lines_app l1 l2 st :
  fold_left Scanner.scanLine (l1 ++ l2) st
  = fold_left Scanner.scanLine l2 (fold_left Scanner.scanLine l1 st).
Proof. apply fold_left_app. Qed.

Lemma quiet_scanLine st line :
  quiet line ->
  Scanner.messageStack (Scanner.scanLine st line) = Scanner.messageStack st
  /\ Scanner.explicitOptionalFields (Scanner.scanLine st line)
     = match recordedName (Text.trim line) with
       | Some fieldName =>
           {[ qualify (Scanner.messageStack st) fieldName ]} ∪ Scanner.explicitOptionalFields st
       | None => Scanner.explicitOptionalFields st
       end.
Proof.
  intros [Hclose Hmsg].
  destruct (skipped line) eqn:Hskip.
  { rewrite (skipped_scanLine _ _ Hskip), (skipped_records_nothing _ Hskip). done. }
  unfold Scanner.scanLine, skipped in *. cbv zeta. rewrite Hskip, Hmsg, Hclose.
  simpl. unfold recordedName, qualify.
  by destruct (Text.startsWith (Text.trim line) "optional "),
       (Text.fieldMatch (Text.trim line)).
Qed.

Lemma append_assoc (a b c : string) : (a +:+ b) +:+ c = a +:+ (b +:+ c).
Proof.
  induction a as [|x a IH]; [done|].
  change (String x a +:+ b) with (String x (a +:+ b)).
  change (String x (a +:+ b) +:+ c) with (String x ((a +:+ b) +:+ c)).
  by rewrite IH.
Qed.

Lemma scanLine_grows st line :
  Scanner.explicitOptionalFields st ⊆ Scanner.explicitOptionalFields (Scanner.scanLine st line).
Proof.
  unfold Scanner.scanLine. cbv zeta.
  destruct (Text.startsWith (Text.trim line) "//" || String.eqb (Text.trim line) "")%bool;
    [done|].
  cbn [Scanner.explicitOptionalFields].
  destruct (Text.startsWith (Text.trim line) "optional "); [|done].
  destruct (Text.fieldMatch (Text.trim line)); [|done].
  apply union_subseteq_r.
Qed.

Lemma scan_grows lines : forall st,
  Scanner.explicitOptionalFields st
    ⊆ Scanner.explicitOptionalFields (fold_left Scanner.scanLine lines st).
Proof.
  induction lines as [|line lines IH]; intros st; [done|]. simpl.
  etrans; [apply scanLine_grows|apply IH].
Qed.

Lemma dotted_last prefix middle last :
  dotted prefix (middle +:+ "." +:+ last) = dotted prefix middle +:+ "." +:+ last.
Proof.
  unfold dotted. destruct (String.eqb prefix ""); [done|]. by rewrite !append_assoc.
Qed.

(** A field line read while the stack of open messages spells a chain of
    names is recorded under that chain, and stays recorded. *)
Lemma scan_records_under_the_stack protoContent before line after fieldName :
  Text.split "010" protoContent = before ++ line :: after ->
  quiet line ->
  recordedName (Text.trim line) = Some fieldName ->
  Scanner.messageStack (fold_left Scanner.scanLine before Scanner.initial) ≠ [] ->
  String.concat "." (Scanner.messageStack (fold_left Scanner.scanLine before Scanner.initial))
    +:+ "." +:+ fieldName ∈ parseExplicitOptionalFields protoContent.
Proof.
  intros Hlines Hquiet Hname Hstack.
  unfold parseExplicitOptionalFields, Scanner.scan. rewrite Hlines, scan_lines_app.
  simpl fold_left. apply (scan_grows after).
  destruct (quiet_scanLine (fold_left Scanner.scanLine before Scanner.initial) line Hquiet)
    as [_ ->].
  rewrite Hname. apply elem_of_union_l, elem_of_singleton. unfold qualify.
  destruct (Scanner.messageStack (fold_left Scanner.scanLine before Scanner.initial));
    [done|reflexivity].
Qed.

(** Whatever set the extractor is given: when it holds the chain of message
    names walked down to [inner], followed by the name of [x], every field
    of [outer] that leads into [inner] has its own path to [x] listed. *)
Lemma chain_key_lists_both s explicitOptionalFields fuel
    request outer inner fp tp a b x :
  walks s request "" "" outer fp tp ->
  a ∈ fieldsArray (typeOf s outer) ->
  b ∈ fieldsArray (typeOf s outer) ->
  extractTarget s outer a = Some inner ->
  extractTarget s outer b = Some inner ->
  x ∈ fieldsArray (typeOf s inner) ->
  dotted (dotted tp (tname (typeOf s outer))) (tname (typeOf s inner) +:+ "." +:+ name x)
    ∈ explicitOptionalFields ->
  (forall optionalFields,
     getOptionalFieldsFromTypeWithExplicit s explicitOptionalFields fuel request
       = Ok optionalFields ->
     dotted (dotted fp (name a)) (name x) ∈ optionalFields
     /\ dotted (dotted fp (name b)) (name x) ∈ optionalFields)
  /\ (forall rank, ranked (extractEdge s) rank -> rank request < fuel ->
        exists optionalFields,
          getOptionalFieldsFromTypeWithExplicit s explicitOptionalFields fuel request
            = Ok optionalFields
          /\ dotted (dotted fp (name a)) (name x) ∈ optionalFields
          /\ dotted (dotted fp (name b)) (name x) ∈ optionalFields).
Proof.
  intros Hwalk Ha Hb Hta Htb Hx Hkey.
  assert (Hlisted : forall optionalFields,
    getOptionalFieldsFromTypeWithExplicit s explicitOptionalFields fuel request
      = Ok optionalFields ->
    dotted (dotted fp (name a)) (name x) ∈ optionalFields
    /\ dotted (dotted fp (name b)) (name x) ∈ optionalFields).
  { intros l Hl. unfold getOptionalFieldsFromTypeWithExplicit in Hl.
    assert (Hvia : forall f, f ∈ fieldsArray (typeOf s outer) ->
      extractTarget s outer f = Some inner -> dotted (dotted fp (name f)) (name x) ∈ l).
    { intros f Hf Htf.
      assert (Hwalk' : walks s outer fp tp inner (dotted fp (name f))
                         (dotted tp (tname (typeOf s outer)))).
      { eapply walks_step; [exact Hf|exact Htf|apply walks_here]. }
      destruct (walks_included s explicitOptionalFields _ _ _ _ _ _ Hwalk _ _ _ Hl)
        as (fuel1 & acc1 & l1 & Hl1 & Hpre1).
      destruct (walks_included s explicitOptionalFields _ _ _ _ _ _ Hwalk' _ _ _ Hl1)
        as (fuel2 & acc2 & l2 & Hl2 & Hpre2).
      eapply prefix_member; [exact Hpre1|]. eapply prefix_member; [exact Hpre2|].
      by eapply extract_lists_field. }
    split; by apply Hvia. }
  split; [done|]. intros rank Hrank Hlt.
  destruct (extract_terminates s explicitOptionalFields rank Hrank fuel request Hlt "" "" [])
    as [l Hl].
  exists l. split; [done|]. by apply Hlisted.
Qed.

(** C3, as the code has it.  The key the extractor looks up for a field is
    the chain of message names it walked from the request type; the key the
    scanner records is the stack of message headers open at the field's
    line.  When the line that declares [x] is read while that stack spells
    the chain walked down to [inner], every field of [outer] that leads into
    [inner] has its own path to [x] in the list made from the scanned
    source, for whatever request type the walk started from; and the list is
    produced when the message graph has no cycle. *)
Theorem embedded_twice_both_listed s fuel protoContent before line after
    request outer inner fp tp a b x :
  walks s request "" "" outer fp tp ->
  a ∈ fieldsArray (typeOf s outer) ->
  b ∈ fieldsArray (typeOf s outer) ->
  extractTarget s outer a = Some inner ->
  extractTarget s outer b = Some inner ->
  x ∈ fieldsArray (typeOf s inner) ->
  Text.split "010" protoContent = before ++ line :: after ->
  quiet line ->
  recordedName (Text.trim line) = Some (name x) ->
  Scanner.messageStack (fold_left Scanner.scanLine before Scanner.initial) ≠ [] ->
  String.concat "." (Scanner.messageStack (fold_left Scanner.scanLine before Scanner.initial))
    = dotted (dotted tp (tname (typeOf s outer))) (tname (typeOf s inner)) ->
  (forall optionalFields,
     getOptionalFieldsFromTypeWithExplicit s (parseExplicitOptionalFields protoContent)
       fuel request = Ok optionalFields ->
     dotted (dotted fp (name a)) (name x) ∈ optionalFields
     /\ dotted (dotted fp (name b)) (name x) ∈ optionalFields)
  /\ (forall rank, ranked (extractEdge s) rank -> rank request < fuel ->
        exists optionalFields,
          getOptionalFieldsFromTypeWithExplicit s (parseExplicitOptionalFields protoContent)
            fuel request = Ok optionalFields
          /\ dotted (dotted fp (name a)) (name x) ∈ optionalFields
          /\ dotted (dotted fp (name b)) (name x) ∈ optionalFields).
Proof.
  intros Hwalk Ha Hb Hta Htb Hx Hlines Hquiet Hname Hstack Hchain.
  apply (chain_key_lists_both s _ fuel request outer inner fp tp a b x); try done.
  rewrite dotted_last, <- Hchain.
  by apply (scan_records_under_the_stack protoContent before line after).
Qed.

(** ** Dotted paths *)

Lemma split_nonempty sep str : Text.split sep str ≠ [].
Proof.
  destruct str as [|c rest]; simpl; [done|].
  destruct (Ascii.eqb c sep); [done|]. by destruct (Text.split sep rest).
Qed.

Lemma split_no_separator sep str : Text.count sep str = 0 -> Text.split sep str = [str].
Proof.
  induction str as [|c rest IH]; simpl; [done|].
  rewrite (Ascii.eqb_sym c sep). destruct (Ascii.eqb sep c); [done|].
  intros H. by rewrite IH.
Qed.

Lemma split_app sep a b :
  Text.split sep (a +:+ String sep b) = Text.split sep a ++ Text.split sep b.
Proof.
  induction a as [|c a IH].
  - change ("" +:+ String sep b) with (String sep b). simpl.
    by rewrite Ascii.eqb_refl.
  - change (String c a +:+ String sep b) with (String c (a +:+ String sep b)).
    simpl. rewrite IH. destruct (Ascii.eqb c sep); [done|].
    pose proof (split_nonempty sep a). by destruct (Text.split sep a).
Qed.

Lemma dotted_nonempty prefix last : prefix ≠ "" -> dotted prefix last ≠ "".
Proof.
  intros H. unfold dotted. rewrite (proj2 (String.eqb_neq _ _) H).
  by destruct prefix.
Qed.

Lemma split_dotted prefix last :
  prefix ≠ "" -> goodName last ->
  Text.split "." (dotted prefix last) = Text.split "." prefix ++ [last].
Proof.
  intros H [_ Hdot]. unfold dotted. rewrite (proj2 (String.eqb_neq _ _) H).
  change ("." +:+ last) with (String "." last).
  by rewrite split_app, (split_no_separator _ last).
Qed.

Lemma split_joinFrom segments : forall prefix,
  prefix ≠ "" -> Forall goodName segments ->
  Text.split "." (joinFrom prefix segments) = Text.split "." prefix ++ segments.
Proof.
  induction segments as [|a rest IH]; intros prefix Hp Hgood; simpl.
  - by rewrite app_nil_r.
  - apply Forall_cons in Hgood as [Ha Hrest]. unfold joinFrom in *. simpl.
    rewrite IH by auto using dotted_nonempty.
    rewrite split_dotted by done. by rewrite <- app_assoc.
Qed.

Lemma split_join_root segments :
  segments ≠ [] -> Forall goodName segments ->
  Text.split "." (joinFrom "" segments) = segments.
Proof.
  destruct segments as [|a rest]; [done|]. intros _ Hgood.
  apply Forall_cons in Hgood as [Ha Hrest].
  change (joinFrom "" (a :: rest)) with (joinFrom a rest).
  rewrite split_joinFrom by (done || apply Ha).
  by rewrite (split_no_separator _ a) by apply Ha.
Qed.

(** ** The optional paths and the template *)

Section Subset.
Variable s : Schema.
Variable explicitOptionalFields : gset string.
Hypothesis names : wellNamed s.
Hypothesis agree : coherent s.

Lemma pushed_paths template key fp typePath acc :
  goodName key -> has_path template [key] = true ->
  exists paths,
    pushed explicitOptionalFields typePath (dotted fp key) acc = acc ++ map (joinFrom fp) paths
    /\ Forall (goodSegments template) paths.
Proof.
  intros Hkey Hpath. unfold pushed. case_bool_decide.
  - exists [[key]]. split; [done|]. constructor; [|constructor].
    split; [done|]. split; [|done]. by constructor.
  - exists []. split; [by rewrite app_nil_r|constructor].
Qed.

Lemma extract_paths fuel :
  forall t fp tp acc l,
    extractOptionalFieldsRecursive s explicitOptionalFields fuel t fp tp acc = Ok l ->
    forall fuel' template,
      generateEmptyJsonTemplate s fuel' t = Ok template ->
      exists paths, l = acc ++ map (joinFrom fp) paths
                    /\ Forall (goodSegments template) paths.
Proof.
  induction fuel as [|fuel IH]; intros t fp tp acc l Hl fuel' template Hgen; [done|].
  destruct fuel' as [|fuel']; [done|].
  assert (exists props, template = JObj props) as [props ->].
  { simpl in Hgen. apply bind_Ok in Hgen as (props & _ & [= <-]). eauto. }
  destruct (names t) as [Hnd Hgood]. simpl in Hl.
  assert (Hloop : forall fields acc l,
    (forall f, f ∈ fields -> f ∈ fieldsArray (typeOf s t)) ->
    foldM (extractStep s explicitOptionalFields
             (extractOptionalFieldsRecursive s explicitOptionalFields fuel) t fp tp)
      fields acc = Ok l ->
    exists paths, l = acc ++ map (joinFrom fp) paths
                  /\ Forall (goodSegments (JObj props)) paths).
  { clear Hl acc l. induction fields as [|f fields IHf]; intros acc l Hsub Hl.
    - injection Hl as <-. exists []. split; [by rewrite app_nil_r|constructor].
    - apply foldM_cons_Ok in Hl as (acc1 & Hstep & Hfold).
      assert (Hf : f ∈ fieldsArray (typeOf s t)) by (apply Hsub; left).
      destruct (generated_field s fuel' t f props Hgen Hnd Hf) as (v & Hv & Hget).
      assert (Hname : goodName (name f)).
      { by apply (proj1 (Forall_forall _ _) Hgood). }
      destruct (pushed_paths (JObj props) (name f) fp
                  (dotted tp (tname (typeOf s t) +:+ "." +:+ name f)) acc Hname)
        as (p0 & Hp0 & Hgood0).
      { simpl. by rewrite Hget. }
      rewrite extractStep_target in Hstep by apply extract_no_throw. simpl in Hstep.
      rewrite Hp0 in Hstep.
      assert (exists p1, acc1 = acc ++ map (joinFrom fp) p1
                         /\ Forall (goodSegments (JObj props)) p1) as (p1 & -> & Hgood1).
      { destruct (extractTarget s t f) as [t'|] eqn:Ht.
        - destruct (agree t f t' Hf Ht) as [Hsingular Hres].
          rewrite singular_value in Hget by done.
          rewrite (getEmptyValueForType_descend _ _ _ _ _ Hres) in Hv.
          destruct (IH _ _ _ _ _ Hstep _ _ Hv) as (p' & -> & Hgood').
          exists (p0 ++ map (cons (name f)) p'). split.
          + rewrite map_app, map_map, <- app_assoc. done.
          + apply Forall_app. split; [done|]. apply Forall_forall.
            intros segs Hin. apply list_elem_of_In, in_map_iff in Hin as (segs' & <- & Hin).
            apply list_elem_of_In in Hin.
            destruct (proj1 (Forall_forall _ _) Hgood' segs' Hin) as (_ & Hn' & Hp').
            split; [done|]. split; [by constructor|]. simpl. by rewrite Hget.
        - injection Hstep as <-. eauto. }
      destruct (IHf _ _ (fun g Hg => Hsub g (list_elem_of_further g f fields Hg)) Hfold)
        as (p2 & -> & Hgood2).
      exists (p1 ++ p2). split.
      + by rewrite map_app, app_assoc.
      + by apply Forall_app. }
  by apply (Hloop _ acc l (fun f Hf => Hf)).
Qed.
End Subset.


(** ** The scanner's stack *)

Lemma popIfAny_take stack : Scanner.popIfAny stack = take (length stack - 1) stack.
Proof.
  destruct stack as [|x stack]; [done|]. unfold Scanner.popIfAny.
  generalize (x :: stack). clear. intros l.
  induction l as [|a [|b l] IH]; [done|done|].
  change (removelast (a :: b :: l)) with (a :: removelast (b :: l)).
  rewrite IH. simpl. by rewrite Nat.sub_0_r.
Qed.

Lemma popLoop_take closeBraces stack :
  Scanner.popLoop closeBraces stack = take (length stack - closeBraces) stack.
Proof.
  unfold Scanner.popLoop. induction closeBraces as [|n IH]; simpl.
  - by rewrite Nat.sub_0_r, firstn_all.
  - rewrite IH, popIfAny_take, length_take, take_take. f_equal. lia.
Qed.

Lemma count_app c a b : Text.count c (a +:+ b) = Text.count c a + Text.count c b.
Proof.
  induction a as [|d a IH]; [done|].
  change (String d a +:+ b) with (String d (a +:+ b)). simpl. rewrite IH. lia.
Qed.

Lemma typePath_has_dot typePrefix typeName fieldName :
  Text.count "." (dotted typePrefix (typeName +:+ "." +:+ fieldName)) ≠ 0.
Proof.
  unfold dotted. destruct (String.eqb typePrefix "").
  - rewrite !count_app. simpl. lia.
  - rewrite !count_app. simpl. lia.
Qed.

(** C10. Every closing brace of a line pops the stack of open messages while
    it is not empty, whatever block the brace closes; so an optional field
    that follows an enum block inside its message is recorded without the
    message name, under a key the extractor never looks up. *)
Theorem closing_brace_always_pops :
  (forall st line,
     Scanner.messageStack (Scanner.scanLine st line) =
     let trimmedLine := Text.trim line in
     if (Text.startsWith trimmedLine "//" || String.eqb trimmedLine "")%bool
     then Scanner.messageStack st
     else
       let opened :=
         match Text.messageMatch trimmedLine with
         | Some messageName => Scanner.messageStack st ++ [messageName]
         | None => Scanner.messageStack st
         end in
       take (length opened - Text.count "}" line) opened)
  /\ parseExplicitOptionalFields Examples.enumThenOptionalSource = {[ "x" ]}
  /\ (forall typePrefix typeName fieldName,
        dotted typePrefix (typeName +:+ "." +:+ fieldName)
          ∉ parseExplicitOptionalFields Examples.enumThenOptionalSource)
  /\ getOptionalFieldsFromTypeWithExplicit Examples.enumThenOptionalSchema
       (parseExplicitOptionalFields Examples.enumThenOptionalSource) 1 0 = Ok [].
Proof.
  assert (Hscan : parseExplicitOptionalFields Examples.enumThenOptionalSource = {[ "x" ]})
    by (vm_compute; reflexivity).
  split; [|split; [exact Hscan|split]].
  - intros st line. unfold Scanner.scanLine. cbv zeta.
    destruct (Text.startsWith (Text.trim line) "//" || String.eqb (Text.trim line) "")%bool;
      [done|].
    cbn [Scanner.messageStack]. rewrite popLoop_take.
    destruct (Nat.ltb_spec 0 (Text.count "}" line)) as [Hc|Hc];
      [destruct (Nat.ltb_spec 0 (length
         match Text.messageMatch (Text.trim line) with
         | Some messageName => Scanner.messageStack st ++ [messageName]
         | None => Scanner.messageStack st
         end)) as [Hs|Hs]|]; cbn [andb]; try done.
    + symmetry. apply take_ge. lia.
    + replace (Text.count "}" line) with 0 by lia.
      by rewrite Nat.sub_0_r, firstn_all.
  - intros typePrefix typeName fieldName. rewrite Hscan, elem_of_singleton. intros Heq.
    apply (typePath_has_dot typePrefix typeName fieldName). by rewrite Heq.
  - rewrite Hscan. vm_compute. reflexivity.
Qed.

(** ** Worked schemas, evaluated *)

Example template_of_M :
  generateEmptyJsonTemplate Examples.catalogSchema 2 0 =
  Ok (JObj [("name", JStr ""); ("age", JNum 0); ("tags", JArr []);
            ("favorite", JStr "RED"); ("items", JArr []); ("palette", JArr []);
            ("ghosts", JArr []); ("gone", JStr "")]).
Proof. reflexivity. Qed.

Example template_of_Event :
  generateEmptyJsonTemplate Examples.eventSchema 2 1 =
  Ok (JObj [("at", JStr ""); ("seen", JObj [("seconds", JNum 0)])]).
Proof. reflexivity. Qed.

Lemma catalog_fields_yield g :
  g ∈ fieldsArray (typeOf Examples.catalogSchema 0) ->
  exists w, getEmptyValueForType Examples.catalogSchema 1 (type g) 0 = Ok w.
Proof. intros Hg. enumerate_fields Hg; eexists; vm_compute; reflexivity. Qed.

Lemma repeated_field_witness :
  exists template,
    generateEmptyJsonTemplate Examples.catalogSchema 2 0 = Ok (JObj template)
    /\ obj_get "items" template = Some (JArr []).
Proof.
  apply (proj2 (repeated_field_is_empty_array Examples.catalogSchema 1 0
                  (Examples.field "items" "Item" RuleRepeated)
                  ltac:(by_membership) ltac:(by_evaluation) eq_refl)).
  apply catalog_fields_yield.
Defined.

Lemma order_resolves_to_enum :
  resolvesToEnum Examples.orderSchema 0 "Order" Examples.Order.
Proof.
  split; [split; [reflexivity|discriminate]|].
  right. split; [by left|]. split; [reflexivity|]. by left.
Qed.

Lemma enum_default_witness :
  getEmptyValueForType Examples.orderSchema 1 "Order" 0 = Ok (JStr "B")
  /\ exists template,
       generateEmptyJsonTemplate Examples.orderSchema 2 0 = Ok (JObj template)
       /\ obj_get "o" template = Some (JStr "B").
Proof.
  destruct (enum_default_is_first_declared Examples.orderSchema 1 0
              (Examples.field "o" "Order" RuleNone) Examples.Order "B" 0%Z [("A", 1%Z)]
              ltac:(by_membership) ltac:(by_evaluation) ltac:(discriminate)
              order_resolves_to_enum eq_refl) as (Hvalue & _ & Hproduced).
  split; [exact Hvalue|]. apply Hproduced.
  intros g Hg. enumerate_fields Hg. eexists. vm_compute. reflexivity.
Defined.

Lemma missing_is_unresolvable : unresolvable Examples.catalogSchema 0 "Missing".
Proof. repeat split; try reflexivity; try discriminate. by left. Qed.

Lemma primitive_defaults_witness :
  (getEmptyValueForType Examples.catalogSchema 1 "int32" 0 = Ok (JNum 0)
   /\ exists template,
        generateEmptyJsonTemplate Examples.catalogSchema 2 0 = Ok (JObj template)
        /\ obj_get "age" template = Some (JNum 0))
  /\ (getEmptyValueForType Examples.catalogSchema 1 "Missing" 0 = Ok (JStr "")
      /\ exists template,
           generateEmptyJsonTemplate Examples.catalogSchema 2 0 = Ok (JObj template)
           /\ obj_get "gone" template = Some (JStr "")).
Proof.
  split.
  - destruct (primitive_defaults_and_totality Examples.catalogSchema 1 0
                (Examples.field "age" "int32" RuleOptional) (JNum 0)
                ltac:(by_membership) ltac:(by_evaluation) ltac:(discriminate)
                (or_introl eq_refl)) as (Hvalue & _ & _ & Hproduced).
    split; [exact Hvalue|]. apply Hproduced, catalog_fields_yield.
  - destruct (primitive_defaults_and_totality Examples.catalogSchema 1 0
                (Examples.field "gone" "Missing" RuleNone) (JStr "")
                ltac:(by_membership) ltac:(by_evaluation) ltac:(discriminate)
                (or_intror (conj missing_is_unresolvable eq_refl)))
      as (Hvalue & _ & _ & Hproduced).
    split; [exact Hvalue|]. apply Hproduced, catalog_fields_yield.
Defined.

Lemma rooted_spelling_resolves :
  resolvesToType Examples.eventSchema 1 ".google.protobuf.Timestamp" 0.
Proof.
  split; [split; [reflexivity|discriminate]|].
  right. split; [by left|]. by left.
Qed.

Lemma timestamp_witness :
  getEmptyValueForType Examples.eventSchema 2 "google.protobuf.Timestamp" 1 = Ok (JStr "")
  /\ getEmptyValueForType Examples.eventSchema 2 ".google.protobuf.Timestamp" 1 =
     Ok (JObj [("seconds", JNum 0)]).
Proof.
  destruct (timestamp_depends_on_spelling Examples.eventSchema 1 1
              ".google.protobuf.Timestamp" 0 rooted_spelling_resolves eq_refl)
    as (Hexact & Hother & _).
  split; [apply Hexact|exact Hother].
Defined.

Example visitOrder_of_catalogRoot :
  visitOrder Examples.catalogRoot =
  [("Get", Examples.rpc "M" "M"); ("Lost", Examples.rpc "Nowhere" "M");
   ("Get", Examples.rpc "Item" "Item")].
Proof. reflexivity. Qed.

Lemma catalog_methods_yield (entry : string * Method) t :
  entry ∈ [("Get", Examples.rpc "M" "M")] ++ [("Get", Examples.rpc "Item" "Item")] ->
  lookupType Examples.catalogSchema (requestType entry.2) = Some t ->
  (exists template, generateEmptyJsonTemplate Examples.catalogSchema 2 t = Ok template)
  /\ (exists optionalFields,
        getOptionalFieldsFromTypeWithExplicit Examples.catalogSchema
          (parseExplicitOptionalFields Examples.catalogSource) 2 t = Ok optionalFields).
Proof.
  intros Hin Ht. enumerate_fields Hin; vm_compute in Ht; injection Ht as <-;
    split; eexists; vm_compute; reflexivity.
Qed.

Lemma unresolvable_method_witness :
  exists methodMap optionalFieldsMap,
    parseProtoContent Examples.catalogSchema 2 Examples.catalogRoot = Ok methodMap
    /\ getOptionalFieldsMap Examples.catalogSchema 2 Examples.catalogSource
         Examples.catalogRoot = Ok optionalFieldsMap
    /\ methodMap !! "Lost" = Some (JObj [])
    /\ optionalFieldsMap !! "Lost" = Some []
    /\ methodMap !! "Get" = Some (JObj [("id", JStr "")])
    /\ optionalFieldsMap !! "Get" = Some [].
Proof.
  destruct (unresolvable_method_is_isolated Examples.catalogSchema 2
              Examples.catalogSource Examples.catalogRoot
              [("Get", Examples.rpc "M" "M")] "Lost" (Examples.rpc "Nowhere" "M")
              [("Get", Examples.rpc "Item" "Item")] eq_refl eq_refl catalog_methods_yield)
    as (methodMap & optionalFieldsMap & Hmap & Hopt & Hlast & Hothers).
  exists methodMap, optionalFieldsMap.
  split; [exact Hmap|]. split; [exact Hopt|].
  destruct (Hlast ltac:(by_evaluation)) as [Hlost Hnone].
  split; [exact Hlost|]. split; [exact Hnone|].
  destruct (Hothers [("Get", Examples.rpc "M" "M"); ("Lost", Examples.rpc "Nowhere" "M")]
              "Get" (Examples.rpc "Item" "Item") [] eq_refl ltac:(by_evaluation))
    as (template & optionalFields & Htemplate & Hlist & Hentry & Hentry').
  vm_compute in Htemplate. injection Htemplate as <-.
  vm_compute in Hlist. injection Hlist as <-.
  split; [exact Hentry|exact Hentry'].
Defined.

(** Counterexample to C7 as stated: the request type of [A.Get] cannot be
    looked up, yet the entry under [Get] carries neither the empty template
    nor the empty list: [B.Get], visited later, stores its own under the
    same bare name. *)
Lemma unresolvable_method_overwritten :
  visitOrder MoreExamples.shadowedRoot
    = [("Get", Examples.rpc "Nowhere" "M"); ("Get", Examples.rpc "M" "M")]
  /\ lookupType MoreExamples.shadowedSchema "Nowhere" = None
  /\ (exists methodMap,
        parseProtoContent MoreExamples.shadowedSchema 2 MoreExamples.shadowedRoot
          = Ok methodMap
        /\ methodMap !! "Get" = Some (JObj [("name", JStr ""); ("age", JNum 0)])
        /\ methodMap !! "Get" ≠ Some (JObj []))
  /\ (exists optionalFieldsMap,
        getOptionalFieldsMap MoreExamples.shadowedSchema 2 MoreExamples.shadowedSource
          MoreExamples.shadowedRoot = Ok optionalFieldsMap
        /\ optionalFieldsMap !! "Get" = Some ["age"]
        /\ optionalFieldsMap !! "Get" ≠ Some []).
Proof.
  split; [reflexivity|]. split; [reflexivity|]. split.
  - exists (<["Get" := JObj [("name", JStr ""); ("age", JNum 0)]]> ∅).
    split; [vm_compute; reflexivity|]. split; [reflexivity|discriminate].
  - exists (<["Get" := ["age"]]> ∅).
    split; [vm_compute; reflexivity|]. split; [reflexivity|discriminate].
Qed.

Example catalog_of_catalogSource :
  parseProtoContent Examples.catalogSchema 2 Examples.catalogRoot =
    Ok (<["Get" := JObj [("id", JStr "")]]> (<["Lost" := JObj []]> ∅))
  /\ getOptionalFieldsMap Examples.catalogSchema 2 Examples.catalogSource
       Examples.catalogRoot = Ok (<["Get" := []]> (<["Lost" := []]> ∅)).
Proof. split; vm_compute; reflexivity. Qed.

Lemma same_name_witness :
  exists methodMap,
    parseProtoContent Examples.catalogSchema 2 Examples.catalogRoot = Ok methodMap
    /\ length (filter (fun entry => entry.1 = "Get") (map_to_list methodMap)) = 1
    /\ methodMap !! "Get" = Some (JObj [("id", JStr "")]).
Proof.
  destruct (same_name_last_wins Examples.catalogSchema 2 Examples.catalogRoot
              [] "Get" (Examples.rpc "M" "M") [("Lost", Examples.rpc "Nowhere" "M")]
              (Examples.rpc "Item" "Item") [] eq_refl ltac:(by_evaluation))
    as [Hentry Hproduced].
  destruct Hproduced as [methodMap Hmap].
  { intros entry t Hin Ht. enumerate_fields Hin; vm_compute in Ht;
      try discriminate; injection Ht as <-; eexists; vm_compute; reflexivity. }
  exists methodMap. split; [exact Hmap|].
  destruct (Hentry methodMap Hmap) as (Hone & template & Hlook & Hgen).
  split; [exact Hone|]. rewrite Hlook. vm_compute in Hgen. by injection Hgen as <-.
Defined.

(** *** Recursion *)


Lemma catalog_template_ranked :
  ranked (templateEdge Examples.catalogSchema) Examples.catalogRank.
Proof.
  intros t t' (f & Hf & Hres). destruct t as [|[|t]];
    enumerate_fields Hf; vm_compute in Hres; try discriminate.
  injection Hres as <-. simpl. lia.
Qed.

Lemma catalog_extract_ranked :
  ranked (extractEdge Examples.catalogSchema) Examples.catalogRank.
Proof.
  intros t t' (f & Hf & Hres). destruct t as [|[|t]];
    enumerate_fields Hf; vm_compute in Hres; discriminate.
Qed.


(** *** Type-chain keys *)

Example scan_of_siblingSource :
  parseExplicitOptionalFields Examples.siblingSource = {[ "Inner.x" ]}.
Proof. vm_compute. reflexivity. Qed.

Example scan_of_nestedSource :
  parseExplicitOptionalFields Examples.nestedSource = {[ "Outer.Inner.x" ]}.
Proof. vm_compute. reflexivity. Qed.

(** Counterexample to C3 as stated: [Inner] declared next to [Outer] has its
    optional field recorded as [Inner.x], the extractor asks for
    [Outer.Inner.x] (when it descends at all), and the list for [Outer] is
    empty, whatever the fuel and whether or not the references are resolved. *)
Lemma sibling_message_not_listed :
  "Inner.x" ∈ parseExplicitOptionalFields Examples.siblingSource
  /\ getOptionalFieldsFromTypeWithExplicit (Examples.siblingSchema false)
       (parseExplicitOptionalFields Examples.siblingSource) 2 1 = Ok []
  /\ getOptionalFieldsFromTypeWithExplicit (Examples.siblingSchema true)
       (parseExplicitOptionalFields Examples.siblingSource) 2 1 = Ok []
  /\ forall resolved fuel optionalFields,
       getOptionalFieldsFromTypeWithExplicit (Examples.siblingSchema resolved)
         (parseExplicitOptionalFields Examples.siblingSource) fuel 1 = Ok optionalFields ->
       ("a.x" ∉ optionalFields) /\ ("b.x" ∉ optionalFields).
Proof.
  rewrite scan_of_siblingSource.
  split; [by apply elem_of_singleton|]. split; [vm_compute; reflexivity|].
  split; [vm_compute; reflexivity|].
  intros resolved fuel optionalFields H.
  assert (optionalFields = []) as ->.
  { destruct resolved, fuel as [|[|fuel]]; vm_compute in H; congruence. }
  split; apply not_elem_of_nil.
Qed.

Lemma nested_extract_ranked :
  ranked (extractEdge Examples.nestedSchema) Examples.nestedRank.
Proof.
  intros t t' (f & Hf & Hres). destruct t as [|[|t]];
    enumerate_fields Hf; vm_compute in Hres; try discriminate;
    injection Hres as <-; simpl; lia.
Qed.

Lemma nested_message_witness :
  exists optionalFields,
    getOptionalFieldsFromTypeWithExplicit Examples.nestedSchema
      (parseExplicitOptionalFields Examples.nestedSource) 2 0 = Ok optionalFields
    /\ "a.x" ∈ optionalFields /\ "b.x" ∈ optionalFields.
Proof.
  refine (proj2 (embedded_twice_both_listed Examples.nestedSchema 2 Examples.nestedSource
                   ["syntax = 'proto3';"; "message Outer {"; "  message Inner {"]
                   "    optional string x = 1;"
                   ["  }"; "  Inner a = 1;"; "  Inner b = 2;"; "}"; "service S {";
                    "  rpc Get(Outer) returns (Outer);"; "}"]
                   0 0 1 "" ""
                   (Examples.field "a" "Inner" RuleNone) (Examples.field "b" "Inner" RuleNone)
                   (Examples.field "x" "string" RuleOptional)
                   (walks_here _ _ _ _) ltac:(by_membership) ltac:(by_membership)
                   eq_refl eq_refl ltac:(by_membership) eq_refl (conj eq_refl eq_refl)
                   eq_refl _ eq_refl)
                Examples.nestedRank nested_extract_ranked _).
  - by_evaluation.
  - simpl. lia.
Defined.

(** *** Subset law *)


Lemma nested_wellNamed : wellNamed Examples.nestedSchema.
Proof.
  intros t. destruct t as [|[|t]]; (split; [by_evaluation|]);
    repeat constructor; done.
Qed.

Lemma nested_coherent : coherent Examples.nestedSchema.
Proof.
  intros t f t' Hf Ht. destruct t as [|[|t]];
    enumerate_fields Hf; vm_compute in Ht; try discriminate;
    injection Ht as <-; (split; [discriminate|reflexivity]).
Qed.


(** * Further properties *)

(** ** Shape of a template *)

Lemma obj_set_fresh {A} k (v : A) o : k ∉ map fst o -> obj_set k v o = o ++ [(k, v)].
Proof.
  induction o as [|[k' v'] o IH]; simpl; [done|].
  intros [Hne Hk]%not_elem_of_cons.
  rewrite (proj2 (String.eqb_neq k' k)) by congruence. by rewrite IH.
Qed.

Lemma template_keys_loop s gen messageType fields : forall template template',
  foldM (templateStep s gen messageType) fields template = Ok template' ->
  NoDup (map fst template ++ map name fields) ->
  map fst template' = map fst template ++ map name fields.
Proof.
  induction fields as [|f fields IH]; intros template template' H Hnd.
  - injection H as <-. simpl. by rewrite app_nil_r.
  - apply foldM_cons_Ok in H as (t1 & Hstep & Hfold).
    apply templateStep_Ok in Hstep as (v & _ & ->).
    simpl in Hnd. apply NoDup_app in Hnd as (Hnd1 & Hdisj & Hnd2).
    apply NoDup_cons in Hnd2 as [Hfresh Hnd2].
    assert (Hnew : name f ∉ map fst template).
    { intros Hin. apply (Hdisj _ Hin). left. }
    rewrite obj_set_fresh in Hfold by done.
    rewrite (IH _ _ Hfold).
    + rewrite map_app. simpl. by rewrite <- app_assoc.
    + rewrite map_app. simpl. rewrite <- app_assoc. simpl.
      apply NoDup_app. split; [done|]. split; [|by constructor].
      intros k Hk. apply Hdisj. done.
Qed.

(** X1. The template of a message has exactly one key per field, in the
    order the fields are declared. *)
Theorem template_keys_are_field_names s fuel t template :
  NoDup (map name (fieldsArray (typeOf s t))) ->
  generateEmptyJsonTemplate s (S fuel) t = Ok (JObj template) ->
  map fst template = map name (fieldsArray (typeOf s t)).
Proof.
  intros Hnd H. simpl in H. apply bind_Ok in H as (props & Hfold & [= ->]).
  by apply (template_keys_loop _ _ _ _ [] _ Hfold).
Qed.

Lemma template_keys_witness :
  map fst [("a", JObj [("x", JStr "")]); ("b", JObj [("x", JStr "")])] = ["a"; "b"].
Proof.
  exact (template_keys_are_field_names Examples.nestedSchema 1 0 _
           ltac:(by_evaluation) eq_refl).
Defined.

(** X2. A singular field whose type resolves to a message holds the template
    of that message, generated with the fuel that is left, as its value; a
    type nested in the current message is taken before any global one. *)
Theorem message_field_holds_nested_template s fuel t f t' template :
  f ∈ fieldsArray (typeOf s t) ->
  NoDup (map name (fieldsArray (typeOf s t))) ->
  rule f ≠ RuleRepeated ->
  resolvesToType s t (type f) t' ->
  generateEmptyJsonTemplate s (S fuel) t = Ok (JObj template) ->
  exists nestedTemplate,
    generateEmptyJsonTemplate s fuel t' = Ok nestedTemplate
    /\ obj_get (name f) template = Some nestedTemplate.
Proof.
  intros Hin Hnd Hrule Hres Hgen.
  destruct (generated_field s fuel t f template Hgen Hnd Hin) as (v & Hv & Hget).
  rewrite singular_value in Hget by done.
  rewrite (getEmptyValueForType_descend _ _ _ _ _ (resolve_type _ _ _ _ Hres)) in Hv.
  eauto.
Qed.

Lemma inner_resolves_nested : resolvesToType Examples.nestedSchema 0 "Inner" 1.
Proof. split; [split; [reflexivity|discriminate]|]. by left. Qed.

Lemma message_field_witness :
  exists nestedTemplate,
    generateEmptyJsonTemplate Examples.nestedSchema 1 1 = Ok nestedTemplate
    /\ obj_get "b" [("a", JObj [("x", JStr "")]); ("b", JObj [("x", JStr "")])]
       = Some nestedTemplate.
Proof.
  exact (message_field_holds_nested_template Examples.nestedSchema 1 0
           (Examples.field "b" "Inner" RuleNone) 1 _
           ltac:(by_membership) ltac:(by_evaluation) ltac:(discriminate)
           inner_resolves_nested eq_refl).
Defined.

(** X3. An enum that declares no value gives the empty string. *)
Theorem enum_without_values_is_empty_string s fuel t fieldType e :
  resolvesToEnum s t fieldType e ->
  values e = [] ->
  getEmptyValueForType s fuel fieldType t = Ok (JStr "").
Proof.
  intros Hres Hvals. apply getEmptyValueForType_value.
  rewrite (resolve_enum _ _ _ _ Hres). unfold firstEnumValue. by rewrite Hvals.
Qed.

Lemma nothing_resolves_to_enum :
  resolvesToEnum MoreExamples.emptyEnumSchema 0 "Nothing" MoreExamples.Nothing.
Proof. split; [split; [reflexivity|discriminate]|]. by left. Qed.

Lemma enum_without_values_witness :
  getEmptyValueForType MoreExamples.emptyEnumSchema 0 "Nothing" 0 = Ok (JStr "").
Proof.
  exact (enum_without_values_is_empty_string MoreExamples.emptyEnumSchema 0 0 "Nothing"
           MoreExamples.Nothing nothing_resolves_to_enum eq_refl).
Defined.

(** ** Sources without the optional keyword *)

Lemma scanLine_records_only_optional st line :
  Text.startsWith (Text.trim line) "optional " = false ->
  Scanner.explicitOptionalFields (Scanner.scanLine st line) = Scanner.explicitOptionalFields st.
Proof.
  intros H. unfold Scanner.scanLine. cbv zeta. rewrite H.
  by destruct (Text.startsWith (Text.trim line) "//" || String.eqb (Text.trim line) "")%bool.
Qed.

Lemma scan_without_optional lines : forall st,
  Forall (fun line => Text.startsWith (Text.trim line) "optional " = false) lines ->
  Scanner.explicitOptionalFields (fold_left Scanner.scanLine lines st)
  = Scanner.explicitOptionalFields st.
Proof.
  induction lines as [|line lines IH]; intros st Hall; [done|].
  apply Forall_cons in Hall as [Hline Hall]. simpl.
  rewrite IH by done. by apply scanLine_records_only_optional.
Qed.

Lemma extract_nothing_explicit s fuel : forall t fp tp acc l,
  extractOptionalFieldsRecursive s ∅ fuel t fp tp acc = Ok l -> l = acc.
Proof.
  induction fuel as [|fuel IH]; intros t fp tp acc l H; [done|]. simpl in H.
  revert acc H. induction (fieldsArray (typeOf s t)) as [|f fields IHf]; intros acc H.
  - by injection H as <-.
  - apply foldM_cons_Ok in H as (acc1 & Hstep & Hfold).
    rewrite extractStep_target in Hstep by apply extract_no_throw.
    unfold pushed in Hstep. rewrite bool_decide_false in Hstep by apply not_elem_of_empty.
    simpl in Hstep. rewrite (IHf _ Hfold).
    destruct (extractTarget s t f); [by apply IH in Hstep|by injection Hstep as <-].
Qed.

(** An invariant of the catalog: what holds of the fallback and of every
    computed value holds of every entry. *)
Lemma store_invariant {V} (P : V -> Prop) s (compute : TypeId -> result V) fallback l :
  never_throws compute ->
  P fallback ->
  (forall t v, compute t = Ok v -> P v) ->
  forall methodMap methodMap',
    foldM (storeMethod s compute fallback) l methodMap = Ok methodMap' ->
    (forall k v, methodMap !! k = Some v -> P v) ->
    forall k v, methodMap' !! k = Some v -> P v.
Proof.
  intros Hno Hfallback Hcompute. induction l as [|[n x] l IH]; intros m m' H Hm.
  - by injection H as <-.
  - apply foldM_cons_Ok in H as (m1 & Hstep & Hfold).
    apply (storeMethod_Ok s compute fallback Hno) in Hstep as (c & Hc & ->).
    apply (IH _ _ Hfold). intros k v. simpl.
    destruct (decide (n = k)) as [->|Hne].
    + rewrite lookup_insert_eq. intros [= <-]. unfold storedFor in Hc. simpl in Hc.
      destruct (lookupType s (requestType x)); [eauto|by injection Hc as <-].
    + rewrite lookup_insert_ne by done. apply Hm.
Qed.

(** X4. When no line of the source begins (after trimming) with the keyword
    [optional] followed by a space, every method's list of optional fields is
    empty. *)
Theorem no_optional_keyword_no_optional_fields s fuel protoContent root optionalFieldsMap :
  Forall (fun line => Text.startsWith (Text.trim line) "optional " = false)
    (Text.split "010" protoContent) ->
  getOptionalFieldsMap s fuel protoContent root = Ok optionalFieldsMap ->
  forall methodName optionalFields,
    optionalFieldsMap !! methodName = Some optionalFields -> optionalFields = [].
Proof.
  intros Hlines Hmap.
  assert (Hscan : parseExplicitOptionalFields protoContent = ∅).
  { unfold parseExplicitOptionalFields, Scanner.scan. by rewrite scan_without_optional. }
  unfold getOptionalFieldsMap, extractOptionalFields in Hmap. cbv zeta in Hmap.
  rewrite Hscan, walkNamespace_visitOrder in Hmap.
  apply (store_invariant (fun l => l = []) s _ [] (visitOrder root)
           (getOptionalFields_no_throw s ∅ fuel) eq_refl) with (methodMap := ∅); [|done|].
  - intros t v Hv. by apply extract_nothing_explicit in Hv.
  - intros k v. by rewrite lookup_empty.
Qed.

Lemma no_optional_keyword_witness :
  getOptionalFieldsMap Examples.nodeSchema 1 Examples.nodeSource MoreExamples.nodeRoot
  = Ok (<["Get" := []]> ∅)
  /\ (<["Get" := []]> (∅ : gmap string (list string))) !! "Get" = Some [].
Proof.
  assert (Hmap : getOptionalFieldsMap Examples.nodeSchema 1 Examples.nodeSource
                   MoreExamples.nodeRoot = Ok (<["Get" := []]> ∅))
    by (vm_compute; reflexivity).
  split; [exact Hmap|].
  destruct ((<["Get" := []]> (∅ : gmap string (list string))) !! "Get")
    as [optionalFields|] eqn:Hget; [|by vm_compute in Hget].
  f_equal.
  apply (no_optional_keyword_no_optional_fields Examples.nodeSchema 1 Examples.nodeSource
           MoreExamples.nodeRoot (<["Get" := []]> ∅)
           ltac:(by_evaluation) Hmap "Get" optionalFields Hget).
Defined.

(** ** No path is listed twice *)

Section Distinct.
Variable s : Schema.
Variable explicitOptionalFields : gset string.
Hypothesis names : wellNamed s.

Lemma pushed_segments key fp typePath acc :
  exists paths,
    pushed explicitOptionalFields typePath (dotted fp key) acc = acc ++ map (joinFrom fp) paths
    /\ (paths = [] \/ paths = [[key]]).
Proof.
  unfold pushed. case_bool_decide.
  - exists [[key]]. split; [done|by right].
  - exists []. split; [by rewrite app_nil_r|by left].
Qed.

Lemma extract_segments fuel :
  forall t fp tp acc l,
    extractOptionalFieldsRecursive s explicitOptionalFields fuel t fp tp acc = Ok l ->
    exists paths, l = acc ++ map (joinFrom fp) paths
                  /\ NoDup paths
                  /\ Forall (segmentsFrom (map name (fieldsArray (typeOf s t)))) paths.
Proof.
  induction fuel as [|fuel IH]; intros t fp tp acc l Hl; [done|].
  destruct (names t) as [Hnd Hgood]. simpl in Hl.
  revert acc l Hl Hnd Hgood.
  induction (fieldsArray (typeOf s t)) as [|f fields IHf]; intros acc l Hl Hnd Hgood.
  - injection Hl as <-. exists []. split; [by rewrite app_nil_r|].
    split; constructor.
  - apply foldM_cons_Ok in Hl as (acc1 & Hstep & Hfold).
    simpl in Hnd. apply NoDup_cons in Hnd as [Hfresh Hnd].
    apply Forall_cons in Hgood as [Hname Hgood].
    destruct (pushed_segments (name f) fp
                (dotted tp (tname (typeOf s t) +:+ "." +:+ name f)) acc)
      as (p0 & Hp0 & Hcase).
    rewrite extractStep_target in Hstep by apply extract_no_throw. simpl in Hstep.
    rewrite Hp0 in Hstep.
    assert (exists p1, acc1 = acc ++ map (joinFrom fp) p1 /\ NoDup p1
                       /\ Forall (fun segs => Forall goodName segs
                                   /\ exists rest, segs = name f :: rest) p1)
      as (p1 & -> & Hnd1 & Hhead1).
    { assert (Hp0ok : NoDup p0 /\ Forall (fun segs => Forall goodName segs
                                          /\ exists rest, segs = name f :: rest) p0).
      { destruct Hcase as [->| ->]; split; try constructor; try constructor.
        - apply not_elem_of_nil.
        - by constructor.
        - by exists []. }
      destruct Hp0ok as [Hnd0 Hhead0].
      destruct (extractTarget s t f) as [t'|] eqn:Ht.
      - destruct (IH _ _ _ _ _ Hstep) as (p' & -> & Hnd' & Hseg').
        exists (p0 ++ map (cons (name f)) p'). split; [|split].
        + by rewrite map_app, map_map, <- app_assoc.
        + apply NoDup_app. split; [done|]. split.
          * intros segs Hin0 Hin'.
            apply list_elem_of_In, in_map_iff in Hin' as (segs' & <- & Hin').
            apply list_elem_of_In in Hin'.
            destruct (proj1 (Forall_forall _ _) Hseg' segs' Hin')
              as (_ & first & rest & -> & _).
            destruct Hcase as [->| ->]; [by apply elem_of_nil in Hin0|].
            by apply list_elem_of_singleton in Hin0.
          * change (map (cons (name f)) p') with (cons (name f) <$> p').
            apply NoDup_fmap_2_strong; [|done]. by intros x y _ _ [= ->].
        + apply Forall_app. split; [done|]. apply Forall_forall. intros segs Hin.
          apply list_elem_of_In, in_map_iff in Hin as (segs' & <- & Hin).
          apply list_elem_of_In in Hin.
          destruct (proj1 (Forall_forall _ _) Hseg' segs' Hin) as (Hg & _).
          split; [by constructor|eauto].
      - injection Hstep as <-. eauto. }
    destruct (IHf _ _ Hfold Hnd Hgood) as (p2 & -> & Hnd2 & Hseg2).
    exists (p1 ++ p2). split; [by rewrite map_app, app_assoc|]. split.
    + apply NoDup_app. split; [done|]. split; [|done].
      intros segs Hin1 Hin2.
      destruct (proj1 (Forall_forall _ _) Hhead1 segs Hin1) as (_ & rest & ->).
      destruct (proj1 (Forall_forall _ _) Hseg2 _ Hin2)
        as (_ & first & rest' & [= <- <-] & Hfirst).
      done.
    + apply Forall_app. split.
      * apply Forall_forall. intros segs Hin.
        destruct (proj1 (Forall_forall _ _) Hhead1 segs Hin) as (Hg & rest & ->).
        split; [done|]. exists (name f), rest. split; [done|]. simpl. left.
      * apply Forall_forall. intros segs Hin.
        destruct (proj1 (Forall_forall _ _) Hseg2 segs Hin)
          as (Hg & first & rest & -> & Hfirst).
        split; [done|]. exists first, rest. split; [done|]. simpl. by right.
Qed.
End Distinct.

(** X5. With field names as the grammar has them (not empty, no dot, distinct
    within a message), the list of optional fields names no path twice. *)
Theorem optional_paths_are_distinct s explicitOptionalFields fuel t optionalFields :
  wellNamed s ->
  getOptionalFieldsFromTypeWithExplicit s explicitOptionalFields fuel t = Ok optionalFields ->
  NoDup optionalFields.
Proof.
  intros Hnames H.
  destruct (extract_segments s explicitOptionalFields Hnames _ _ _ _ _ _ H)
    as (paths & -> & Hnd & Hseg).
  simpl. change (map (joinFrom "") paths) with (joinFrom "" <$> paths).
  apply NoDup_fmap_2_strong; [|done]. intros x y Hx Hy Heq.
  destruct (proj1 (Forall_forall _ _) Hseg x Hx) as (Hgx & fx & rx & -> & _).
  destruct (proj1 (Forall_forall _ _) Hseg y Hy) as (Hgy & fy & ry & -> & _).
  rewrite <- (split_join_root (fx :: rx)), <- (split_join_root (fy :: ry)) by done.
  by rewrite Heq.
Qed.

Lemma optional_paths_distinct_witness : NoDup ["a.x"; "b.x"].
Proof.
  apply (optional_paths_are_distinct Examples.nestedSchema
           (parseExplicitOptionalFields Examples.nestedSource) 2 0 _ nested_wellNamed).
  vm_compute. reflexivity.
Defined.

(** ** The rule-based extractor *)

Lemma byRule_step_target s recur type_ fieldPrefix optionalFields field :
  (forall t fp acc msg, recur t fp acc ≠ Throw msg) ->
  ByRule.extractStep s recur type_ fieldPrefix optionalFields field =
  let optionalFields' :=
    if rule_eqb (rule field) RuleOptional
    then optionalFields ++ [dotted fieldPrefix (name field)] else optionalFields in
  match extractTarget s type_ field with
  | Some t => recur t (dotted fieldPrefix (name field)) optionalFields'
  | None => Ok optionalFields'
  end.
Proof.
  intros Hrecur. unfold ByRule.extractStep, extractTarget. simpl.
  destruct (resolvedType field) as [[t|e]|];
    [|destruct (nested_get (typeOf s type_) (type field)) as [[t| |]|]..]; simpl; try done.
  all: match goal with
       | |- try_catch ?m _ = _ => destruct m eqn:E; simpl; try done;
                                   by apply Hrecur in E
       end.
Qed.

Lemma byRule_no_throw s fuel :
  forall t fp acc msg, ByRule.extractOptionalFieldsRecursive s fuel t fp acc ≠ Throw msg.
Proof.
  induction fuel as [|fuel IH]; intros t fp acc msg; simpl; [done|].
  apply foldM_no_throw. intros st f msg' _.
  rewrite byRule_step_target by done. simpl.
  destruct (extractTarget s t f); [apply IH|done].
Qed.

(** X6. For a message none of whose fields leads into a message type, the
    rule-based extractor lists the names of the fields whose rule is
    [optional], in declaration order, and the scanned-set extractor lists the
    names of the fields recorded under the message's own name. *)
Theorem extractors_on_flat_message s explicitOptionalFields fuel t :
  (forall f, f ∈ fieldsArray (typeOf s t) -> extractTarget s t f = None) ->
  getOptionalFieldsFromType s (S fuel) t =
    Ok (map name (List.filter (fun f => rule_eqb (rule f) RuleOptional)
                    (fieldsArray (typeOf s t))))
  /\ getOptionalFieldsFromTypeWithExplicit s explicitOptionalFields (S fuel) t =
    Ok (map name
          (List.filter
             (fun f => bool_decide (tname (typeOf s t) +:+ "." +:+ name f
                                    ∈ explicitOptionalFields))
             (fieldsArray (typeOf s t)))).
Proof.
  intros Hflat. unfold getOptionalFieldsFromType, getOptionalFieldsFromTypeWithExplicit.
  simpl. split.
  - assert (Hloop : forall acc,
      foldM (ByRule.extractStep s (ByRule.extractOptionalFieldsRecursive s fuel) t "")
        (fieldsArray (typeOf s t)) acc =
      Ok (acc ++ map name (List.filter (fun f => rule_eqb (rule f) RuleOptional)
                             (fieldsArray (typeOf s t))))).
    { revert Hflat. induction (fieldsArray (typeOf s t)) as [|f fields IH]; intros Hflat acc.
      - simpl. by rewrite app_nil_r.
      - simpl. rewrite byRule_step_target by apply byRule_no_throw. simpl.
        rewrite (Hflat f) by left. simpl.
        rewrite IH by (intros g Hg; apply Hflat; by right).
        destruct (rule_eqb (rule f) RuleOptional); simpl; [|done].
        by rewrite <- app_assoc. }
    apply (Hloop []).
  - assert (Hloop : forall acc,
      foldM (extractStep s explicitOptionalFields
               (extractOptionalFieldsRecursive s explicitOptionalFields fuel) t "" "")
        (fieldsArray (typeOf s t)) acc =
      Ok (acc ++ map name
            (List.filter
               (fun f => bool_decide (tname (typeOf s t) +:+ "." +:+ name f
                                      ∈ explicitOptionalFields))
               (fieldsArray (typeOf s t))))).
    { revert Hflat. induction (fieldsArray (typeOf s t)) as [|f fields IH]; intros Hflat acc.
      - simpl. by rewrite app_nil_r.
      - simpl. rewrite extractStep_target by apply extract_no_throw. simpl.
        rewrite (Hflat f) by left. simpl.
        rewrite IH by (intros g Hg; apply Hflat; by right).
        unfold pushed, dotted at 1 2. simpl.
        destruct (bool_decide _); simpl; [|done].
        by rewrite <- app_assoc. }
    apply (Hloop []).
Qed.

Lemma catalog_message_is_flat f :
  f ∈ fieldsArray (typeOf Examples.catalogSchema 0) ->
  extractTarget Examples.catalogSchema 0 f = None.
Proof. intros Hf. enumerate_fields Hf; reflexivity. Qed.

Lemma extractors_on_flat_witness :
  getOptionalFieldsFromType Examples.catalogSchema 1 0 = Ok ["age"]
  /\ getOptionalFieldsFromTypeWithExplicit Examples.catalogSchema
       (parseExplicitOptionalFields Examples.catalogSource) 1 0 = Ok ["age"].
Proof.
  destruct (extractors_on_flat_message Examples.catalogSchema
              (parseExplicitOptionalFields Examples.catalogSource) 0 0
              catalog_message_is_flat) as [HbyRule Hexplicit].
  split.
  - rewrite HbyRule. reflexivity.
  - rewrite Hexplicit. vm_compute. reflexivity.
Defined.

(** X7. The two extractors walk the same types: on any schema, with any
    scanned set and the same fuel, one returns a list exactly when the other
    does. *)
Theorem extractors_return_together s explicitOptionalFields fuel t :
  (exists l, getOptionalFieldsFromType s fuel t = Ok l)
  <-> (exists l, getOptionalFieldsFromTypeWithExplicit s explicitOptionalFields fuel t = Ok l).
Proof.
  unfold getOptionalFieldsFromType, getOptionalFieldsFromTypeWithExplicit.
  generalize (@nil string) at 1 as acc. generalize (@nil string) as acc'.
  generalize "" at 1 as fp. generalize "" at 1 as fp'. generalize "" as tp.
  revert t. induction fuel as [|fuel IH]; intros t tp fp' fp acc' acc; simpl.
  - split; intros [l H]; discriminate.
  - revert acc acc'. induction (fieldsArray (typeOf s t)) as [|f fields IHf];
      intros acc acc'; simpl; [split; eauto|].
    rewrite byRule_step_target by apply byRule_no_throw.
    rewrite extractStep_target by apply extract_no_throw. simpl.
    destruct (extractTarget s t f) as [t'|]; simpl; [|apply IHf].
    split.
    + intros [l H]. apply bind_Ok in H as (acc1 & Hstep & Hfold).
      destruct (proj1 (IH t' (dotted tp (tname (typeOf s t))) (dotted fp' (name f))
                         (dotted fp (name f))
                         (pushed explicitOptionalFields
                            (dotted tp (tname (typeOf s t) +:+ "." +:+ name f))
                            (dotted fp' (name f)) acc')
                         _) (ex_intro _ acc1 Hstep)) as [acc1' ->].
      simpl. apply (IHf acc1 acc1'). eauto.
    + intros [l H]. apply bind_Ok in H as (acc1 & Hstep & Hfold).
      destruct (proj2 (IH t' (dotted tp (tname (typeOf s t))) (dotted fp' (name f))
                         (dotted fp (name f)) _
                         (if rule_eqb (rule f) RuleOptional
                          then acc ++ [dotted fp (name f)] else acc))
                  (ex_intro _ acc1 Hstep)) as [acc1' ->].
      simpl. apply (IHf acc1' acc1). eauto.
Qed.

Lemma extractors_return_together_witness :
  exists l,
    getOptionalFieldsFromTypeWithExplicit Examples.catalogSchema
      (parseExplicitOptionalFields Examples.catalogSource) 1 0 = Ok l.
Proof.
  apply (proj1 (extractors_return_together Examples.catalogSchema
                  (parseExplicitOptionalFields Examples.catalogSource) 1 0)).
  exists ["age"]. reflexivity.
Defined.

(** ** The scanner, line by line *)

(** X8. A comment line or a blank line changes nothing, wherever it stands:
    the source with the line and the source without it are scanned to the same
    set (the line may hold braces, message headers or optional fields). *)
Theorem comment_lines_are_ignored before line after :
  skipped line = true ->
  Text.count "010" line = 0 ->
  parseExplicitOptionalFields (before +:+ String "010" (line +:+ String "010" after))
  = parseExplicitOptionalFields (before +:+ String "010" after)
  /\ parseExplicitOptionalFields (line +:+ String "010" after)
     = parseExplicitOptionalFields after.
Proof.
  intros Hskip Hline. unfold parseExplicitOptionalFields, Scanner.scan.
  rewrite !split_app, (split_no_separator _ line Hline), !scan_lines_app. simpl.
  by rewrite !skipped_scanLine.
Qed.

Lemma comment_lines_witness :
  parseExplicitOptionalFields
    ("message M {" +:+ String "010" ("  // optional string old = 9; }" +:+ String "010"
       "  optional string x = 1;"))
  = parseExplicitOptionalFields
      ("message M {" +:+ String "010" "  optional string x = 1;")
  /\ parseExplicitOptionalFields
       ("  // optional string old = 9; }" +:+ String "010" "  optional string x = 1;")
     = parseExplicitOptionalFields "  optional string x = 1;".
Proof.
  exact (comment_lines_are_ignored "message M {" "  // optional string old = 9; }"
           "  optional string x = 1;" eq_refl eq_refl).
Defined.

(** X9. Over lines that neither close a block nor declare a message the
    stack of open messages stays as it is, and what is recorded is exactly
    the field name of every line that starts with the optional keyword,
    each qualified by that stack. *)
Theorem quiet_lines_record_under_the_stack lines : forall st,
  Forall quiet lines ->
  Scanner.messageStack (fold_left Scanner.scanLine lines st) = Scanner.messageStack st
  /\ Scanner.explicitOptionalFields (fold_left Scanner.scanLine lines st)
     = Scanner.explicitOptionalFields st
       ∪ list_to_set (qualify (Scanner.messageStack st)
                        <$> omap (fun line => recordedName (Text.trim line)) lines).
Proof.
  induction lines as [|line lines IH]; intros st Hall.
  - simpl. split; [done|]. by rewrite union_empty_r_L.
  - apply Forall_cons in Hall as [Hline Hall]. simpl fold_left.
    destruct (quiet_scanLine st line Hline) as [Hstack Hset].
    destruct (IH (Scanner.scanLine st line) Hall) as [Hstack' Hset'].
    split; [congruence|]. rewrite Hset', Hset, Hstack. simpl omap.
    destruct (recordedName (Text.trim line)) as [fieldName|]; [|done].
    rewrite fmap_cons, list_to_set_cons.
    by rewrite (union_comm_L {[ _ ]} (Scanner.explicitOptionalFields st)), union_assoc_L.
Qed.

Lemma quiet_lines_witness :
  Scanner.messageStack
    (fold_left Scanner.scanLine ["  string name = 1;"; MoreExamples.noBreakIndented]
       (Scanner.scanLine Scanner.initial "message M {")) = ["M"]
  /\ Scanner.explicitOptionalFields
       (fold_left Scanner.scanLine ["  string name = 1;"; MoreExamples.noBreakIndented]
          (Scanner.scanLine Scanner.initial "message M {"))
     = ∅ ∪ list_to_set (qualify ["M"] <$> ["age"]).
Proof.
  apply (quiet_lines_record_under_the_stack
           ["  string name = 1;"; MoreExamples.noBreakIndented]
           (Scanner.scanLine Scanner.initial "message M {")).
  repeat constructor.
Defined.

(** ** Recognising a field line *)

Lemma space_is_not_word c : Ascii.is_space c = true -> Text.is_word_or_dot c = false.
Proof. destruct c as [[] [] [] [] [] [] [] []]; vm_compute; congruence. Qed.

Lemma word_is_word_or_dot c : Text.is_word c = true -> Text.is_word_or_dot c = true.
Proof. unfold Text.is_word_or_dot. by intros ->. Qed.

Lemma word_leads_no_space c : Text.is_word_or_dot c = true -> Text.leadsSpace c = false.
Proof. destruct c as [[] [] [] [] [] [] [] []]; vm_compute; congruence. Qed.

Lemma spanSpace_outside b : startsOutside Text.leadsSpace b -> Text.spanSpace b = ("", b).
Proof.
  destruct b as [|c rest]; [done|]. unfold startsOutside, Text.leadsSpace.
  intros H. repeat (apply orb_false_iff in H as [H ?]).
  cbn [Text.spanSpace]. rewrite H.
  destruct rest as [|d [|e rest]]; [done|..];
    unfold Text.is_space2, Text.is_space3;
    repeat match goal with Heq : Ascii.eqb c _ = false |- _ => rewrite Heq; clear Heq end;
    done.
Qed.

Lemma spanSpace_all a b :
  allOf Ascii.is_space a = true -> startsOutside Text.leadsSpace b ->
  Text.spanSpace (a +:+ b) = (a, b).
Proof.
  intros Ha Hb. induction a as [|c a IH].
  - change ("" +:+ b) with b. by apply spanSpace_outside.
  - change (String c a +:+ b) with (String c (a +:+ b)). simpl in Ha.
    apply andb_true_iff in Ha as [Hc Ha]. cbn [Text.spanSpace]. by rewrite Hc, IH.
Qed.

Lemma span_all p a b :
  allOf p a = true -> startsOutside p b -> Text.span p (a +:+ b) = (a, b).
Proof.
  intros Ha Hb. induction a as [|c a IH].
  - change ("" +:+ b) with b. destruct b as [|d b]; simpl in *; [done|by rewrite Hb].
  - change (String c a +:+ b) with (String c (a +:+ b)). simpl in *.
    apply andb_true_iff in Ha as [-> Ha]. by rewrite IH.
Qed.

Lemma startsOutside_app (p q : ascii -> bool) a b :
  (forall c, q c = true -> p c = false) ->
  allOf q a = true -> a ≠ "" -> startsOutside p (a +:+ b).
Proof.
  intros Hpq Ha Hne. destruct a as [|c a]; [done|]. simpl in *.
  apply andb_true_iff in Ha as [Hc _]. by apply Hpq.
Qed.

Lemma nonempty_true str : str ≠ "" -> Text.nonempty str = true.
Proof. intros H. unfold Text.nonempty. by rewrite (proj2 (String.eqb_neq _ _) H). Qed.

Lemma fieldMatch_here str ident :
  Text.fieldMatchHere str = Some ident -> Text.fieldMatch str = Some ident.
Proof.
  intros H. destruct str as [|c str]; [by vm_compute in H|].
  change (Text.fieldMatch (String c str))
    with (match Text.fieldMatchHere (String c str) with
          | Some found => Some found
          | None => Text.fieldMatch str
          end).
  by rewrite H.
Qed.

(** X10. A line made of the keyword, a type, a field name and the equals
    sign, separated by white space, is recognised and its field name
    captured when the keyword is followed by a space; when it is followed by
    another white-space character (a tab) the line records nothing. *)
Theorem optional_line_is_recognised s1 ty s2 fieldName s3 rest :
  allOf Ascii.is_space s1 = true -> s1 ≠ "" ->
  allOf Text.is_word_or_dot ty = true -> ty ≠ "" ->
  allOf Ascii.is_space s2 = true -> s2 ≠ "" ->
  allOf Text.is_word fieldName = true -> fieldName ≠ "" ->
  allOf Ascii.is_space s3 = true ->
  recordedName ("optional" +:+ s1 +:+ ty +:+ s2 +:+ fieldName +:+ s3 +:+ "=" +:+ rest)
  = if Text.startsWith s1 " " then Some fieldName else None.
Proof.
  intros Hs1 Hn1 Hty Hnty Hs2 Hn2 Hname Hnname Hs3.
  unfold recordedName.
  assert (Hstart :
    Text.startsWith ("optional" +:+ s1 +:+ ty +:+ s2 +:+ fieldName +:+ s3 +:+ "=" +:+ rest)
      "optional " = Text.startsWith s1 " ").
  { destruct s1 as [|c s1]; [done|]. unfold Text.startsWith.
    change (String.prefix "optional "
              ("optional" +:+ String c s1 +:+ ty +:+ s2 +:+ fieldName +:+ s3 +:+ "=" +:+ rest))
      with (String.prefix " "
              (String c (s1 +:+ ty +:+ s2 +:+ fieldName +:+ s3 +:+ "=" +:+ rest))).
    change " " with (String " " ""). rewrite !prefix_cons.
    destruct (ascii_dec " " c); [|done]. by rewrite !prefix_nil. }
  rewrite Hstart. destruct (Text.startsWith s1 " "); [|done].
  apply fieldMatch_here. unfold Text.fieldMatchHere.
  change (Text.strip "optional"
            ("optional" +:+ s1 +:+ ty +:+ s2 +:+ fieldName +:+ s3 +:+ "=" +:+ rest))
    with (Some (s1 +:+ ty +:+ s2 +:+ fieldName +:+ s3 +:+ "=" +:+ rest)).
  simpl.
  rewrite (spanSpace_all s1) by
    (done || apply (startsOutside_app _ Text.is_word_or_dot); auto using word_leads_no_space).
  rewrite (span_all Text.is_word_or_dot ty) by
    (done || apply (startsOutside_app _ Ascii.is_space); auto using space_is_not_word).
  rewrite (spanSpace_all s2) by
    (done || apply (startsOutside_app _ Text.is_word);
             auto using word_leads_no_space, word_is_word_or_dot).
  assert (Htail : startsOutside Text.is_word (s3 +:+ "=" +:+ rest)).
  { destruct s3 as [|c s3]; [done|]. simpl in *.
    apply andb_true_iff in Hs3 as [Hc _]. apply space_is_not_word in Hc.
    unfold Text.is_word_or_dot in Hc. by apply orb_false_iff in Hc as [-> _]. }
  rewrite (span_all Text.is_word fieldName) by done.
  rewrite (spanSpace_all s3) by done.
  rewrite !nonempty_true by done. unfold Text.startsWith.
  change ("=" +:+ rest) with (String "=" rest). change "=" with (String "=" "").
  by rewrite prefix_cons, prefix_nil.
Qed.

Lemma optional_line_witness :
  recordedName ("optional" +:+ " " +:+ "pkg.Kind" +:+ "  " +:+ "kind_1" +:+ "" +:+ "="
                +:+ " 4;")
  = Some "kind_1".
Proof.
  exact (optional_line_is_recognised " " "pkg.Kind" "  " "kind_1" "" " 4;"
           eq_refl ltac:(discriminate) eq_refl ltac:(discriminate)
           eq_refl ltac:(discriminate) eq_refl ltac:(discriminate) eq_refl).
Defined.

(** ** Keys of the catalogs *)

Lemma store_dom {V} s (compute : TypeId -> result V) fallback l :
  never_throws compute ->
  forall methodMap methodMap',
    foldM (storeMethod s compute fallback) l methodMap = Ok methodMap' ->
    dom methodMap' = dom methodMap ∪ list_to_set l.*1.
Proof.
  intros Hno. induction l as [|[n x] l IH]; intros m m' H.
  - injection H as <-. simpl. by rewrite union_empty_r_L.
  - apply foldM_cons_Ok in H as (m1 & Hstep & Hfold).
    apply (storeMethod_Ok s compute fallback Hno) in Hstep as (c & _ & ->).
    rewrite (IH _ _ Hfold), dom_insert_L, fmap_cons, list_to_set_cons. simpl.
    by rewrite (union_comm_L {[ n ]} (dom m)), union_assoc_L.
Qed.

(** X11. When both catalogs are produced, the keys of each are exactly the
    bare names of the methods met on the walk; so every method that has a
    template has a list of optional fields, and conversely. *)
Theorem catalogs_have_the_method_names s fuel protoContent root methodMap optionalFieldsMap :
  parseProtoContent s fuel root = Ok methodMap ->
  getOptionalFieldsMap s fuel protoContent root = Ok optionalFieldsMap ->
  dom methodMap = list_to_set (visitOrder root).*1
  /\ dom optionalFieldsMap = dom methodMap.
Proof.
  unfold parseProtoContent, getOptionalFieldsMap, extractServices, extractOptionalFields.
  cbv zeta. rewrite !walkNamespace_visitOrder. intros Hmap Hopt.
  apply store_dom in Hmap; [|apply generateEmptyJsonTemplate_no_throw].
  apply store_dom in Hopt; [|apply getOptionalFields_no_throw].
  rewrite Hmap, Hopt, !dom_empty_L, !union_empty_l_L. done.
Qed.

Lemma catalogs_keys_witness :
  dom (<["Get" := JObj [("id", JStr "")]]> (<["Lost" := JObj []]> (∅ : gmap string Json)))
    = list_to_set (visitOrder Examples.catalogRoot).*1
  /\ dom (<["Get" := []]> (<["Lost" := []]> (∅ : gmap string (list string))))
     = dom (<["Get" := JObj [("id", JStr "")]]> (<["Lost" := JObj []]> (∅ : gmap string Json))).
Proof.
  apply (catalogs_have_the_method_names Examples.catalogSchema 2 Examples.catalogSource
           Examples.catalogRoot).
  - vm_compute. reflexivity.
  - vm_compute. reflexivity.
Defined.

(** ** Import resolution *)

Lemma endsWith_cons c rest suffix :
  Imports.endsWith (String c rest) suffix
  = (String.eqb (String c rest) suffix || Imports.endsWith rest suffix)%bool.
Proof. reflexivity. Qed.

Lemma endsWith_refl str : Imports.endsWith str str = true.
Proof. destruct str; [done|]. by rewrite endsWith_cons, String.eqb_refl. Qed.

Lemma endsWith_suffix str suffix :
  Imports.endsWith str suffix = true <-> exists front, str = front +:+ suffix.
Proof.
  split.
  - induction str as [|c str IH].
    + destruct suffix; [by exists ""|done].
    + rewrite endsWith_cons. intros [->%String.eqb_eq|H]%orb_true_iff; [by exists ""|].
      destruct (IH H) as [front ->]. by exists (String c front).
  - intros [front ->]. induction front as [|c front IH].
    + apply endsWith_refl.
    + change (String c front +:+ suffix) with (String c (front +:+ suffix)).
      rewrite endsWith_cons, IH. apply orb_true_r.
Qed.

Lemma endsWith_trans a b c :
  Imports.endsWith a b = true -> Imports.endsWith b c = true -> Imports.endsWith a c = true.
Proof.
  intros [f1 ->]%endsWith_suffix [f2 ->]%endsWith_suffix.
  apply endsWith_suffix. exists (f1 +:+ f2). by rewrite append_assoc.
Qed.

Lemma firstMatch_Some {A} test (l : list (string * A)) k v :
  Imports.firstMatch test l = Some (k, v) <->
  exists l1 l2, l = l1 ++ (k, v) :: l2 /\ test k = true
                /\ Forall (fun entry => test entry.1 = false) l1.
Proof.
  split.
  - induction l as [|[k' v'] l IH]; simpl; [done|].
    destruct (test k') eqn:Hk'.
    + intros [= -> ->]. exists [], l. by repeat split.
    + intros H. destruct (IH H) as (l1 & l2 & -> & Hk & Hall).
      exists ((k', v') :: l1), l2. repeat split; [done|]. by constructor.
  - intros (l1 & l2 & -> & Hk & Hall). induction Hall as [|[k' v'] l1 Hk' _ IH]; simpl.
    + by rewrite Hk.
    + simpl in Hk'. by rewrite Hk'.
Qed.

Lemma firstMatch_None {A} test (l : list (string * A)) :
  Imports.firstMatch test l = None <-> Forall (fun entry => test entry.1 = false) l.
Proof.
  induction l as [|[k v] l IH]; simpl; [by split; [constructor|]|].
  destruct (test k) eqn:Hk.
  - split; [done|]. intros [H _]%Forall_cons. simpl in H. congruence.
  - rewrite IH. split; [by constructor|by intros [_ H]%Forall_cons].
Qed.

Lemma obj_get_None {A} k (o : list (string * A)) : obj_get k o = None <-> k ∉ o.*1.
Proof.
  induction o as [|[k' v'] o IH]; simpl.
  - split; [intros _; apply not_elem_of_nil|done].
  - rewrite not_elem_of_cons. destruct (String.eqb_spec k' k) as [->|Hne].
    + split; [done|]. by intros [? _].
    + rewrite IH. split; [by split|by intros [_ ?]].
Qed.

(** X12. The name [resolvePath] returns always ends with the requested
    target; it is the target itself or the name of an import file; and
    resolving it once more gives it back. *)
Theorem resolvePath_is_stable importFiles origin target :
  let resolved := Imports.resolvePath importFiles origin target in
  Imports.endsWith resolved target = true
  /\ (resolved = target \/ resolved ∈ importFiles.*1)
  /\ Imports.resolvePath importFiles origin resolved = resolved.
Proof.
  cbv zeta. unfold Imports.resolvePath.
  destruct (Imports.firstMatch _ importFiles) as [[k v]|] eqn:Hfirst.
  - pose proof Hfirst as Hsplit.
    apply firstMatch_Some in Hsplit as (l1 & l2 & -> & Hk & Hall).
    assert (Hends : Imports.endsWith k target = true).
    { apply orb_true_iff in Hk as [Hk|Hk%String.eqb_eq]; [done|].
      subst. apply endsWith_refl. }
    split; [done|]. split.
    + right. rewrite fmap_app, fmap_cons. apply elem_of_app. right. left.
    + assert (Hagain :
        Imports.firstMatch
          (fun filename => (Imports.endsWith filename k || String.eqb filename k)%bool)
          (l1 ++ (k, v) :: l2) = Some (k, v)).
      { apply firstMatch_Some. exists l1, l2. split; [done|]. split.
        - by rewrite endsWith_refl.
        - eapply Forall_impl; [exact Hall|]. intros [k' v'] Hk'. simpl in *.
          apply orb_false_iff in Hk' as [Hk' _].
          destruct (Imports.endsWith k' k) eqn:Hkk.
          + by rewrite (endsWith_trans _ _ _ Hkk Hends) in Hk'.
          + simpl. apply String.eqb_neq. intros ->. by rewrite endsWith_refl in Hkk. }
      by rewrite Hagain.
  - split; [apply endsWith_refl|]. split; [by left|]. by rewrite Hfirst.
Qed.

(** X13. Every name that is a key of the import set can be fetched: the
    promise is never rejected, and it delivers the file's own content when
    that content is not empty. *)
Theorem fetch_serves_every_import basename importFiles filename :
  filename ∈ importFiles.*1 ->
  (exists content, Imports.fetch basename importFiles filename = Ok content)
  /\ (forall content, obj_get filename importFiles = Some content -> content ≠ "" ->
        Imports.fetch basename importFiles filename = Ok content).
Proof.
  intros Hin. unfold Imports.fetch.
  assert (Hfound : exists k v,
    Imports.firstMatch
      (fun key => (Imports.endsWith key filename
                   || String.eqb (basename key) (basename filename))%bool)
      importFiles = Some (k, v)).
  { destruct (Imports.firstMatch _ importFiles) as [[k v]|] eqn:Hfirst; [eauto|].
    apply firstMatch_None in Hfirst.
    apply list_elem_of_fmap in Hin as ([k v] & -> & Hin).
    pose proof (proj1 (Forall_forall _ _) Hfirst _ Hin) as Hk. simpl in Hk.
    by rewrite endsWith_refl in Hk. }
  destruct Hfound as (k & v & ->). split.
  - destruct (obj_get filename importFiles) as [content|]; [|eauto].
    destruct (Text.nonempty content); eauto.
  - intros content -> Hne. by rewrite nonempty_true.
Qed.

Lemma fetch_witness :
  (exists content,
     Imports.fetch (fun p => p) [("a.proto", "syntax = 'proto3';"); ("b.proto", "")] "b.proto"
       = Ok content)
  /\ Imports.fetch (fun p => p) [("a.proto", "syntax = 'proto3';"); ("b.proto", "")] "a.proto"
     = Ok "syntax = 'proto3';".
Proof.
  split.
  - apply (fetch_serves_every_import (fun p => p)
             [("a.proto", "syntax = 'proto3';"); ("b.proto", "")] "b.proto").
    by_membership.
  - apply (fetch_serves_every_import (fun p => p)
             [("a.proto", "syntax = 'proto3';"); ("b.proto", "")] "a.proto").
    + by_membership.
    + reflexivity.
    + discriminate.
Defined.

(** X14. [fetch] rejects a name exactly when no key of the import set ends
    with it and none has its base name; the error then names the file. *)
Theorem fetch_rejects_only_strangers basename importFiles filename :
  Imports.fetch basename importFiles filename = Throw ("File not found: " +:+ filename)
  <-> Forall (fun entry => Imports.endsWith entry.1 filename = false
                           /\ basename entry.1 ≠ basename filename) importFiles.
Proof.
  assert (Htest : forall l : list (string * string),
    Forall (fun entry => (Imports.endsWith entry.1 filename
                          || String.eqb (basename entry.1) (basename filename))%bool = false) l
    <-> Forall (fun entry => Imports.endsWith entry.1 filename = false
                             /\ basename entry.1 ≠ basename filename) l).
  { intros l. apply Forall_proper; [|done]. intros [k v]. simpl.
    by rewrite orb_false_iff, String.eqb_neq. }
  split.
  - intros H. apply Htest.
    apply (firstMatch_None
             (fun key => (Imports.endsWith key filename
                          || String.eqb (basename key) (basename filename))%bool)).
    revert H. unfold Imports.fetch.
    destruct (Imports.firstMatch _ importFiles) as [[k v]|]; [|done].
    destruct (obj_get filename importFiles) as [content|]; [|done].
    by destruct (Text.nonempty content).
  - intros Hall. apply Htest in Hall.
    pose proof (proj2 (firstMatch_None
                  (fun key => (Imports.endsWith key filename
                               || String.eqb (basename key) (basename filename))%bool)
                  importFiles) Hall) as Hnone.
    unfold Imports.fetch. rewrite Hnone.
    assert (Hget : obj_get filename importFiles = None).
    { apply obj_get_None. intros Hin.
      apply list_elem_of_fmap in Hin as ([k v] & -> & Hin).
      pose proof (proj1 (Forall_forall _ _) Hall _ Hin) as Hk. simpl in Hk.
      by rewrite endsWith_refl in Hk. }
    by rewrite Hget.
Qed.

(** ** The server's services and the catalogs *)

Lemma generate_is_object s fuel t v :
  generateEmptyJsonTemplate s fuel t = Ok v -> exists props, v = JObj props.
Proof.
  destruct fuel as [|fuel]; [done|]. simpl. intros H.
  apply bind_Ok in H as (props & _ & [= <-]). eauto.
Qed.

Lemma fold_insert_lookup {V} (f : string * Method -> V) serviceMethods :
  forall (acc : gmap string V) n v,
  fold_left (fun acc entry => <[entry.1 := f entry]> acc) serviceMethods acc !! n = Some v ->
  acc !! n = Some v \/ exists entry, entry ∈ serviceMethods /\ entry.1 = n /\ v = f entry.
Proof.
  induction serviceMethods as [|e l IH]; intros acc n v H; [by left|].
  simpl in H. destruct (IH _ _ _ H) as [Hacc|(entry & Hin & Hn & Hv)].
  - destruct (decide (e.1 = n)) as [Heq|Hne].
    + rewrite Heq, lookup_insert_eq in Hacc. injection Hacc as <-.
      right. exists e. split; [left|done].
    + rewrite lookup_insert_ne in Hacc by done. by left.
  - right. exists entry. split; [by right|done].
Qed.

Section ServerWalk.
Variable fullNameOf : string -> string -> string.
Variable methodMap : gmap string Json.
Variable optionalFieldsMap : gmap string (list string).

Lemma server_extractServices_cons name nested l prefix services :
  Server.extractServices fullNameOf methodMap optionalFieldsMap
    (Namespace (Some ((name, nested) :: l))) prefix services =
  Server.extractServices fullNameOf methodMap optionalFieldsMap (Namespace (Some l)) prefix
    match nested with
    | Service serviceMethods =>
        <[name := Server.serviceInfo fullNameOf methodMap optionalFieldsMap prefix name
                    serviceMethods]> services
    | Namespace (Some _) | TypeObj (Some _) =>
        Server.extractServices fullNameOf methodMap optionalFieldsMap nested
          (dotted prefix name) services
    | Namespace None | TypeObj None | EnumObj => services
    end.
Proof. reflexivity. Qed.

(** Every service the handler lists was built by [serviceInfo] from a
    service of the tree, whose methods the walk of the parser visits. *)
Lemma server_services_come_from_the_tree namespace :
  forall prefix services name info,
    Server.extractServices fullNameOf methodMap optionalFieldsMap namespace prefix services
      !! name = Some info ->
    services !! name = Some info
    \/ exists prefix' serviceMethods,
         info = Server.serviceInfo fullNameOf methodMap optionalFieldsMap prefix' name
                  serviceMethods
         /\ forall entry, entry ∈ serviceMethods -> entry ∈ visitOrder namespace.
Proof.
  assert (Hentries : forall l,
    Forall (fun e => forall prefix services name info,
              Server.extractServices fullNameOf methodMap optionalFieldsMap e.2 prefix services
                !! name = Some info ->
              services !! name = Some info
              \/ exists prefix' serviceMethods,
                   info = Server.serviceInfo fullNameOf methodMap optionalFieldsMap prefix'
                            name serviceMethods
                   /\ forall entry, entry ∈ serviceMethods -> entry ∈ visitOrder e.2) l ->
    forall prefix services name info,
      Server.extractServices fullNameOf methodMap optionalFieldsMap (Namespace (Some l))
        prefix services !! name = Some info ->
      services !! name = Some info
      \/ exists prefix' serviceMethods,
           info = Server.serviceInfo fullNameOf methodMap optionalFieldsMap prefix' name
                    serviceMethods
           /\ forall entry, entry ∈ serviceMethods
                            -> entry ∈ visitOrder (Namespace (Some l))).
  { intros l Hl prefix. induction Hl as [|[n o] l Ho _ IHl]; intros services name info H.
    - by left.
    - rewrite server_extractServices_cons in H. rewrite visitOrder_cons.
      destruct (IHl _ _ _ H) as [Hhead|(prefix' & ms & -> & Hms)].
      + simpl in Ho.
        destruct o as [ms|[l'|]|[l'|]|]; try by left.
        * destruct (decide (n = name)) as [->|Hne].
          -- rewrite lookup_insert_eq in Hhead. injection Hhead as <-.
             right. exists prefix, ms. split; [done|].
             intros entry Hin. apply elem_of_app. by left.
          -- rewrite lookup_insert_ne in Hhead by done. by left.
        * destruct (Ho _ _ _ _ Hhead) as [?|(prefix' & ms & -> & Hms)]; [by left|].
          right. exists prefix', ms. split; [done|].
          intros entry Hin. apply elem_of_app. left. by apply Hms.
        * destruct (Ho _ _ _ _ Hhead) as [?|(prefix' & ms & -> & Hms)]; [by left|].
          right. exists prefix', ms. split; [done|].
          intros entry Hin. apply elem_of_app. left. by apply Hms.
      + right. exists prefix', ms. split; [done|].
        intros entry Hin. apply elem_of_app. right. by apply Hms. }
  induction namespace as [ms| | | |l IH|l IH] using ReflectionObject_nested_ind;
    intros prefix services name info H; try by left.
  - by apply (Hentries l IH prefix).
  - change (Server.extractServices fullNameOf methodMap optionalFieldsMap
              (TypeObj (Some l)) prefix services)
      with (Server.extractServices fullNameOf methodMap optionalFieldsMap
              (Namespace (Some l)) prefix services) in H.
    change (visitOrder (TypeObj (Some l))) with (visitOrder (Namespace (Some l))).
    by apply (Hentries l IH prefix).
Qed.
End ServerWalk.

Lemma shown_method_is_visited fullNameOf methodMap optionalFieldsMap serviceRoot
    serviceName info methodName shown :
  Server.extractServices fullNameOf methodMap optionalFieldsMap serviceRoot "" ∅
    !! serviceName = Some info ->
  Server.methods info !! methodName = Some shown ->
  exists method,
    (methodName, method) ∈ visitOrder serviceRoot
    /\ shown = Server.methodInfo methodMap optionalFieldsMap (methodName, method).
Proof.
  intros Hinfo Hshown.
  destruct (server_services_come_from_the_tree _ _ _ _ _ _ _ _ Hinfo)
    as [Hempty|(prefix & ms & -> & Hms)]; [by rewrite lookup_empty in Hempty|].
  simpl in Hshown.
  destruct (fold_insert_lookup _ _ _ _ _ Hshown) as [Hempty|([n m0] & Hin & Hn & ->)];
    [by rewrite lookup_empty in Hempty|].
  simpl in Hn. subst n. exists m0. split; [by apply Hms|done].
Qed.

Lemma catalog_templates_are_objects s fuel root methodMap methodName template :
  parseProtoContent s fuel root = Ok methodMap ->
  methodMap !! methodName = Some template ->
  exists props, template = JObj props.
Proof.
  unfold parseProtoContent, extractServices. rewrite walkNamespace_visitOrder.
  intros Hmap Htemplate.
  apply (store_invariant (fun v => exists props, v = JObj props) s _ _
           (visitOrder root) (generateEmptyJsonTemplate_no_throw s fuel)
           (ex_intro _ [] eq_refl)) with (methodMap := ∅)
           (methodMap' := methodMap) (k := methodName); try done.
  intros t v. apply generate_is_object.
Qed.

(** X15. What the request handler shows for a method is what the catalogs
    hold under its bare name: when the tree it walks has the methods the
    parser walked, the fallbacks to an empty template and an empty list are
    never taken. *)
Theorem server_entries_are_the_catalogs s fuel protoContent root serviceRoot
    methodMap optionalFieldsMap fullNameOf serviceName info methodName shown :
  parseProtoContent s fuel root = Ok methodMap ->
  getOptionalFieldsMap s fuel protoContent root = Ok optionalFieldsMap ->
  visitOrder serviceRoot = visitOrder root ->
  Server.extractServices fullNameOf methodMap optionalFieldsMap serviceRoot "" ∅
    !! serviceName = Some info ->
  Server.methods info !! methodName = Some shown ->
  methodMap !! methodName = Some (Server.jsonTemplate shown)
  /\ optionalFieldsMap !! methodName = Some (Server.optionalFields shown).
Proof.
  intros Hmap Hopt Horder Hinfo Hshown.
  destruct (shown_method_is_visited _ _ _ _ _ _ _ _ Hinfo Hshown) as (m0 & Hin & ->).
  rewrite Horder in Hin.
  assert (Hname : methodName ∈ (visitOrder root).*1)
    by apply (list_elem_of_fmap_2 fst _ _ Hin).
  pose proof Hmap as Hobjects.
  unfold parseProtoContent, extractServices in Hmap.
  unfold getOptionalFieldsMap, extractOptionalFields in Hopt. cbv zeta in Hopt.
  rewrite walkNamespace_visitOrder in Hmap. rewrite walkNamespace_visitOrder in Hopt.
  destruct (store_present s _ _ (generateEmptyJsonTemplate_no_throw s fuel)
              _ _ _ _ Hmap Hname) as [template Htemplate].
  destruct (store_present s _ _
              (getOptionalFields_no_throw s (parseExplicitOptionalFields protoContent) fuel)
              _ _ _ _ Hopt Hname) as [fields Hfields].
  destruct (catalog_templates_are_objects _ _ _ _ _ _ Hobjects Htemplate) as [props ->].
  simpl. by rewrite Htemplate, Hfields.
Qed.

Lemma server_entries_witness :
  MoreExamples.catalogMethodMap !! "Get"
    = Some (Server.jsonTemplate
              (Server.methodInfo MoreExamples.catalogMethodMap
                 MoreExamples.catalogOptionalFieldsMap ("Get", Examples.rpc "M" "M")))
  /\ MoreExamples.catalogOptionalFieldsMap !! "Get"
     = Some (Server.optionalFields
               (Server.methodInfo MoreExamples.catalogMethodMap
                  MoreExamples.catalogOptionalFieldsMap ("Get", Examples.rpc "M" "M"))).
Proof.
  apply (server_entries_are_the_catalogs Examples.catalogSchema 2 Examples.catalogSource
           Examples.catalogRoot MoreExamples.catalogServiceRoot
           MoreExamples.catalogMethodMap MoreExamples.catalogOptionalFieldsMap
           MoreExamples.dottedFullName "A"
           (Server.serviceInfo MoreExamples.dottedFullName MoreExamples.catalogMethodMap
              MoreExamples.catalogOptionalFieldsMap "" "A"
              [("Get", Examples.rpc "M" "M"); ("Lost", Examples.rpc "Nowhere" "M")])).
  - vm_compute. reflexivity.
  - vm_compute. reflexivity.
  - reflexivity.
  - vm_compute. reflexivity.
  - vm_compute. reflexivity.
Defined.

(** X16. The template the handler shows for a method of any service is the
    one stored by the last declaration of that bare name on the walk: the
    template of that declaration's request type, whatever the request type
    of the method it is shown for. *)
Theorem shown_template_is_the_last_declared s fuel root serviceRoot methodMap
    optionalFieldsMap fullNameOf before methodName lastDeclared after
    serviceName info shown :
  parseProtoContent s fuel root = Ok methodMap ->
  visitOrder root = before ++ (methodName, lastDeclared) :: after ->
  methodName ∉ after.*1 ->
  Server.extractServices fullNameOf methodMap optionalFieldsMap serviceRoot "" ∅
    !! serviceName = Some info ->
  Server.methods info !! methodName = Some shown ->
  match lookupType s (requestType lastDeclared) with
  | Some t => generateEmptyJsonTemplate s fuel t = Ok (Server.jsonTemplate shown)
  | None => Server.jsonTemplate shown = JObj []
  end.
Proof.
  intros Hmap Horder Hlast Hinfo Hshown.
  destruct (shown_method_is_visited _ _ _ _ _ _ _ _ Hinfo Hshown) as (m0 & _ & ->).
  pose proof Hmap as Hobjects.
  unfold parseProtoContent, extractServices in Hmap.
  rewrite walkNamespace_visitOrder, Horder in Hmap.
  destruct (store_last s _ _ (generateEmptyJsonTemplate_no_throw s fuel)
              _ _ _ _ _ _ Hmap Hlast) as (template & Hstored & Hlook).
  destruct (catalog_templates_are_objects _ _ _ _ _ _ Hobjects Hlook) as [props ->].
  simpl. rewrite Hlook. simpl. unfold storedFor in Hstored.
  destruct (lookupType s (requestType lastDeclared)); congruence.
Qed.

Lemma shown_template_witness :
  generateEmptyJsonTemplate Examples.catalogSchema 2 1
  = Ok (Server.jsonTemplate
          (Server.methodInfo MoreExamples.catalogMethodMap
             MoreExamples.catalogOptionalFieldsMap ("Get", Examples.rpc "M" "M"))).
Proof.
  apply (shown_template_is_the_last_declared Examples.catalogSchema 2
           Examples.catalogRoot MoreExamples.catalogServiceRoot
           MoreExamples.catalogMethodMap MoreExamples.catalogOptionalFieldsMap
           MoreExamples.dottedFullName
           [("Get", Examples.rpc "M" "M"); ("Lost", Examples.rpc "Nowhere" "M")]
           "Get" (Examples.rpc "Item" "Item") [] "A"
           (Server.serviceInfo MoreExamples.dottedFullName MoreExamples.catalogMethodMap
              MoreExamples.catalogOptionalFieldsMap "" "A"
              [("Get", Examples.rpc "M" "M"); ("Lost", Examples.rpc "Nowhere" "M")])).
  - vm_compute. reflexivity.
  - reflexivity.
  - by_evaluation.
  - vm_compute. reflexivity.
  - vm_compute. reflexivity.
Defined.

(** ** The import set of a request *)

Lemma obj_set_keys {A} k (v : A) o :
  map fst (obj_set k v o) = if bool_decide (k ∈ map fst o) then map fst o else map fst o ++ [k].
Proof.
  induction o as [|[k' v'] o IH].
  - case_bool_decide as Hin; [by apply elem_of_nil in Hin|done].
  - simpl obj_set. destruct (String.eqb_spec k' k) as [->|Hne].
    + rewrite bool_decide_true; [done|]. simpl. left.
    + change (map fst ((k', v') :: obj_set k v o)) with (k' :: map fst (obj_set k v o)).
      rewrite IH. simpl map. case_bool_decide as Hin.
      * rewrite bool_decide_true; [done|]. by right.
      * rewrite bool_decide_false; [done|].
        intros [?|?]%elem_of_cons; congruence.
Qed.

Lemma obj_set_keepsKeys k v o : keepsKeys o (obj_set k v o).
Proof.
  unfold keepsKeys. rewrite obj_set_keys. case_bool_decide as Hin; [by eauto|].
  split; [|split].
  - intros Hnd. apply NoDup_app. split; [done|]. split; [|apply NoDup_singleton].
    intros x Hx ->%list_elem_of_singleton. done.
  - intros x Hx. apply elem_of_app. by left.
  - intros x rest ->. by exists (rest ++ [k]).
Qed.

Lemma keepsKeys_trans a b c : keepsKeys a b -> keepsKeys b c -> keepsKeys a c.
Proof.
  intros (H1 & H2 & H3) (H1' & H2' & H3'). split; [|split]; [by auto|by auto|].
  intros k rest Hk. destruct (H3 _ _ Hk) as [rest' Hk']. eauto.
Qed.

Lemma setUploads_keepsKeys files : forall o, keepsKeys o (fold_left Uploads.setUpload files o).
Proof.
  induction files as [|f files IH]; intros o; simpl.
  - split; [|split]; by eauto.
  - eapply keepsKeys_trans; [apply obj_set_keepsKeys|apply IH].
Qed.

Lemma setCommons_keepsKeys common : forall o, keepsKeys o (fold_left Uploads.setCommon common o).
Proof.
  induction common as [|[p c] common IH]; intros o; simpl.
  - split; [|split]; by eauto.
  - eapply keepsKeys_trans; [|apply IH]. unfold Uploads.setCommon. simpl.
    destruct c; [apply obj_set_keepsKeys|]. split; [|split]; by eauto.
Qed.

Lemma setUploads_members files : forall o f,
  f ∈ files -> Uploads.originalname f ∈ map fst (fold_left Uploads.setUpload files o).
Proof.
  induction files as [|g files IH]; intros o f Hf; [by apply elem_of_nil in Hf|].
  simpl. apply elem_of_cons in Hf as [->|Hf]; [|by apply IH].
  apply (setUploads_keepsKeys files). unfold Uploads.setUpload.
  rewrite obj_set_keys. case_bool_decide; [done|]. apply elem_of_app. right. left.
Qed.

Lemma setUploads_untouched files k : forall o,
  Forall (fun f => Uploads.originalname f ≠ k) files ->
  obj_get k (fold_left Uploads.setUpload files o) = obj_get k o.
Proof.
  induction files as [|f files IH]; intros o Hall; [done|].
  apply Forall_cons in Hall as [Hf Hall]. simpl. rewrite IH by done.
  by apply obj_get_set_ne.
Qed.

Lemma setCommons_untouched common k : forall o,
  Forall (fun c => c.1 ≠ k \/ c.2 = None) common ->
  obj_get k (fold_left Uploads.setCommon common o) = obj_get k o.
Proof.
  induction common as [|[p c] common IH]; intros o Hall; [done|].
  apply Forall_cons in Hall as [Hc Hall]. simpl. rewrite IH by done.
  unfold Uploads.setCommon. simpl in *. destruct c as [c|]; [|done].
  destruct Hc as [Hc|Hc]; [by apply obj_get_set_ne|done].
Qed.

(** X17. With at least one upload the import set is built; its keys are
    distinct, the first one is the name of the main file, and every uploaded
    name is among them.  Under the main file's name it holds the main file's
    text, provided no other upload and no readable common file bears that
    name (a later file of the same name replaces the text). *)
Theorem import_set_of_a_request mainProtoFile others commonProtoFiles :
  exists uploaded,
    Uploads.uploadedFiles (mainProtoFile :: others) commonProtoFiles = Ok uploaded
    /\ NoDup (map fst uploaded)
    /\ (exists rest, map fst uploaded = Uploads.originalname mainProtoFile :: rest)
    /\ (forall file, file ∈ mainProtoFile :: others ->
          Uploads.originalname file ∈ map fst uploaded)
    /\ (Forall (fun file => Uploads.originalname file ≠ Uploads.originalname mainProtoFile)
          others ->
        Forall (fun common => common.1 ≠ Uploads.originalname mainProtoFile
                              \/ common.2 = None) commonProtoFiles ->
        obj_get (Uploads.originalname mainProtoFile) uploaded
        = Some (Uploads.content mainProtoFile)).
Proof.
  eexists. split; [reflexivity|].
  set (start := Uploads.setUpload [] mainProtoFile).
  set (uploads := fold_left Uploads.setUpload (mainProtoFile :: others) start).
  destruct (setUploads_keepsKeys (mainProtoFile :: others) start) as (Hnd1 & Hin1 & Hhead1).
  destruct (setCommons_keepsKeys commonProtoFiles uploads) as (Hnd2 & Hin2 & Hhead2).
  split; [|split; [|split]].
  - apply Hnd2, Hnd1. simpl. apply NoDup_singleton.
  - destruct (Hhead1 (Uploads.originalname mainProtoFile) [] eq_refl) as [rest Hrest].
    by apply (Hhead2 _ rest).
  - intros file Hfile. apply Hin2. by apply setUploads_members.
  - intros Hothers Hcommon. rewrite setCommons_untouched by done.
    unfold uploads. simpl. rewrite setUploads_untouched by done.
    unfold start, Uploads.setUpload. simpl. rewrite !String.eqb_refl. simpl.
    by rewrite String.eqb_refl.
Qed.

Lemma import_set_witness :
  obj_get "main.proto" [("main.proto", "message M {}"); ("dep.proto", "message D {}")]
  = Some "message M {}".
Proof.
  destruct (import_set_of_a_request
              {| Uploads.originalname := "main.proto"; Uploads.content := "message M {}" |}
              [ {| Uploads.originalname := "dep.proto"; Uploads.content := "message D {}" |} ]
              [ ("imports/google/protobuf/timestamp.proto", None) ])
    as (uploaded & Hbuilt & _ & _ & _ & Hmain).
  vm_compute in Hbuilt. injection Hbuilt as <-. apply Hmain.
  - constructor; [discriminate|constructor].
  - constructor; [by right|constructor].
Defined.

Lemma fetch_rejects_witness :
  Imports.fetch (fun p => p) [("a.proto", "syntax = 'proto3';")] "zzz.proto"
  = Throw ("File not found: " +:+ "zzz.proto").
Proof.
  apply (proj2 (fetch_rejects_only_strangers (fun p => p)
                  [("a.proto", "syntax = 'proto3';")] "zzz.proto")).
  constructor; [|constructor]. split; [reflexivity|discriminate].
Defined.
